(** * lettuce/parser.py, aloe/runner.py and the after-hook tests

    A shallow embedding of
    - [src/lettuce/parser.py]: the Gherkin grammar written with pyparsing
      and the classes its parse actions build;
    - [src/aloe/runner.py]: [TestProgram.runTests], the options of the
      program ([setup_loader], the default of [--test-class]) and the
      keyword arguments of the runner;
    - [src/tests/functional/test_after_hooks.py]: the helper [run_feature]
      and the expected hook counts, together with a model of the execution
      engine they exercise. *)

From Stdlib Require Import Ascii String List Arith Lia Bool.
Import ListNotations.

Set Implicit Arguments.
Set Warnings "-register-all".

(** ** Text *)

Definition text := list ascii.

Definition str (s : string) : text := list_ascii_of_string s.

Definition nl : ascii := ascii_of_nat 10.
Definition tab : ascii := ascii_of_nat 9.
Definition cr : ascii := ascii_of_nat 13.
Definition vt : ascii := ascii_of_nat 11.
Definition ff : ascii := ascii_of_nat 12.
Definition sp : ascii := ascii_of_nat 32.

Definition mem (c : ascii) (cs : list ascii) : bool :=
  existsb (Ascii.eqb c) cs.

Fixpoint take_while (p : ascii -> bool) (l : text) : text :=
  match l with
  | c :: r => if p c then c :: take_while p r else []
  | [] => []
  end.

Fixpoint drop_while (p : ascii -> bool) (l : text) : text :=
  match l with
  | c :: r => if p c then drop_while p r else l
  | [] => []
  end.

Fixpoint startswith (m l : text) : bool :=
  match m, l with
  | [], _ => true
  | a :: m', b :: l' => Ascii.eqb a b && startswith m' l'
  | _ :: _, [] => false
  end.

(** Python 2 [string.whitespace], the characters [str.strip()] removes. *)
Definition py_whitespace : list ascii := [sp; tab; nl; cr; vt; ff].

Definition is_space (c : ascii) : bool := mem c py_whitespace.

(** [str.strip()] *)
Definition strip (l : text) : text :=
  rev (drop_while is_space (rev (drop_while is_space l))).

(** [str.expandtabs()] with the default tab size of 8: the column restarts
    after a newline or a carriage return. *)
Fixpoint expandtabs_from (col : nat) (l : text) : text :=
  match l with
  | [] => []
  | c :: r =>
      if Ascii.eqb c tab then
        let n := 8 - col mod 8 in
        repeat sp n ++ expandtabs_from (col + n) r
      else if Ascii.eqb c nl || Ascii.eqb c cr then
        c :: expandtabs_from 0 r
      else c :: expandtabs_from (S col) r
  end.

Definition expandtabs (l : text) : text := expandtabs_from 0 l.

(** ** Python values that flow through the parser

    A [ParseResults] (and a plain list) is [VResults]; an instance of one of
    the classes of parser.py is [VObj] with its class and its [__dict__]. *)

Inductive klass := KTag | KStatement | KBackground | KFeature.

Inductive value :=
| VNone
| VStr (s : text)
| VResults (toks : list value)
| VObj (k : klass) (d : list (string * value)).

Definition klass_eqb (a b : klass) : bool :=
  match a, b with
  | KTag, KTag | KStatement, KStatement
  | KBackground, KBackground | KFeature, KFeature => true
  | _, _ => false
  end.

(** [isinstance(v, cls)] for the classes of the module: [Feature] is the only
    subclass of [TaggedBlock], and no class derives from [Tag], [Statement]
    or [Background]. *)
Definition isinstance (v : value) (k : klass) : bool :=
  match v with
  | VObj k' _ => klass_eqb k' k
  | _ => false
  end.

(** Truth value of a Python object: the classes of the module define neither
    [__len__] nor [__nonzero__], so their instances are true. *)
Definition truthy (v : value) : bool :=
  match v with
  | VNone => false
  | VStr [] => false
  | VStr _ => true
  | VResults [] => false
  | VResults _ => true
  | VObj _ _ => true
  end.

(** *** Attributes *)

Fixpoint dict_get (d : list (string * value)) (name : string) : option value :=
  match d with
  | [] => None
  | (k, v) :: r => if String.eqb k name then Some v else dict_get r name
  end.

Fixpoint dict_set (d : list (string * value)) (name : string) (v : value)
  : list (string * value) :=
  match d with
  | [] => [(name, v)]
  | (k, w) :: r =>
      if String.eqb k name then (k, v) :: r else (k, w) :: dict_set r name v
  end.

Inductive attr_result :=
| Attr (v : value)
| AttributeError.

(** [getattr(v, name)] for a name that is not a method or a built-in
    attribute: an instance answers from its [__dict__];
    [ParseResults.__getattr__] answers every name (the empty string when it
    holds no result of that name); [None], strings have no such attribute. *)
Definition getattr (v : value) (name : string) : attr_result :=
  match v with
  | VObj _ d =>
      match dict_get d name with
      | Some w => Attr w
      | None => AttributeError
      end
  | VResults _ => Attr (VStr [])
  | VNone | VStr _ => AttributeError
  end.

Definition hasattr (v : value) (name : string) : bool :=
  match getattr v name with
  | Attr _ => true
  | AttributeError => false
  end.

Definition setattr (v : value) (name : string) (w : value) : value :=
  match v with
  | VObj k d => VObj k (dict_set d name w)
  | _ => v
  end.

(** ** pyparsing

    The part of the pyparsing library the grammar uses.  An element skips
    the characters of [whiteChars] before it matches when [skipWhitespace]
    is set ([preParse]); [parseImpl] does the matching at the position so
    reached; [postParse] and the parse action, if any, rewrite the tokens.
    A position is an index into the input, as in the library. *)

Inductive result :=
| Ok (toks : list value) (loc : nat)
| ParseException
| PyRaise      (* another exception raised by a parse action *)
| Diverge.     (* the repetition budget ran out *)

Record ParserElement := {
  skipWhitespace : bool;
  whiteChars : list ascii;
  parseImpl : nat -> text -> nat -> result;
  postParse : list value -> list value;
  parseAction : option (list value -> option value)
}.

Definition DEFAULT_WHITE_CHARS : list ascii := [sp; nl; tab; cr].

(** [while loc < instrlen and instring[loc] in wt: loc += 1] *)
Definition skip_white (wt : list ascii) (s : text) (loc : nat) : nat :=
  loc + length (take_while (fun c => mem c wt) (skipn loc s)).

Definition preParse (e : ParserElement) (s : text) (loc : nat) : nat :=
  if skipWhitespace e then skip_white (whiteChars e) s loc else loc.

(** What [ParseResults(tokens, ...)] keeps of the value a parse action
    returned: a list or a [ParseResults] as it is, anything else as the one
    token. *)
Definition as_tokens (v : value) : list value :=
  match v with
  | VResults l => l
  | _ => [v]
  end.

(** [ParserElement._parseNoCache]: an action's result replaces the tokens
    when it is true ([if tokens:]). *)
Definition parse_gen (callPreParse : bool) (e : ParserElement)
    (fuel : nat) (s : text) (loc : nat) : result :=
  let preloc := if callPreParse then preParse e s loc else loc in
  match parseImpl e fuel s preloc with
  | Ok toks loc' =>
      let ret := postParse e toks in
      match parseAction e with
      | None => Ok ret loc'
      | Some fn =>
          match fn ret with
          | None => PyRaise
          | Some v => Ok (if truthy v then as_tokens v else ret) loc'
          end
      end
  | r => r
  end.

Definition _parse := parse_gen true.

Definition token_element (impl : text -> nat -> result) : ParserElement :=
  {| skipWhitespace := true;
     whiteChars := DEFAULT_WHITE_CHARS;
     parseImpl := fun _ => impl;
     postParse := fun t => t;
     parseAction := None |}.

(** *** Tokens *)

(** [Literal(m)], for a non-empty [m]: reading [instring[loc]] past the end
    is an [IndexError], which [_parseNoCache] turns into a
    [ParseException]. *)
Definition Literal (m : text) : ParserElement :=
  token_element (fun s loc =>
    match skipn loc s with
    | [] => ParseException
    | rest => if startswith m rest then Ok [VStr m] (loc + length m)
              else ParseException
    end).

(** [Keyword.DEFAULT_KEYWORD_CHARS = alphanums + "_$"] *)
Definition is_ident_char (c : ascii) : bool :=
  let n := nat_of_ascii c in
  ((48 <=? n) && (n <=? 57)) || ((65 <=? n) && (n <=? 90))
  || ((97 <=? n) && (n <=? 122)) || (n =? 95) || (n =? 36).

(** [Keyword(m)]: the match may neither be followed nor be preceded by an
    identifier character. *)
Definition Keyword (m : text) : ParserElement :=
  token_element (fun s loc =>
    match skipn loc s with
    | [] => ParseException
    | rest =>
        if startswith m rest
           && match skipn (length m) rest with
              | [] => true
              | c :: _ => negb (is_ident_char c)
              end
           && match loc with
              | 0 => true
              | S p => match nth_error s p with
                       | Some c => negb (is_ident_char c)
                       | None => true
                       end
              end
        then Ok [VStr m] (loc + length m)
        else ParseException
    end).

(** [printables]: the characters of [string.printable] that are not
    whitespace, the codes 33 to 126. *)
Definition is_printable (c : ascii) : bool :=
  let n := nat_of_ascii c in (33 <=? n) && (n <=? 126).

(** [Word(printables)]: one or more printable characters. *)
Definition Word_printables : ParserElement :=
  token_element (fun s loc =>
    match take_while is_printable (skipn loc s) with
    | [] => ParseException
    | w => Ok [VStr w] (loc + length w)
    end).

(** [CharsNotIn(notChars)] with [min=1]: it does not skip whitespace. *)
Definition CharsNotIn (notChars : list ascii) : ParserElement :=
  {| skipWhitespace := false;
     whiteChars := DEFAULT_WHITE_CHARS;
     parseImpl := fun _ s loc =>
       match take_while (fun c => negb (mem c notChars)) (skipn loc s) with
       | [] => ParseException
       | w => Ok [VStr w] (loc + length w)
       end;
     postParse := fun t => t;
     parseAction := None |}.

(** [White()]: one or more of [" \t\r\n"]; the characters it matches are
    taken out of the ones it skips, which leaves none. *)
Definition White : ParserElement :=
  {| skipWhitespace := true;
     whiteChars := [];
     parseImpl := fun _ s loc =>
       match take_while (fun c => mem c [sp; tab; cr; nl]) (skipn loc s) with
       | [] => ParseException
       | w => Ok [VStr w] (loc + length w)
       end;
     postParse := fun t => t;
     parseAction := None |}.

(** [restOfLine = Regex(r".*").leaveWhitespace()]: everything up to the next
    newline, possibly nothing; the regex engine clamps a start position past
    the end to the end. *)
Definition restOfLine : ParserElement :=
  {| skipWhitespace := false;
     whiteChars := DEFAULT_WHITE_CHARS;
     parseImpl := fun _ s loc =>
       let start := Nat.min loc (length s) in
       let w := take_while (fun c => negb (Ascii.eqb c nl)) (skipn start s) in
       Ok [VStr w] (start + length w);
     postParse := fun t => t;
     parseAction := None |}.

(** [lineEnd = LineEnd()]: skips [" \t\r"]; matches a newline, or the end of
    the input, where it answers the position after the end. *)
Definition lineEnd : ParserElement :=
  {| skipWhitespace := true;
     whiteChars := [sp; tab; cr];
     parseImpl := fun _ s loc =>
       if loc <? length s then
         match nth_error s loc with
         | Some c => if Ascii.eqb c nl then Ok [VStr [nl]] (S loc)
                     else ParseException
         | None => ParseException
         end
       else if loc =? length s then Ok [] (S loc)
       else ParseException;
     postParse := fun t => t;
     parseAction := None |}.

(** [stringEnd = StringEnd()] *)
Definition stringEnd : ParserElement :=
  token_element (fun s loc =>
    if loc <? length s then ParseException
    else if loc =? length s then Ok [] (S loc)
    else Ok [] loc).

(** *** Expressions

    An enhancing element ([Suppress], [Group], [Optional], [OneOrMore],
    [ZeroOrMore]) and an [And] take [skipWhitespace] and [whiteChars] from
    the element they wrap, or from their first element; they then parse it
    without a second [preParse]. *)

Definition enhance (e : ParserElement) (impl : nat -> text -> nat -> result)
    (post : list value -> list value) : ParserElement :=
  {| skipWhitespace := skipWhitespace e;
     whiteChars := whiteChars e;
     parseImpl := impl;
     postParse := post;
     parseAction := None |}.

(** [e1 + e2] *)
Definition And (e1 e2 : ParserElement) : ParserElement :=
  enhance e1
    (fun fuel s loc =>
       match parse_gen false e1 fuel s loc with
       | Ok t1 l1 =>
           match _parse e2 fuel s l1 with
           | Ok t2 l2 => Ok (t1 ++ t2) l2
           | r => r
           end
       | r => r
       end)
    (fun t => t).

(** [e1 | e2] *)
Definition MatchFirst (e1 e2 : ParserElement) : ParserElement :=
  {| skipWhitespace := true;
     whiteChars := DEFAULT_WHITE_CHARS;
     parseImpl := fun fuel s loc =>
       match _parse e1 fuel s loc with
       | ParseException => _parse e2 fuel s loc
       | r => r
       end;
     postParse := fun t => t;
     parseAction := None |}.

Definition Optional (e : ParserElement) : ParserElement :=
  enhance e
    (fun fuel s loc =>
       match parse_gen false e fuel s loc with
       | ParseException => Ok [] loc
       | r => r
       end)
    (fun t => t).

(** The [while 1:] loop of [OneOrMore] and [ZeroOrMore]: it ends at the
    first [ParseException], keeping the position of the last match. *)
Fixpoint repeat_loop (e : ParserElement) (budget fuel : nat) (s : text)
    (loc : nat) (tokens : list value) : result :=
  match budget with
  | 0 => Diverge
  | S budget' =>
      match _parse e fuel s loc with
      | Ok t l => repeat_loop e budget' fuel s l (tokens ++ t)
      | ParseException => Ok tokens loc
      | r => r
      end
  end.

Definition OneOrMore (e : ParserElement) : ParserElement :=
  enhance e
    (fun fuel s loc =>
       match parse_gen false e fuel s loc with
       | Ok t l => repeat_loop e fuel fuel s l t
       | r => r
       end)
    (fun t => t).

Definition ZeroOrMore (e : ParserElement) : ParserElement :=
  enhance e
    (fun fuel s loc =>
       match parse_gen false e fuel s loc with
       | Ok t l => repeat_loop e fuel fuel s l t
       | ParseException => Ok [] loc
       | r => r
       end)
    (fun t => t).

Definition Group (e : ParserElement) : ParserElement :=
  enhance e (parse_gen false e) (fun t => [VResults t]).

Definition Suppress (e : ParserElement) : ParserElement :=
  enhance e (parse_gen false e) (fun _ => []).

Definition setParseAction (e : ParserElement)
    (fn : list value -> option value) : ParserElement :=
  {| skipWhitespace := skipWhitespace e;
     whiteChars := whiteChars e;
     parseImpl := parseImpl e;
     postParse := postParse e;
     parseAction := Some fn |}.

(** [e(name)]: the name only adds an entry to the dictionary of the results;
    the tokens are the same. *)
Definition setResultsName (e : ParserElement) (name : string) : ParserElement :=
  e.

(** [e.parseString(instring)]: tabs are expanded first; the budget of every
    repetition exceeds the number of positions of the input. *)
Definition parseString (e : ParserElement) (instring : text) : result :=
  let s := expandtabs instring in
  _parse e (length s + 2) s 0.

Declare Scope pyparsing_scope.
Delimit Scope pyparsing_scope with pp.
Notation "a + b" := (And a b) : pyparsing_scope.
Notation "a || b" := (MatchFirst a b) : pyparsing_scope.

(** ** lettuce/parser.py *)

(** [class Tag]: [self.tag = tokens[0]] *)
Definition Tag (tokens : list value) : option value :=
  match tokens with
  | t :: _ => Some (VObj KTag [("tag"%string, t)])
  | [] => None
  end.

(** [keyword + remainder] on strings *)
Definition str_add (a b : value) : option value :=
  match a, b with
  | VStr x, VStr y => Some (VStr (x ++ y))
  | _, _ => None
  end.

(** [class Statement]: the tokens unpack into three names, or else into two
    with [data = None]; [table] is set when [data] has such an attribute. *)
Definition Statement (tokens : list value) : option value :=
  let unpacked :=
    match tokens with
    | [keyword; remainder; data] => Some (keyword, remainder, data)
    | [keyword; remainder] => Some (keyword, remainder, VNone)
    | _ => None
    end in
  match unpacked with
  | Some (keyword, remainder, data) =>
      match str_add keyword remainder with
      | Some st =>
          let self := VObj KStatement [("statement"%string, st)] in
          Some (if hasattr data "table" then setattr self "table" data
                else self)
      | None => None
      end
  | None => None
  end.

(** [Block.__init__]: [self.statements = []] *)
Definition Block_init (k : klass) : value :=
  VObj k [("statements"%string, VResults [])].

(** [Block.add_statements], a class method: the first token is the block,
    the others are its statements. *)
Definition add_statements (cls : klass) (tokens : list value) : option value :=
  match tokens with
  | self :: tokens' =>
      if isinstance self cls
         && forallb (fun token => isinstance token KStatement) tokens'
      then Some (setattr self "statements" (VResults tokens'))
      else None
  | [] => None
  end.

(** [TaggedBlock.__init__]: [tags = tokens[:-1]], [name = tokens[-1]] *)
Definition TaggedBlock_init (k : klass) (tokens : list value) : option value :=
  match rev tokens with
  | name :: _ =>
      let tags := removelast tokens in
      if forallb (fun tag => isinstance tag KTag) tags
      then Some (setattr (setattr (Block_init k) "tags" (VResults tags))
                         "name" name)
      else None
  | [] => None
  end.

Definition Background (tokens : list value) : option value :=
  Some (Block_init KBackground).

Definition Feature (tokens : list value) : option value :=
  TaggedBlock_init KFeature tokens.

(** [lambda tokens: [v.strip() for v in tokens]] *)
Definition strip_all (tokens : list value) : option value :=
  let fix go (l : list value) : option (list value) :=
    match l with
    | [] => Some []
    | VStr v :: r =>
        match go r with
        | Some r' => Some (VStr (strip v) :: r')
        | None => None
        end
    | _ :: _ => None
    end in
  match go tokens with
  | Some l => Some (VResults l)
  | None => None
  end.

Open Scope pyparsing_scope.

Definition EOL : ParserElement := Suppress lineEnd.

Definition TAG : ParserElement :=
  setParseAction (Suppress (Literal (str "@")) + Word_printables + EOL) Tag.

(** One cell of a row and the bar that closes it. *)
Definition TABLE_CELL : ParserElement :=
  CharsNotIn [ "|"%char; nl ] + Suppress (Literal (str "|")).

Definition TABLE_ROW : ParserElement :=
  setParseAction
    (Suppress (Literal (str "|")) + OneOrMore TABLE_CELL + EOL)
    strip_all.

Definition TABLE : ParserElement :=
  setResultsName (Group (OneOrMore (Group TABLE_ROW))) "table".

(** The sentence of a statement: the keyword and the rest of its line. *)
Definition STATEMENT_sentence : ParserElement :=
  (Keyword (str "Given") || Keyword (str "When") || Keyword (str "Then")
   || Keyword (str "And"))
  + restOfLine.

Definition STATEMENT : ParserElement :=
  setParseAction (STATEMENT_sentence + Optional TABLE) Statement.

Definition BACKGROUND_DEFN : ParserElement :=
  setParseAction
    (Suppress (Keyword (str "Background") + Literal (str ":") + EOL))
    Background.

Definition BACKGROUND : ParserElement :=
  setParseAction (BACKGROUND_DEFN + ZeroOrMore STATEMENT)
    (add_statements KBackground).

(** The header proper: [Suppress(Keyword('Feature') + ':' + White())] *)
Definition FEATURE_KEYWORD : ParserElement :=
  Suppress (Keyword (str "Feature") + Literal (str ":") + White).

Definition FEATURE_DEFN : ParserElement :=
  setParseAction (ZeroOrMore TAG + FEATURE_KEYWORD + restOfLine) Feature.

Definition DESCRIPTION : ParserElement := restOfLine.

Definition FEATURE : ParserElement :=
  FEATURE_DEFN + Optional BACKGROUND + stringEnd.

Close Scope pyparsing_scope.

Definition lines (l : list string) : text :=
  concat (map (fun x => str x ++ [nl]) l).



(** ** Vocabulary of the statements about the parser *)

Definition starts_clean (l : text) : Prop :=
  match l with
  | [] => True
  | c :: _ => is_space c = false
  end.

(** No whitespace on either side. *)
Definition trimmed (l : text) : Prop :=
  starts_clean l /\ starts_clean (rev l).

Definition is_cell (v : value) : Prop :=
  exists c, v = VStr c /\ trimmed c.

Definition is_row (v : value) : Prop :=
  exists cells, v = VResults cells /\ cells <> [] /\ Forall is_cell cells.

Definition column_count (row : value) : nat :=
  match row with
  | VResults cells => length cells
  | _ => 0
  end.

(** The objects the parse actions build, by their [__dict__]. *)
Definition tag_object (name : text) : value :=
  VObj KTag [("tag"%string, VStr name)].

Definition plain_statement (sentence : text) : value :=
  VObj KStatement [("statement"%string, VStr sentence)].

Definition table_statement (sentence : text) (table : value) : value :=
  VObj KStatement [("statement"%string, VStr sentence);
                   ("table"%string, table)].

Definition background_object (statements : list value) : value :=
  VObj KBackground [("statements"%string, VResults statements)].

Definition feature_object (tags : list value) (name : text) : value :=
  VObj KFeature [("statements"%string, VResults []);
                 ("tags"%string, VResults tags);
                 ("name"%string, VStr name)].

Definition keywords : list text :=
  [str "Given"; str "When"; str "Then"; str "And"].

(** The position an element starts to match at. *)
Definition start_of (b : bool) (e : ParserElement) (s : text) (loc : nat) : nat :=
  if b then preParse e s loc else loc.

(** Tag lines one after the other: each is a match of [TAG] that begins
    where the one before it ended. *)
Inductive tag_lines (fuel : nat) (s : text) : nat -> list text -> nat -> Prop :=
| tag_lines_nil loc : tag_lines fuel s loc [] loc
| tag_lines_cons loc name l names l' :
    _parse TAG fuel s loc = Ok [tag_object name] l ->
    loc < l ->
    tag_lines fuel s l names l' ->
    tag_lines fuel s loc (name :: names) l'.

(** What a [Statement] object looks like: its sentence begins with one of
    the four keywords, and it holds the table that followed, if one did. *)
Definition is_statement (v : value) : Prop :=
  exists keyword rest,
    In keyword keywords
    /\ (v = plain_statement (keyword ++ rest)
        \/ exists rows,
             v = table_statement (keyword ++ rest) (VResults rows)
             /\ rows <> [] /\ Forall is_row rows).

(** Successive matches of an element, each from where the last ended, with
    the tokens and the two ends of every match. *)
Inductive chain (e : ParserElement) (fuel : nat) (s : text)
  : nat -> list (list value * nat * nat) -> nat -> Prop :=
| chain_nil loc : chain e fuel s loc [] loc
| chain_cons loc t l ms l' :
    _parse e fuel s loc = Ok t l ->
    chain e fuel s l ms l' ->
    chain e fuel s loc ((t, loc, l) :: ms) l'.

Definition chain_tokens (ms : list (list value * nat * nat)) : list value :=
  concat (map (fun m => fst (fst m)) ms).

(** The text [r] does not begin with a character of [wt]. *)
Definition starts_outside (wt : list ascii) (r : text) : Prop :=
  match r with
  | [] => True
  | c :: _ => mem c wt = false
  end.


(** The text [r] is empty or begins with a newline. *)
Definition line_ends (r : text) : Prop :=
  match r with [] => True | c :: _ => c = nl end.


(** ** Sample texts *)

Definition dq : ascii := ascii_of_nat 34.

Definition triple_quote : text := [dq; dq; dq].

(** [Feature: F], [Scenario: S] and one [Given] step. *)
Definition scenario_text : text :=
  lines ["Feature: F"; "Scenario: S"; "  Given a step"]%string.

(** The same with [Background:] for [Scenario: S]. *)
Definition background_text : text :=
  lines ["Feature: F"; "Background:"; "  Given a step"]%string.

(** A step followed by a triple-quoted block. *)
Definition multiline_step : text :=
  str "Given a text" ++ [nl] ++ triple_quote ++ [nl]
  ++ str "hello" ++ [nl] ++ triple_quote ++ [nl].

Definition multiline_text : text :=
  lines ["Feature: F"; "Background:"]%string ++ multiline_step.

(** A step whose table has a row of two cells and a row of one. *)
Definition ragged_text : text :=
  lines ["Feature: F"; "Background:"; "  Given a table";
         "    | a | b |"; "    | c |"]%string.

(** The second demonstration of the module, two tags and a table. *)
Definition demo_text : text :=
  lines [""; "@badger"; "@stoat"; "Feature: an example feature"; "";
         "    Background:";
         "        Given I have badgers in the database";
         "        And I am a penguin";
         "        And this step has a table";
         "            | badger           | stoat |";
         "            | smells like teen | stoat |"]%string.

(** ** Texts of a known shape *)

(** A tag name: one printable character or more. *)
Definition tag_name (n : text) : Prop :=
  n <> [] /\ forallb is_printable n = true.

(** The tag lines of the names, one [@name] to a line. *)
Definition tag_text (names : list text) : text :=
  flat_map (fun n => "@"%char :: n ++ [nl]) names.

(** A run of the characters [White()] matches. *)
Definition blank (w : text) : Prop :=
  w <> [] /\ forallb (fun c => mem c [sp; tab; cr; nl]) w = true.

(** A text with no newline in it. *)
Definition one_line (l : text) : Prop :=
  forallb (fun c => negb (Ascii.eqb c nl)) l = true.

(** A text that does not begin with a blank. *)
Definition starts_black (l : text) : Prop :=
  starts_outside [sp; tab; cr; nl] l.

(** A text that does not begin with an identifier character. *)
Definition starts_apart (l : text) : Prop :=
  match l with
  | [] => True
  | c :: _ => is_ident_char c = false
  end.

(** Cells, each closed by a bar: [c1|c2|...|]. *)
Definition cells_text (cells : list text) : text :=
  flat_map (fun c => c ++ ["|"%char]) cells.

(** The cells of a row between bars: [|c1|c2|...|]. *)
Definition row_text (cells : list text) : text :=
  "|"%char :: cells_text cells.

(** What may stand in a cell: one character or more, no bar, no newline. *)
Definition cell_text (c : text) : Prop :=
  c <> [] /\ forallb (fun x => negb (mem x [ "|"%char; nl ])) c = true.

(** The character in front of position [loc], if there is one, is not an
    identifier character. *)
Definition apart_before (s : text) (loc : nat) : Prop :=
  match loc with
  | 0 => True
  | S p => exists c, nth_error s p = Some c /\ is_ident_char c = false
  end.

(** What follows a step without a table: after the blanks, the end of the
    text or a character other than a bar. *)
Definition no_table (r : text) : Prop :=
  match r with
  | [] => True
  | c :: _ => mem c DEFAULT_WHITE_CHARS = false /\ c <> "|"%char
  end.

(** A step: one of the four keywords, then the rest of the line, which does
    not go on with an identifier character. *)
Definition step_text (st : text * text) : Prop :=
  In (fst st) keywords /\ starts_apart (snd st) /\ one_line (snd st).

Definition sentence (st : text * text) : text := fst st ++ snd st.

(** The steps, one to a line. *)
Definition steps_text (steps : list (text * text)) : text :=
  flat_map (fun st => sentence st ++ [nl]) steps.

(** What may follow the last step of a block: the end of the text, or a
    character that begins neither a step nor a table. *)
Definition ends_block (tail : text) : Prop :=
  match tail with
  | [] => True
  | c :: _ =>
      mem c DEFAULT_WHITE_CHARS = false
      /\ ~ In c [ "G"%char; "W"%char; "T"%char; "A"%char; "|"%char ]
  end.

(** A text without tabs. *)
Definition tabless (l : text) : Prop :=
  forallb (fun c => negb (Ascii.eqb c tab)) l = true.

(** A feature file: tag lines, the header with its name, and a background
    with its steps or none. *)
Definition feature_text (names : list text) (w name : text)
    (bg : option (list (text * text))) : text :=
  tag_text names ++ str "Feature:" ++ w ++ name ++ nl ::
  match bg with
  | None => []
  | Some steps => str "Background:" ++ nl :: steps_text steps
  end.

(** The tree of that file. *)
Definition feature_tree (names : list text) (name : text)
    (bg : option (list (text * text))) : list value :=
  feature_object (map tag_object names) name ::
  match bg with
  | None => []
  | Some steps =>
      [background_object (map (fun st => plain_statement (sentence st)) steps)]
  end.

(** ** How a parse may end *)

(** A parse that ends as a parse should: with tokens or with a
    [ParseException]. *)
Definition ends_well (r : result) : Prop :=
  match r with
  | Ok _ _ | ParseException => True
  | PyRaise | Diverge => False
  end.

(** It ends well, and a match started at [loc] ends [d] positions further
    on or more, and not after [post]. *)
Definition ok_in (loc d post : nat) (r : result) : Prop :=
  match r with
  | Ok _ l => loc + d <= l /\ l <= post
  | ParseException => True
  | PyRaise | Diverge => False
  end.

(** The element does so wherever it is tried up to position [pre]. *)
Definition keeps (fuel : nat) (s : text) (e : ParserElement)
    (d pre post : nat) : Prop :=
  forall loc, loc <= pre -> ok_in loc d post (parse_gen false e fuel s loc).

(** ** Feature files as they are laid out

    Lines may be indented and blank lines may stand between them, and a
    step may have a table.  Each line is kept with the gap that follows its
    newline: the blank lines behind it and the indentation of the line that
    comes next. *)

(** A gap: nothing but characters the elements skip. *)
Definition gap (g : text) : Prop :=
  forallb (fun c => mem c DEFAULT_WHITE_CHARS) g = true.

Record TagLine := {
  tag_word : text;
  tag_after : text
}.

Record RowLine := {
  row_cells : list text;
  row_after : text
}.

Record StepLines := {
  step_keyword : text;
  step_rest : text;
  step_after : text;
  step_rows : list RowLine
}.

Record BackgroundLines := {
  background_after : text;
  background_steps : list StepLines
}.

Record FeatureLines := {
  leading : text;
  feature_tags : list TagLine;
  header_blank : text;
  feature_name : text;
  header_after : text;
  feature_background : option BackgroundLines
}.

Definition tag_line_text (t : TagLine) : text :=
  "@"%char :: tag_word t ++ nl :: tag_after t.

Definition tags_text (tags : list TagLine) : text :=
  flat_map tag_line_text tags.

Definition row_line_text (r : RowLine) : text :=
  row_text (row_cells r) ++ nl :: row_after r.

Definition rows_text (rows : list RowLine) : text :=
  flat_map row_line_text rows.

Definition step_lines_text (st : StepLines) : text :=
  step_keyword st ++ step_rest st ++ nl :: step_after st
  ++ rows_text (step_rows st).

Definition steps_lines_text (steps : list StepLines) : text :=
  flat_map step_lines_text steps.

Definition background_lines_text (b : BackgroundLines) : text :=
  str "Background:" ++ nl :: background_after b
  ++ steps_lines_text (background_steps b).

Definition feature_lines_text (f : FeatureLines) : text :=
  leading f ++ tags_text (feature_tags f)
  ++ str "Feature:" ++ header_blank f ++ feature_name f
  ++ nl :: header_after f
  ++ match feature_background f with
     | None => []
     | Some b => background_lines_text b
     end.

(** What makes the lines well formed. *)
Definition tag_line_ok (t : TagLine) : Prop :=
  tag_name (tag_word t) /\ gap (tag_after t).

Definition row_line_ok (r : RowLine) : Prop :=
  row_cells r <> [] /\ Forall cell_text (row_cells r) /\ gap (row_after r).

Definition step_lines_ok (st : StepLines) : Prop :=
  In (step_keyword st) keywords
  /\ starts_apart (step_rest st) /\ one_line (step_rest st)
  /\ gap (step_after st)
  /\ Forall row_line_ok (step_rows st).

Definition background_lines_ok (b : BackgroundLines) : Prop :=
  gap (background_after b) /\ Forall step_lines_ok (background_steps b).

Definition feature_lines_ok (f : FeatureLines) : Prop :=
  gap (leading f)
  /\ Forall tag_line_ok (feature_tags f)
  /\ blank (header_blank f)
  /\ feature_name f <> [] /\ starts_black (feature_name f)
  /\ one_line (feature_name f)
  /\ gap (header_after f)
  /\ match feature_background f with
     | None => True
     | Some b => background_lines_ok b
     end.

(** The objects of the lines. *)
Definition row_value (r : RowLine) : value :=
  VResults (map (fun c => VStr (strip c)) (row_cells r)).

Definition statement_of (st : StepLines) : value :=
  match step_rows st with
  | [] => plain_statement (step_keyword st ++ step_rest st)
  | rows =>
      table_statement (step_keyword st ++ step_rest st)
        (VResults (map row_value rows))
  end.

Definition feature_lines_tree (f : FeatureLines) : list value :=
  feature_object (map (fun t => tag_object (tag_word t)) (feature_tags f))
    (feature_name f)
  :: match feature_background f with
     | None => []
     | Some b => [background_object (map statement_of (background_steps b))]
     end.

(** Blanks within a line: one or more of the characters [lineEnd] skips. *)
Definition line_blank (w : text) : Prop :=
  w <> [] /\ forallb (fun c => mem c [sp; tab; cr]) w = true.

(** What may follow a feature without starting a background, or a step or
    a table of its background: nothing, or a character that is no blank and
    does not begin such a line. *)
Definition ends_feature (f : FeatureLines) (r : text) : Prop :=
  match feature_background f with
  | None =>
      match r with
      | [] => True
      | c :: _ => mem c DEFAULT_WHITE_CHARS = false /\ c <> "B"%char
      end
  | Some _ => ends_block r
  end.

(** From position [loc] on, a gap and then the text [r]; where [r] begins
    no identifier character stands in front. *)
Definition reaches (s : text) (loc : nat) (r : text) : Prop :=
  exists g,
    gap g /\ skipn loc s = g ++ r
    /\ apart_before s (loc + length g)
    /\ loc + length g <= length s.

(** The example of the module, as lines. *)
Definition demo_lines : FeatureLines :=
  {| leading := [nl];
     feature_tags :=
       [ {| tag_word := str "badger"; tag_after := [] |};
         {| tag_word := str "stoat"; tag_after := [] |} ];
     header_blank := str " ";
     feature_name := str "an example feature";
     header_after := nl :: str "    ";
     feature_background :=
       Some {| background_after := str "        ";
               background_steps :=
                 [ {| step_keyword := str "Given";
                      step_rest := str " I have badgers in the database";
                      step_after := str "        ";
                      step_rows := [] |};
                   {| step_keyword := str "And";
                      step_rest := str " I am a penguin";
                      step_after := str "        ";
                      step_rows := [] |};
                   {| step_keyword := str "And";
                      step_rest := str " this step has a table";
                      step_after := str "            ";
                      step_rows :=
                        [ {| row_cells := [str " badger           ";
                                           str " stoat "];
                             row_after := str "            " |};
                          {| row_cells := [str " smells like teen ";
                                           str " stoat "];
                             row_after := [] |} ] |} ] |} |}.

(** A header alone, and a blank line behind it. *)
Definition bare_lines : FeatureLines :=
  {| leading := [];
     feature_tags := [];
     header_blank := str " ";
     feature_name := str "an example feature";
     header_after := [nl];
     feature_background := None |}.

(** ** aloe/runner.py: [TestProgram.runTests] *)

Module Runner.

(** The calls [runTests] makes, in the order they are made. *)
Inductive call :=
| run_before_callbacks
| super_runTests
| run_after_callbacks.

Definition call_eqb (a b : call) : bool :=
  match a, b with
  | run_before_callbacks, run_before_callbacks
  | super_runTests, super_runTests
  | run_after_callbacks, run_after_callbacks => true
  | _, _ => false
  end.

Inductive exn :=
| SystemExit (code : bool)
| KeyboardInterrupt
| Exception.

(** How a call ends. *)
Inductive outcome :=
| Returns
| Raises (e : exn).

(** A computation logs the calls it makes and either returns a value or
    raises an exception. *)
Definition M (A : Type) : Type := (A + exn) * list call.

Definition ret {A} (a : A) : M A := (inl a, []).

Definition bind {A B} (m : M A) (k : A -> M B) : M B :=
  match m with
  | (inl a, log) => let '(r, log') := k a in (r, log ++ log')
  | (inr e, log) => (inr e, log)
  end.

Notation "m ;; k" := (bind m (fun _ => k))
  (at level 61, right associativity).

(** Calling a method whose body ends in [o]. *)
Definition invoke (c : call) (o : outcome) : M unit :=
  match o with
  | Returns => (inl tt, [c])
  | Raises e => (inr e, [c])
  end.

(** What the methods called by [runTests] do, for one run. *)
Record behaviour := {
  before_callbacks : outcome;
  base_runTests : outcome;
  after_callbacks : outcome
}.

(** [TestProgram.runTests]: three statements in a row, with no [try]. *)
Definition runTests (w : behaviour) : M unit :=
  invoke run_before_callbacks (before_callbacks w) ;;
  invoke super_runTests (base_runTests w) ;;
  invoke run_after_callbacks (after_callbacks w).

(** [unittest.TestProgram.runTests] of the standard library ends with
    [if self.exit: sys.exit(not self.result.wasSuccessful())], and [exit]
    is [True] unless the caller says otherwise. *)
Definition unittest_runTests (exit wasSuccessful : bool) : outcome :=
  if exit then Raises (SystemExit (negb wasSuccessful)) else Returns.

Definition program (exit wasSuccessful : bool) : behaviour :=
  {| before_callbacks := Returns;
     base_runTests := unittest_runTests exit wasSuccessful;
     after_callbacks := Returns |}.

Definition calls_of {A} (m : M A) : list call := snd m.

Definition times (c : call) (log : list call) : nat :=
  length (filter (call_eqb c) log).

End Runner.

(** ** The execution engine behind test_after_hooks.py *)

Module Engine.

(* [lettuce.Runner] and the hook registry [lettuce.after], which
    test_after_hooks.py imports, are not under src/: the engine is modelled
    from the spec.  It follows section 4.6: the walk over features,
    scenarios, outline examples and steps, the after hook of every level
    in a position that is always reached, and fail-fast as a flag read at
    every boundary.  On two points the expected counts of
    test_after_hooks.py decide, and the model follows them:
    - [after.each_scenario] fires once for an outline as a whole and
      [after.outline] once for each of its examples
      ([test_success_outline]: 1 and 3; [test_fail_outline_failfast]:
      1 and 2);
    - without fail-fast, the steps after a failing one are not dispatched
      but their hooks still fire ([test_fail_non_outline] counts 5 calls
      of [after.each_step] where [test_fail_non_outline_failfast] counts
      2, in one scenario). *)

Definition Step := string.
Definition Row := list string.

(** The kinds of fault a step definition may raise. *)
Inductive Fault :=
| AssertionFault      (* an assertion that does not hold *)
| SystemExiting       (* a fault that ends the host process by default *)
| OtherFault.

(** How the call into the step-matching backend ends. *)
Inductive Dispatch :=
| Returned
| Raised (f : Fault).

Inductive Status := passed | failed | error | skipped.

Inductive Scenario :=
| Plain (steps : list Step)
| Outline (templates : list Step) (examples : list Row).

Record Feature := {
  background : list Step;
  scenarios : list Scenario
}.

Inductive Event :=
| before_all
| after_all
| before_each_feature
| after_each_feature
| before_each_scenario
| after_each_scenario
| before_outline
| after_outline (index : nat)
| before_each_step (st : Step)
| after_each_step (st : Step)
| dispatch (st : Step).

(** A computation of the engine: its value and the events it emitted. *)
Definition M (A : Type) : Type := A * list Event.

Definition ret {A} (a : A) : M A := (a, []).

Definition bind {A B} (m : M A) (k : A -> M B) : M B :=
  let '(a, t) := m in
  let '(b, t') := k a in
  (b, t ++ t').

Definition emit (e : Event) : M unit := (tt, [e]).

Notation "x <- m ;; k" := (bind m (fun x => k))
  (at level 61, m at next level, right associativity).
Notation "m ;; k" := (bind m (fun _ => k))
  (at level 61, right associativity).

Definition is_passed (s : Status) : bool :=
  match s with passed => true | _ => false end.

(** The outcome of a unit is the first outcome that is not [passed]. *)
Definition combine (so_far s : Status) : Status :=
  if is_passed so_far then s else so_far.

(** Modelled from the spec: the step boundary of [lettuce.Runner].  Every
    fault the dispatch raises is caught there and recorded: an assertion
    that fails as [failed], any other fault, the ones that would end the
    host process included, as [error]. *)
Definition status_of (d : Dispatch) : Status :=
  match d with
  | Returned => passed
  | Raised AssertionFault => failed
  | Raised SystemExiting => error
  | Raised OtherFault => error
  end.

Section Run.

(** The step-matching backend and the substitution of the outline
    expander, both outside the engine. *)
Variable execute : Step -> Dispatch.
Variable resolve : Row -> Step -> Step.

Variable failfast : bool.

(** Modelled from the spec: the fail-fast flag of [lettuce.Runner], read at
    every boundary; with it the first outcome that is not [passed] ends the
    walk at every level. *)
Definition stop (s : Status) : bool := failfast && negb (is_passed s).

(** Modelled from the spec: running a step of [lettuce.Runner].
    [before.each_step] fires, the step is dispatched to the backend and its
    outcome recorded, [after.each_step] fires whatever the outcome.  A step
    that comes after a failure is not dispatched; its hooks still fire, as
    the counts of [test_fail_non_outline] require. *)
Definition run_step (so_far : Status) (st : Step) : M Status :=
  emit (before_each_step st) ;;
  s <- (if is_passed so_far
        then emit (dispatch st) ;; ret (status_of (execute st))
        else ret so_far) ;;
  emit (after_each_step st) ;;
  ret s.

(** Modelled from the spec: the steps of a scenario of [lettuce.Runner], in
    order; with fail-fast the walk ends behind the first step that does not
    pass. *)
Fixpoint run_steps (so_far : Status) (steps : list Step) : M Status :=
  match steps with
  | [] => ret so_far
  | st :: rest =>
      s <- run_step so_far st ;;
      if stop s then ret s else run_steps s rest
  end.

(** Modelled from the spec: the examples of an outline of
    [lettuce.Runner], in the order of the rows; each runs the background and
    the resolved steps, and [after.outline] fires once for it with its
    index, whether or not its steps passed. *)
Fixpoint run_examples (background templates : list Step) (index : nat)
    (so_far : Status) (examples : list Row) : M Status :=
  match examples with
  | [] => ret so_far
  | row :: rest =>
      s <- run_steps passed (background ++ map (resolve row) templates) ;;
      emit (after_outline index) ;;
      if stop s then ret (combine so_far s)
      else run_examples background templates (S index)
             (combine so_far s) rest
  end.

(** Modelled from the spec: running a scenario of [lettuce.Runner].
    [before.each_scenario], then the background and the steps, or for an
    outline [before.outline] and the examples, then [after.each_scenario]
    whatever happened: once for an outline as a whole, as the counts of
    [test_success_outline] require. *)
Definition run_scenario (background : list Step) (sc : Scenario)
  : M Status :=
  emit before_each_scenario ;;
  s <- match sc with
       | Plain steps => run_steps passed (background ++ steps)
       | Outline templates examples =>
           emit before_outline ;;
           run_examples background templates 1 passed examples
       end ;;
  emit after_each_scenario ;;
  ret s.

(** Modelled from the spec: the scenarios of a feature of
    [lettuce.Runner], in the order of the file. *)
Fixpoint run_scenarios (background : list Step) (so_far : Status)
    (scs : list Scenario) : M Status :=
  match scs with
  | [] => ret so_far
  | sc :: rest =>
      s <- run_scenario background sc ;;
      if stop s then ret (combine so_far s)
      else run_scenarios background (combine so_far s) rest
  end.

(** Modelled from the spec: running a feature of [lettuce.Runner].
    [before.each_feature], the scenarios, then [after.each_feature] whatever
    happened. *)
Definition run_feature (f : Feature) : M Status :=
  emit before_each_feature ;;
  s <- run_scenarios (background f) passed (scenarios f) ;;
  emit after_each_feature ;;
  ret s.

(** Modelled from the spec: the features of a run of [lettuce.Runner], in
    order. *)
Fixpoint run_features (so_far : Status) (fs : list Feature) : M Status :=
  match fs with
  | [] => ret so_far
  | f :: rest =>
      s <- run_feature f ;;
      if stop s then ret (combine so_far s)
      else run_features (combine so_far s) rest
  end.

(** Modelled from the spec: [lettuce.Runner.run].  [before.all] once, the
    features, [after.all] once. *)
Definition run (fs : list Feature) : M Status :=
  emit before_all ;;
  s <- run_features passed fs ;;
  emit after_all ;;
  ret s.

End Run.

(** *** Counting hook calls *)

Definition is_after_each_feature (e : Event) : bool :=
  match e with after_each_feature => true | _ => false end.

Definition is_after_each_scenario (e : Event) : bool :=
  match e with after_each_scenario => true | _ => false end.

Definition is_after_each_step (e : Event) : bool :=
  match e with after_each_step _ => true | _ => false end.

Definition is_after_outline (e : Event) : bool :=
  match e with after_outline _ => true | _ => false end.

Definition is_dispatch (e : Event) : bool :=
  match e with dispatch _ => true | _ => false end.

Definition is_after_step_of (st : Step) (e : Event) : bool :=
  match e with after_each_step st' => String.eqb st st' | _ => false end.

Definition count (p : Event -> bool) (t : list Event) : nat :=
  length (filter p t).

Definition trace {A} (m : M A) : list Event := snd m.

(** The steps handed to the backend, in order. *)
Definition dispatched (t : list Event) : list Step :=
  flat_map (fun e => match e with dispatch st => [st] | _ => [] end) t.

(** *** test_after_hooks.py *)

(** The arguments of one call of [run_feature] in the test module. *)
Record Expectation := {
  feature : string;
  feature_will_fail : bool;
  with_failfast : bool;
  after_each_feature_count : nat;
  after_each_scenario_count : nat;
  after_each_step_count : nat;
  after_outline_count : nat
}.

Definition expect (name : string) (will_fail ff_ : bool) (f s st o : nat)
  : Expectation :=
  {| feature := name; feature_will_fail := will_fail; with_failfast := ff_;
     after_each_feature_count := f; after_each_scenario_count := s;
     after_each_step_count := st; after_outline_count := o |}.

Definition test_success_outline :=
  expect "success_outline"%string false false 1 1 24 3.
Definition test_success_outline_failfast :=
  expect "success_outline"%string false true 1 1 24 3.
Definition test_fail_outline :=
  expect "fail_outline"%string true false 1 1 24 3.
Definition test_fail_outline_failfast :=
  expect "fail_outline"%string true true 1 1 12 2.
Definition test_success_non_outline :=
  expect "success_table"%string false false 1 1 5 0.
Definition test_success_non_outline_failfast :=
  expect "success_table"%string false true 1 1 5 0.
Definition test_fail_non_outline :=
  expect "failed_table"%string true false 1 1 5 0.
Definition test_fail_non_outline_failfast :=
  expect "failed_table"%string true true 1 1 2 0.
Definition test_fail_system_exiting_non_outline :=
  expect "system_exiting_error"%string true false 1 1 1 0.
Definition test_fail_system_exiting_failfast_non_outline :=
  expect "system_exiting_error"%string true true 1 1 1 0.

Definition tests : list Expectation :=
  [test_success_outline; test_success_outline_failfast;
   test_fail_outline; test_fail_outline_failfast;
   test_success_non_outline; test_success_non_outline_failfast;
   test_fail_non_outline; test_fail_non_outline_failfast;
   test_fail_system_exiting_non_outline;
   test_fail_system_exiting_failfast_non_outline].

(** A feature file with its step definitions. *)
Record Fixture := {
  document : Feature;
  steps_of : Step -> Dispatch;
  substitution : Row -> Step -> Step
}.

(** The four [assert_equals] of [run_feature]. *)
Definition run_feature_asserts (fx : Fixture) (t : Expectation) : bool :=
  let tr := trace (run (steps_of fx) (substitution fx) (with_failfast t)
                     [document fx]) in
  (count is_after_each_feature tr =? after_each_feature_count t)
  && (count is_after_each_scenario tr =? after_each_scenario_count t)
  && (count is_after_each_step tr =? after_each_step_count t)
  && (count is_after_outline tr =? after_outline_count t).

(** The steps [1] to [n]. *)
Definition numbered (n : nat) : list Step :=
  map (fun i => String (ascii_of_nat (48 + i)) EmptyString) (seq 1 n).

Definition with_row (row : Row) (st : Step) : Step :=
  (st ++ "/" ++ String.concat "," row)%string.

Definition three_examples : list Row := [["a"]; ["b"]; ["c"]]%string.

Definition all_pass : Step -> Dispatch := fun _ => Returned.

Definition fails_at (bad : Step) (f : Fault) : Step -> Dispatch :=
  fun st => if String.eqb st bad then Raised f else Returned.

(** Modelled from the spec: the feature files of the tests (the directory
    output_features) and their step definitions are not under src/.  Their
    shapes are taken from the counts the tests expect: an outline of eight
    steps and three examples, failing at the fourth step of the second
    example; a scenario of five steps, failing at the second; a scenario of
    one step that raises a system-exiting fault. *)
Definition fixture_of (name : string) : option Fixture :=
  if String.eqb name "success_outline"%string then
    Some {| document := {| background := [];
                           scenarios := [Outline (numbered 8) three_examples] |};
            steps_of := all_pass; substitution := with_row |}
  else if String.eqb name "fail_outline"%string then
    Some {| document := {| background := [];
                           scenarios := [Outline (numbered 8) three_examples] |};
            steps_of := fails_at "4/b"%string AssertionFault;
            substitution := with_row |}
  else if String.eqb name "success_table"%string then
    Some {| document := {| background := [];
                           scenarios := [Plain (numbered 5)] |};
            steps_of := all_pass; substitution := with_row |}
  else if String.eqb name "failed_table"%string then
    Some {| document := {| background := [];
                           scenarios := [Plain (numbered 5)] |};
            steps_of := fails_at "2"%string AssertionFault;
            substitution := with_row |}
  else if String.eqb name "system_exiting_error"%string then
    Some {| document := {| background := [];
                           scenarios := [Plain (numbered 1)] |};
            steps_of := fails_at "1"%string SystemExiting;
            substitution := with_row |}
  else None.

Definition test_passes (t : Expectation) : bool :=
  match fixture_of (feature t) with
  | Some fx => run_feature_asserts fx t
  | None => false
  end.

End Engine.

(** ** Vocabulary of the statements about the engine *)

Module EngineSpec.
Import Engine.

(** The events of a step that is dispatched, and of one that is passed
    over after a failure. *)
Definition step_events (st : Step) : list Event :=
  [before_each_step st; dispatch st; after_each_step st].

Definition skipped_events (st : Step) : list Event :=
  [before_each_step st; after_each_step st].

(** A feature made of a background and one outline. *)
Definition outline_feature (bg templates : list Step) (examples : list Row)
  : Feature :=
  {| background := bg; scenarios := [Outline templates examples] |}.

(** A feature made of one plain scenario. *)
Definition scenario_feature (steps : list Step) : Feature :=
  {| background := []; scenarios := [Plain steps] |}.

(** One background step and an outline of two steps and three examples,
    the shape of section 8. *)
Definition sample_outline : Feature :=
  outline_feature ["background"%string] ["first"; "second"]%string
    three_examples.

End EngineSpec.

(** ** aloe/runner.py: the options of the test program *)

From Stdlib Require Import ZArith.

Module Program.

Inductive exn :=
| ValueError
| KeyError
| TypeError
| ImportError
| AttributeError.

(** *** Dictionaries of keyword arguments *)

Section Kwargs.

Variable V : Type.

Definition kwargs := list (string * V).

Fixpoint get (d : kwargs) (key : string) : option V :=
  match d with
  | [] => None
  | (k, v) :: r => if String.eqb k key then Some v else get r key
  end.

(** [d.pop(key)]: the value and the dictionary without the key, or a
    [KeyError]. *)
Definition remove (d : kwargs) (key : string) : kwargs :=
  filter (fun kv => negb (String.eqb (fst kv) key)) d.

Definition pop (d : kwargs) (key : string) : exn + (V * kwargs) :=
  match get d key with
  | Some v => inr (v, remove d key)
  | None => inl KeyError
  end.

(** [d[key] = v] *)
Fixpoint set (d : kwargs) (key : string) (v : V) : kwargs :=
  match d with
  | [] => [(key, v)]
  | (k, w) :: r =>
      if String.eqb k key then (k, v) :: r else (k, w) :: set r key v
  end.

(** [d.update(other)] *)
Definition update (d other : kwargs) : kwargs :=
  fold_left (fun acc kv => set acc (fst kv) (snd kv)) other d.

(** [d.setdefault(key, v)] *)
Definition setdefault (d : kwargs) (key : string) (v : V) : kwargs :=
  match get d key with
  | Some _ => d
  | None => set d key v
  end.

End Kwargs.

(** *** [GherkinRunner] and [TestProgram.make_runner] *)

Section Runner.

(** The values of keyword arguments; [of_bool] is a Python [bool] among
    them. *)
Variable V : Type.
Variable of_bool : bool -> V.

(** A runner once built: the colour flag it remembers, and what went on to
    [TextTestRunner.__init__]. *)
Record GherkinRunner := {
  runner_force_color : V;
  runner_args : list V;
  runner_kwargs : kwargs V
}.

(** [GherkinRunner.__init__]: [self.force_color = kwargs.pop('force_color')],
    then the base class with what is left. *)
Definition GherkinRunner_init (args : list V) (kw : kwargs V)
  : exn + GherkinRunner :=
  match pop kw "force_color" with
  | inl e => inl e
  | inr (fc, rest) =>
      inr {| runner_force_color := fc;
             runner_args := args;
             runner_kwargs := rest |}
  end.

(** [GherkinRunner.resultclass]: the result class is called with the
    arguments given and with [force_color=self.force_color]; a keyword
    argument given twice in a call is a [TypeError]. *)
Definition resultclass (self : GherkinRunner) (args : list V)
    (kw : kwargs V) : exn + (list V * kwargs V) :=
  match get kw "force_color" with
  | Some _ => inl TypeError
  | None => inr (args, set kw "force_color" (runner_force_color self))
  end.

(** [TestProgram.extra_runner_args] *)
Definition extra_runner_args (force_color : bool) : kwargs V :=
  [("force_color"%string, of_bool force_color)].

(** [TestProgram.make_runner]: [kwargs.update(self.extra_runner_args())],
    then [GherkinRunner] on the same arguments. *)
Definition make_runner (force_color : bool) (args : list V) (kw : kwargs V)
  : exn + GherkinRunner :=
  GherkinRunner_init args (update kw (extra_runner_args force_color)).

(** [TestProgram.__init__]: the loader and the runner of the program are
    defaults only. *)
Definition TestProgram_init_kwargs (gherkin_loader make_runner_ : V)
    (kw : kwargs V) : kwargs V :=
  setdefault (setdefault kw "testLoader" gherkin_loader)
             "testRunner" make_runner_.

End Runner.

(** *** [TestProgram._getMainArgParser]: the default of [--test-class] *)

Definition environ := string -> option string.

(** ['{c.__module__}.{c.__name__}'.format(c=self.test_class)] *)
Definition qualified_name (module_ name : string) : string :=
  (module_ ++ "." ++ name)%string.

(** The loop over [('NOSE_GHERKIN_CLASS', 'GHERKIN_CLASS')]: each variable
    that is set replaces the name found so far. *)
Definition default_test_class_name (env : environ) (module_ name : string)
  : string :=
  fold_left
    (fun test_class_name test_class_var =>
       match env test_class_var with
       | Some v => v
       | None => test_class_name
       end)
    ["NOSE_GHERKIN_CLASS"; "GHERKIN_CLASS"]%string
    (qualified_name module_ name).

(** *** [TestProgram.setup_loader] *)

(** [s.split(',')] *)
Fixpoint split_comma (s : string) : list string :=
  match s with
  | EmptyString => [EmptyString]
  | String c r =>
      if Ascii.eqb c ","%char then EmptyString :: split_comma r
      else match split_comma r with
           | p :: ps => String c p :: ps
           | [] => [String c EmptyString]
           end
  end.

(** [s.rsplit('.', 1)], when it gives two parts: what stands before the
    last dot and what stands behind it. *)
Fixpoint rsplit_dot (s : string) : option (string * string) :=
  match s with
  | EmptyString => None
  | String c r =>
      match rsplit_dot r with
      | Some (m, cl) => Some (String c m, cl)
      | None => if Ascii.eqb c "."%char then Some (EmptyString, r) else None
      end
  end.

Fixpoint has_char (c : ascii) (s : string) : bool :=
  match s with
  | EmptyString => false
  | String d r => Ascii.eqb c d || has_char c r
  end.

(** [set(l or ())]: every element once. *)
Definition to_set (l : option (list string)) : list string :=
  nodup string_dec (match l with Some x => x | None => [] end).

Section Loader.

(** Test classes and modules, and the three operations of Python
    [setup_loader] leans on: [int], [import_module] and [getattr]. *)
Variables (class_ module_ : Type).
Variable int : string -> option Z.
Variable import_module : string -> exn + module_.
Variable getattr_ : module_ -> string -> option class_.

(** The options [parseArgs] has put on the program. *)
Record TestProgram := {
  force_color : bool;
  ignore_python : bool;
  scenario_indices : string;
  test_class_name : string;
  tags : option (list string);
  exclude_tags : option (list string)
}.

(** The attributes [setup_loader] sets on the loader. *)
Record Loader := {
  loader_force_color : bool;
  loader_ignore_python : bool;
  loader_scenario_indices : option (list Z);
  loader_test_class : class_;
  loader_tags : list string;
  loader_exclude_tags : list string
}.

(** [tuple(int(index) for index in ...)]: the first piece [int] refuses
    raises. *)
Fixpoint ints (pieces : list string) : option (list Z) :=
  match pieces with
  | [] => Some []
  | p :: r =>
      match int p with
      | Some n =>
          match ints r with
          | Some ns => Some (n :: ns)
          | None => None
          end
      | None => None
      end
  end.

(** [setup_loader]: the loader as it is left, and the exception if one was
    raised on the way. *)
Definition setup_loader (self : TestProgram) (l : Loader)
  : Loader * option exn :=
  let l1 :=
    {| loader_force_color := force_color self;
       loader_ignore_python := ignore_python self;
       loader_scenario_indices := loader_scenario_indices l;
       loader_test_class := loader_test_class l;
       loader_tags := loader_tags l;
       loader_exclude_tags := loader_exclude_tags l |} in
  let indices :=
    match scenario_indices self with
    | EmptyString => inr None
    | _ =>
        match ints (split_comma (scenario_indices self)) with
        | Some ns => inr (Some ns)
        | None => inl ValueError
        end
    end in
  match indices with
  | inl e => (l1, Some e)
  | inr ix =>
      let l2 :=
        {| loader_force_color := loader_force_color l1;
           loader_ignore_python := loader_ignore_python l1;
           loader_scenario_indices := ix;
           loader_test_class := loader_test_class l1;
           loader_tags := loader_tags l1;
           loader_exclude_tags := loader_exclude_tags l1 |} in
      match rsplit_dot (test_class_name self) with
      | None => (l2, Some ValueError)
      | Some (module_name, class_name) =>
          match import_module module_name with
          | inl e => (l2, Some e)
          | inr module =>
              match getattr_ module class_name with
              | None => (l2, Some AttributeError)
              | Some cls =>
                  ({| loader_force_color := loader_force_color l2;
                      loader_ignore_python := loader_ignore_python l2;
                      loader_scenario_indices := loader_scenario_indices l2;
                      loader_test_class := cls;
                      loader_tags := to_set (tags self);
                      loader_exclude_tags := to_set (exclude_tags self) |},
                   None)
              end
          end
      end
  end.

(** [createTests] and [_do_discovery]: [self.setup_loader()], then the
    method of the base class, which gets the loader as it then is. *)
Definition with_loader_set_up {A} (base : Loader -> exn + A)
    (self : TestProgram) (l : Loader) : Loader * (exn + A) :=
  match setup_loader self l with
  | (l', Some e) => (l', inl e)
  | (l', None) => (l', base l')
  end.

Definition createTests {A} := @with_loader_set_up A.
Definition _do_discovery {A} := @with_loader_set_up A.

End Loader.

(** *** An instance for the examples *)

Module Example.

(** [int] on a run of decimal digits. *)
Definition digit (c : ascii) : option Z :=
  let n := nat_of_ascii c in
  if (48 <=? n) && (n <=? 57) then Some (Z.of_nat (n - 48)) else None.

Fixpoint digits (acc : Z) (s : string) : option Z :=
  match s with
  | EmptyString => Some acc
  | String c r =>
      match digit c with
      | Some d => digits (10 * acc + d)%Z r
      | None => None
      end
  end.

Definition decimal (s : string) : option Z :=
  match s with
  | EmptyString => None
  | _ => digits 0%Z s
  end.

(** One module with one class in it. *)
Definition import_module (name : string) : exn + string :=
  if String.eqb name "aloe.testclass" then inr name else inl ImportError.

Definition getattr_ (module : string) (name : string) : option string :=
  if String.eqb name "TestCase" then Some (module ++ ":" ++ name)%string
  else None.

Definition options (indices name : string) : TestProgram :=
  {| force_color := true;
     ignore_python := false;
     scenario_indices := indices;
     test_class_name := name;
     tags := Some ["slow"; "db"; "slow"]%string;
     exclude_tags := None |}.

Definition fresh : Loader string :=
  {| loader_force_color := false;
     loader_ignore_python := true;
     loader_scenario_indices := None;
     loader_test_class := "unittest.TestCase"%string;
     loader_tags := [];
     loader_exclude_tags := [] |}.

End Example.

End Program.

(** ** tests/functional/test_after_hooks.py: the helper [run_feature] *)

Module AfterHooksTest.
Import Engine.

(** The four methods of the mock, one for each hook [define_hooks]
    registers; a hook does nothing but call its method. *)
Inductive Hook :=
| each_feature
| each_scenario
| each_step
| outline.

Definition Hook_eqb (a b : Hook) : bool :=
  match a, b with
  | each_feature, each_feature | each_scenario, each_scenario
  | each_step, each_step | outline, outline => true
  | _, _ => false
  end.

(** [mock.<hook>.call_count] *)
Definition call_count (h : Hook) (calls : list Hook) : nat :=
  length (filter (Hook_eqb h) calls).

(** What [runner.run()] did: the calls the mock received, in their order,
    and whether an exception came out of it. *)
Record Ran := {
  calls : list Hook;
  raised : bool
}.

Inductive Verdict :=
| Passes
| Errors                       (* the exception of [runner.run()] *)
| Fails (h : Hook) (got expected : nat).   (* an [assert_equals] *)

(** [assert_equals(a, b)], then the rest of the test. *)
Definition assert_equals (h : Hook) (got expected : nat) (rest : Verdict)
  : Verdict :=
  if got =? expected then rest else Fails h got expected.

(** [run_feature]: [runner_run] is [Runner(feature_name(feature),
    failfast=failfast).run()] with the hooks of [define_hooks] registered on
    a fresh mock.  With [feature_will_fail], whatever it raises is dropped
    ([except: pass]); then the four comparisons, in the order of the
    source. *)
Definition run_feature (runner_run : string -> bool -> Ran)
    (t : Expectation) : Verdict :=
  let ran := runner_run (feature t) (with_failfast t) in
  if negb (feature_will_fail t) && raised ran then Errors
  else
    assert_equals each_feature
      (call_count each_feature (calls ran)) (after_each_feature_count t)
      (assert_equals each_scenario
         (call_count each_scenario (calls ran)) (after_each_scenario_count t)
         (assert_equals each_step
            (call_count each_step (calls ran)) (after_each_step_count t)
            (assert_equals outline
               (call_count outline (calls ran)) (after_outline_count t)
               Passes))).

End AfterHooksTest.

(** * Properties of the parser *)

(** ** [strip] *)

Lemma drop_while_clean (l : text) : starts_clean (drop_while is_space l).
Proof.
  induction l as [|c r IH]; simpl; [exact I|].
  destruct (is_space c) eqn:E; [exact IH|exact E].
Qed.

Lemma drop_while_suffix (p : ascii -> bool) (l : text) :
  exists pre, l = pre ++ drop_while p l.
Proof.
  induction l as [|c r [pre IH]]; simpl.
  - exists []. reflexivity.
  - destruct (p c).
    + exists (c :: pre). simpl. now rewrite <- IH.
    + exists []. reflexivity.
Qed.

Lemma starts_clean_rev_suffix (pre l : text) :
  l <> [] -> starts_clean (rev (pre ++ l)) -> starts_clean (rev l).
Proof.
  intros Hl. rewrite rev_app_distr.
  destruct (rev l) as [|c r] eqn:E.
  - apply (f_equal (@rev ascii)) in E. rewrite rev_involutive in E.
    now destruct Hl.
  - simpl. auto.
Qed.

Lemma strip_trimmed (l : text) : trimmed (strip l).
Proof.
  unfold trimmed, strip.
  set (d := drop_while is_space l).
  assert (Hd : starts_clean d) by apply drop_while_clean.
  set (e := drop_while is_space (rev d)).
  assert (He : starts_clean e) by apply drop_while_clean.
  split.
  - destruct (drop_while_suffix is_space (rev d)) as [pre Hpre].
    fold e in Hpre.
    destruct e as [|c r] eqn:Ee; [exact I|].
    apply starts_clean_rev_suffix with (pre := pre); [discriminate|].
    rewrite <- Hpre, rev_involutive. exact Hd.
  - rewrite rev_involutive. exact He.
Qed.

(** ** Skipping whitespace *)

Lemma take_while_forallb (p : ascii -> bool) (l : text) :
  forallb p (take_while p l) = true.
Proof.
  induction l as [|c r IH]; simpl; [reflexivity|].
  destruct (p c) eqn:E; simpl; [now rewrite E|reflexivity].
Qed.

Lemma skipn_take_while (p : ascii -> bool) (l : text) :
  skipn (length (take_while p l)) l = drop_while p l.
Proof.
  induction l as [|c r IH]; simpl; [reflexivity|].
  destruct (p c); simpl; [exact IH|reflexivity].
Qed.

Lemma take_while_drop_while (p : ascii -> bool) (l : text) :
  take_while p (drop_while p l) = [].
Proof.
  induction l as [|c r IH]; simpl; [reflexivity|].
  destruct (p c) eqn:E; [exact IH|]. simpl. now rewrite E.
Qed.

Lemma skip_white_le wt s loc : loc <= skip_white wt s loc.
Proof. unfold skip_white. lia. Qed.

Lemma skip_white_idem wt s loc :
  skip_white wt s (skip_white wt s loc) = skip_white wt s loc.
Proof.
  unfold skip_white.
  set (p := fun c => mem c wt).
  replace (skipn (loc + length (take_while p (skipn loc s))) s)
    with (skipn (length (take_while p (skipn loc s))) (skipn loc s))
    by (rewrite skipn_skipn; f_equal; lia).
  rewrite skipn_take_while, take_while_drop_while. simpl. lia.
Qed.

Lemma preParse_idem e s loc :
  preParse e s (preParse e s loc) = preParse e s loc.
Proof.
  unfold preParse. destruct (skipWhitespace e); [|reflexivity].
  apply skip_white_idem.
Qed.

(** ** Reading a successful parse backwards *)

Lemma parse_gen_pre (e : ParserElement) fuel s loc :
  _parse e fuel s loc = parse_gen false e fuel s (preParse e s loc).
Proof. reflexivity. Qed.

Lemma parse_gen_start b e fuel s loc :
  parse_gen false e fuel s (start_of b e s loc) = parse_gen b e fuel s loc.
Proof. destruct b; reflexivity. Qed.

(** Matching again where the whitespace is already skipped. *)
Lemma parse_at_start e fuel s loc :
  _parse e fuel s (preParse e s loc) = _parse e fuel s loc.
Proof.
  unfold _parse, parse_gen. now rewrite preParse_idem.
Qed.

Lemma And_Ok b e1 e2 fuel s loc toks loc' :
  parse_gen b (And e1 e2) fuel s loc = Ok toks loc' ->
  exists t1 l1 t2,
    parse_gen b e1 fuel s loc = Ok t1 l1
    /\ _parse e2 fuel s l1 = Ok t2 loc'
    /\ toks = t1 ++ t2.
Proof.
  rewrite <- (parse_gen_start b e1).
  unfold parse_gen at 1. cbn -[parse_gen _parse].
  change (if b then preParse (And e1 e2) s loc else loc)
    with (start_of b e1 s loc).
  destruct (parse_gen false e1 fuel s (start_of b e1 s loc))
    as [t1 l1| | |] eqn:E1; try discriminate.
  destruct (_parse e2 fuel s l1) as [t2 l2| | |] eqn:E2; try discriminate.
  intros H. injection H as <- <-. exists t1, l1, t2. auto.
Qed.

Lemma MatchFirst_Ok b e1 e2 fuel s loc toks loc' :
  parse_gen b (MatchFirst e1 e2) fuel s loc = Ok toks loc' ->
  exists l0, _parse e1 fuel s l0 = Ok toks loc'
             \/ _parse e2 fuel s l0 = Ok toks loc'.
Proof.
  unfold parse_gen at 1. cbn -[parse_gen _parse].
  set (l0 := if b then _ else _). intros H. exists l0.
  destruct (_parse e1 fuel s l0) as [t1 l1| | |] eqn:E1; try discriminate.
  - injection H as <- <-. now left.
  - destruct (_parse e2 fuel s l0) as [t2 l2| | |] eqn:E2; try discriminate.
    injection H as <- <-. now right.
Qed.

Lemma Suppress_Ok b e fuel s loc toks loc' :
  parse_gen b (Suppress e) fuel s loc = Ok toks loc' ->
  toks = [] /\ exists t, parse_gen b e fuel s loc = Ok t loc'.
Proof.
  rewrite <- (parse_gen_start b e).
  unfold parse_gen at 1. cbn -[parse_gen _parse].
  change (if b then preParse (Suppress e) s loc else loc)
    with (start_of b e s loc).
  destruct (parse_gen false e fuel s (start_of b e s loc))
    as [t l| | |] eqn:E; try discriminate.
  intros H. injection H as <- <-. eauto.
Qed.

Lemma Group_Ok b e fuel s loc toks loc' :
  parse_gen b (Group e) fuel s loc = Ok toks loc' ->
  exists t, toks = [VResults t] /\ parse_gen b e fuel s loc = Ok t loc'.
Proof.
  rewrite <- (parse_gen_start b e).
  unfold parse_gen at 1. cbn -[parse_gen _parse].
  change (if b then preParse (Group e) s loc else loc)
    with (start_of b e s loc).
  destruct (parse_gen false e fuel s (start_of b e s loc))
    as [t l| | |] eqn:E; try discriminate.
  intros H. injection H as <- <-. eauto.
Qed.

Lemma Optional_Ok b e fuel s loc toks loc' :
  parse_gen b (Optional e) fuel s loc = Ok toks loc' ->
  parse_gen b e fuel s loc = Ok toks loc'
  \/ (parse_gen b e fuel s loc = ParseException
      /\ toks = [] /\ loc' = start_of b e s loc).
Proof.
  rewrite <- (parse_gen_start b e).
  unfold parse_gen at 1. cbn -[parse_gen _parse].
  change (if b then preParse (Optional e) s loc else loc)
    with (start_of b e s loc).
  destruct (parse_gen false e fuel s (start_of b e s loc))
    as [t l| | |] eqn:E; try discriminate.
  - intros H. injection H as <- <-. now left.
  - intros H. injection H as <- <-. now right.
Qed.

Lemma setParseAction_Ok b e fn fuel s loc toks loc' :
  parseAction e = None ->
  parse_gen b (setParseAction e fn) fuel s loc = Ok toks loc' ->
  exists ret v,
    parse_gen b e fuel s loc = Ok ret loc'
    /\ fn ret = Some v
    /\ toks = (if truthy v then as_tokens v else ret).
Proof.
  intros Hnone. unfold parse_gen. rewrite Hnone.
  cbn -[truthy as_tokens].
  change (if b then preParse (setParseAction e fn) s loc else loc)
    with (if b then preParse e s loc else loc).
  destruct (parseImpl e fuel s (if b then preParse e s loc else loc))
    as [t l| | |]; try discriminate.
  destruct (fn (postParse e t)) as [v|] eqn:E; try discriminate.
  intros H. injection H as <- <-. eauto.
Qed.

(** *** Repetitions *)

Section Repetition.

Variable e : ParserElement.
Variables (fuel : nat) (s : text).

Lemma repeat_loop_chain budget loc acc toks loc' :
  repeat_loop e budget fuel s loc acc = Ok toks loc' ->
  exists ms, chain e fuel s loc ms loc' /\ toks = acc ++ chain_tokens ms.
Proof.
  revert loc acc. induction budget as [|n IH]; intros loc acc; simpl;
    [discriminate|].
  destruct (_parse e fuel s loc) as [t l| | |] eqn:E; try discriminate.
  - intros H. apply IH in H. destruct H as (ms & Hc & ->).
    exists ((t, loc, l) :: ms). split; [econstructor; eassumption|].
    unfold chain_tokens. simpl. now rewrite app_assoc.
  - intros H. injection H as <- <-. exists []. split; [constructor|].
    unfold chain_tokens. simpl. now rewrite app_nil_r.
Qed.

(** The first match of a repetition is made without a second [preParse];
    from the position of a [_parse] it is a match like the others. *)
Lemma OneOrMore_chain loc toks loc' :
  _parse (OneOrMore e) fuel s loc = Ok toks loc' ->
  exists ms, ms <> [] /\ chain e fuel s loc ms loc' /\ toks = chain_tokens ms.
Proof.
  unfold _parse at 1, parse_gen at 1. cbn -[parse_gen _parse].
  change (parse_gen false e fuel s (preParse (OneOrMore e) s loc))
    with (_parse e fuel s loc).
  destruct (_parse e fuel s loc) as [t l| | |] eqn:E; try discriminate.
  destruct (repeat_loop e fuel fuel s l t) as [t' l'| | |] eqn:E';
    try discriminate.
  intros H. injection H as <- <-.
  apply repeat_loop_chain in E'. destruct E' as (ms & Hc & ->).
  exists ((t, loc, l) :: ms). repeat split.
  - discriminate.
  - econstructor; eassumption.
Qed.

Lemma ZeroOrMore_chain loc toks loc' :
  _parse (ZeroOrMore e) fuel s loc = Ok toks loc' ->
  (exists ms, ms <> [] /\ chain e fuel s loc ms loc' /\ toks = chain_tokens ms)
  \/ (_parse e fuel s loc = ParseException
      /\ toks = [] /\ loc' = preParse e s loc).
Proof.
  unfold _parse at 1, parse_gen at 1. cbn -[parse_gen _parse].
  change (parse_gen false e fuel s (preParse (ZeroOrMore e) s loc))
    with (_parse e fuel s loc).
  destruct (_parse e fuel s loc) as [t l| | |] eqn:E; try discriminate.
  - destruct (repeat_loop e fuel fuel s l t) as [t' l'| | |] eqn:E';
      try discriminate.
    intros H. injection H as <- <-.
    apply repeat_loop_chain in E'. destruct E' as (ms & Hc & ->).
    left. exists ((t, loc, l) :: ms). repeat split.
    + discriminate.
    + econstructor; eassumption.
  - intros H. injection H as <- <-. right. auto.
Qed.

Lemma chain_Forall (P : value -> Prop) loc ms loc' :
  (forall l0 t l, _parse e fuel s l0 = Ok t l -> Forall P t) ->
  chain e fuel s loc ms loc' -> Forall P (chain_tokens ms).
Proof.
  intros He. induction 1 as [|loc t l ms l' E _ IH]; [constructor|].
  unfold chain_tokens. simpl. apply Forall_app. split; [|exact IH].
  eapply He; eassumption.
Qed.

Lemma chain_tokens_nonempty loc ms loc' :
  (forall l0 t l, _parse e fuel s l0 = Ok t l -> t <> []) ->
  chain e fuel s loc ms loc' -> ms <> [] -> chain_tokens ms <> [].
Proof.
  intros He Hc. destruct Hc as [|loc t l ms l' E _]; [congruence|].
  intros _. unfold chain_tokens. simpl. apply He in E.
  destruct t; [congruence|discriminate].
Qed.

End Repetition.


(** ** Tokens *)

Lemma printable_not_space (c : ascii) :
  is_printable c = true -> is_space c = false.
Proof.
  destruct c as [[] [] [] [] [] [] [] []]; vm_compute; congruence.
Qed.

Lemma Literal_Ok b m fuel s loc toks loc' :
  parse_gen b (Literal m) fuel s loc = Ok toks loc' ->
  toks = [VStr m] /\ loc' = start_of b (Literal m) s loc + length m.
Proof.
  unfold parse_gen. cbn -[skipn startswith preParse].
  fold (start_of b (Literal m) s loc).
  destruct (skipn _ s); [discriminate|].
  destruct (startswith m _); [|discriminate].
  intros H. injection H as <- <-. auto.
Qed.

Lemma Word_printables_Ok b fuel s loc toks loc' :
  parse_gen b Word_printables fuel s loc = Ok toks loc' ->
  exists w, toks = [VStr w] /\ w <> [] /\ forallb is_printable w = true
    /\ loc <= loc'.
Proof.
  unfold parse_gen. cbn -[take_while skipn is_printable preParse].
  fold (start_of b Word_printables s loc).
  assert (Hle : loc <= start_of b Word_printables s loc)
    by (destruct b; [apply skip_white_le|apply le_n]).
  match goal with |- context [take_while ?p ?l] =>
    pose proof (take_while_forallb p l) as Hall;
    destruct (take_while p l) as [|c w] end; [discriminate|].
  intros H. injection H as <- <-.
  exists (c :: w). repeat split; [discriminate|assumption|lia].
Qed.

Lemma CharsNotIn_Ok b notChars fuel s loc toks loc' :
  parse_gen b (CharsNotIn notChars) fuel s loc = Ok toks loc' ->
  exists w, toks = [VStr w] /\ w <> []
    /\ forallb (fun c => negb (mem c notChars)) w = true.
Proof.
  unfold parse_gen. cbn -[take_while skipn mem].
  match goal with |- context [take_while ?p ?l] =>
    pose proof (take_while_forallb p l) as Hall;
    destruct (take_while p l) as [|c w] end; [discriminate|].
  intros H. injection H as <- <-.
  exists (c :: w). repeat split; [discriminate|assumption].
Qed.

Lemma restOfLine_Ok b fuel s loc toks loc' :
  parse_gen b restOfLine fuel s loc = Ok toks loc' ->
  exists w, toks = [VStr w]
    /\ forallb (fun c => negb (Ascii.eqb c nl)) w = true.
Proof.
  unfold parse_gen. cbn -[take_while skipn Nat.min].
  intros H. injection H as <- <-.
  eexists. split; [reflexivity|]. apply take_while_forallb.
Qed.

Lemma Keyword_Ok b m fuel s loc toks loc' :
  parse_gen b (Keyword m) fuel s loc = Ok toks loc' -> toks = [VStr m].
Proof.
  unfold parse_gen. cbn -[skipn startswith nth_error is_ident_char].
  destruct (skipn _ s); [discriminate|].
  match goal with |- context [if ?c then _ else _] => destruct c end;
    [|discriminate].
  intros H. now injection H as <- <-.
Qed.

Lemma lineEnd_Ok b fuel s loc toks loc' :
  parse_gen b lineEnd fuel s loc = Ok toks loc' -> loc < loc'.
Proof.
  unfold parse_gen. cbn -[nth_error Nat.ltb Nat.eqb preParse Ascii.eqb nl].
  fold (start_of b lineEnd s loc).
  assert (Hle : loc <= start_of b lineEnd s loc)
    by (destruct b; [apply skip_white_le|apply le_n]).
  destruct (_ <? _).
  - destruct (nth_error s _) as [c|]; [|discriminate].
    destruct (Ascii.eqb c nl); [|discriminate].
    intros H. injection H as <- <-. lia.
  - destruct (_ =? _); [|discriminate].
    intros H. injection H as <- <-. lia.
Qed.

(** ** The grammar of parser.py, element by element *)

Lemma strip_all_spec (tokens : list value) (v : value) :
  strip_all tokens = Some v ->
  exists cells, v = VResults cells /\ Forall is_cell cells
    /\ length cells = length tokens.
Proof.
  unfold strip_all.
  match goal with |- context [?g tokens] => set (go := g) end.
  assert (G : forall l l', go l = Some l' ->
                Forall is_cell l' /\ length l' = length l).
  { induction l as [|x r IH]; intros l'; simpl.
    - intros H. injection H as <-. split; [constructor|reflexivity].
    - destruct x as [|c| |]; try discriminate.
      destruct (go r) as [r'|] eqn:E; [|discriminate].
      intros H. injection H as <-.
      destruct (IH r' eq_refl) as [F L]. split.
      + constructor; [|assumption]. exists (strip c).
        split; [reflexivity|apply strip_trimmed].
      + simpl. now rewrite L. }
  destruct (go tokens) as [l|] eqn:E; [|discriminate].
  intros H. injection H as <-.
  destruct (G _ _ E) as [F L]. eauto.
Qed.

Lemma TABLE_CELL_Ok b fuel s loc toks loc' :
  parse_gen b TABLE_CELL fuel s loc = Ok toks loc' ->
  exists w, toks = [VStr w].
Proof.
  intros H. apply And_Ok in H. destruct H as (t1 & l1 & t2 & H1 & H2 & ->).
  apply CharsNotIn_Ok in H1. destruct H1 as (w & -> & _).
  apply Suppress_Ok in H2. destruct H2 as [-> _].
  now exists w.
Qed.

Lemma TABLE_ROW_Ok b fuel s loc toks loc' :
  parse_gen b TABLE_ROW fuel s loc = Ok toks loc' ->
  toks <> [] /\ Forall is_cell toks.
Proof.
  intros H. apply setParseAction_Ok in H; [|reflexivity].
  destruct H as (ret & v & Hret & Hv & ->).
  apply And_Ok in Hret. destruct Hret as (t1 & l1 & t2 & H1 & H2 & ->).
  apply Suppress_Ok in H2. destruct H2 as [-> _].
  apply And_Ok in H1. destruct H1 as (t0 & l0 & cells & H0 & H1 & ->).
  apply Suppress_Ok in H0. destruct H0 as [-> _].
  apply OneOrMore_chain in H1. destruct H1 as (ms & Hms & Hc & ->).
  assert (Hne : chain_tokens ms <> []).
  { eapply chain_tokens_nonempty; [|exact Hc|exact Hms].
    intros l2 t l E. apply TABLE_CELL_Ok in E. destruct E as [w ->].
    discriminate. }
  rewrite app_nil_r in *. simpl app in *.
  apply strip_all_spec in Hv. destruct Hv as (stripped & -> & F & L).
  destruct stripped as [|x r].
  - destruct (chain_tokens ms); [now destruct Hne|discriminate].
  - simpl. split; [discriminate|assumption].
Qed.

Lemma TABLE_Ok fuel s loc toks loc' :
  _parse TABLE fuel s loc = Ok toks loc' ->
  exists rows, toks = [VResults rows] /\ rows <> [] /\ Forall is_row rows.
Proof.
  intros H. unfold TABLE, setResultsName in H.
  apply Group_Ok in H. destruct H as (rows & -> & H).
  apply OneOrMore_chain in H. destruct H as (ms & Hms & Hc & ->).
  exists (chain_tokens ms). split; [reflexivity|]. split.
  - eapply chain_tokens_nonempty; [|exact Hc|exact Hms].
    intros l0 t l E. apply Group_Ok in E. destruct E as (t0 & -> & _).
    discriminate.
  - eapply chain_Forall; [|exact Hc].
    intros l0 t l E. apply Group_Ok in E. destruct E as (t0 & -> & E).
    apply TABLE_ROW_Ok in E. destruct E as [Hne F].
    constructor; [|constructor]. exists t0. auto.
Qed.

Lemma TAG_Ok b fuel s loc toks loc' :
  parse_gen b TAG fuel s loc = Ok toks loc' ->
  exists name, toks = [tag_object name] /\ name <> []
    /\ forallb is_printable name = true /\ loc < loc'.
Proof.
  intros H. apply setParseAction_Ok in H; [|reflexivity].
  destruct H as (ret & v & Hret & Hv & ->).
  apply And_Ok in Hret. destruct Hret as (t1 & l1 & t2 & H1 & H2 & ->).
  apply Suppress_Ok in H2. destruct H2 as [-> [t4 H2]].
  apply lineEnd_Ok in H2.
  apply And_Ok in H1. destruct H1 as (t0 & l0 & t3 & H0 & H1 & ->).
  apply Suppress_Ok in H0. destruct H0 as [-> [t5 H0]].
  apply Literal_Ok in H0. destruct H0 as [_ ->].
  apply Word_printables_Ok in H1. destruct H1 as (w & -> & Hne & Hp & Hle).
  simpl in Hv. injection Hv as <-.
  exists w. repeat split; try assumption.
  assert (loc <= start_of b (Literal (str "@")) s loc)
    by (destruct b; [apply skip_white_le|apply le_n]).
  lia.
Qed.

Lemma keyword_choice_Ok b fuel s loc toks loc' :
  parse_gen b
    (MatchFirst
       (MatchFirst (MatchFirst (Keyword (str "Given")) (Keyword (str "When")))
                   (Keyword (str "Then")))
       (Keyword (str "And")))
    fuel s loc = Ok toks loc' ->
  exists keyword, toks = [VStr keyword] /\ In keyword keywords.
Proof.
  intros H. unfold keywords.
  apply MatchFirst_Ok in H. destruct H as [l0 [H|H]].
  - apply MatchFirst_Ok in H. destruct H as [l1 [H|H]].
    + apply MatchFirst_Ok in H. destruct H as [l2 [H|H]];
        apply Keyword_Ok in H; subst; eexists; split; try reflexivity;
        simpl; auto.
    + apply Keyword_Ok in H; subst; eexists; split; try reflexivity;
        simpl; auto.
  - apply Keyword_Ok in H; subst; eexists; split; try reflexivity;
      simpl; auto.
Qed.

Lemma STATEMENT_sentence_Ok b fuel s loc toks loc' :
  parse_gen b STATEMENT_sentence fuel s loc = Ok toks loc' ->
  exists keyword rest,
    toks = [VStr keyword; VStr rest] /\ In keyword keywords.
Proof.
  intros H. apply And_Ok in H. destruct H as (t1 & l1 & t2 & H1 & H2 & ->).
  apply keyword_choice_Ok in H1. destruct H1 as (keyword & -> & Hk).
  apply restOfLine_Ok in H2. destruct H2 as (rest & -> & _).
  exists keyword, rest. auto.
Qed.

(** A statement is its sentence and, when [TABLE] matches after it, that
    table. *)
Lemma STATEMENT_Ok b fuel s loc toks loc' :
  parse_gen b STATEMENT fuel s loc = Ok toks loc' ->
  exists keyword rest l1,
    parse_gen b STATEMENT_sentence fuel s loc
    = Ok [VStr keyword; VStr rest] l1
    /\ In keyword keywords
    /\ ((_parse TABLE fuel s l1 = ParseException
         /\ toks = [plain_statement (keyword ++ rest)])
        \/ exists rows,
             _parse TABLE fuel s l1 = Ok [VResults rows] loc'
             /\ rows <> [] /\ Forall is_row rows
             /\ toks = [table_statement (keyword ++ rest) (VResults rows)]).
Proof.
  intros H. apply setParseAction_Ok in H; [|reflexivity].
  destruct H as (ret & v & Hret & Hv & ->).
  apply And_Ok in Hret. destruct Hret as (t1 & l1 & t2 & H1 & H2 & ->).
  pose proof (STATEMENT_sentence_Ok _ _ _ _ H1) as (keyword & rest & -> & Hk).
  exists keyword, rest, l1. split; [assumption|]. split; [assumption|].
  apply Optional_Ok in H2. destruct H2 as [H2|(H2 & -> & _)].
  - right. pose proof (TABLE_Ok _ _ _ H2) as (rows & -> & Hne & F).
    exists rows. repeat split; try assumption.
    simpl in Hv. injection Hv as <-. reflexivity.
  - left. split; [assumption|].
    simpl in Hv. injection Hv as <-. reflexivity.
Qed.

Lemma STATEMENT_is_statement b fuel s loc toks loc' :
  parse_gen b STATEMENT fuel s loc = Ok toks loc' ->
  exists st, toks = [st] /\ is_statement st.
Proof.
  intros H. apply STATEMENT_Ok in H.
  destruct H as (keyword & rest & l1 & _ & Hk & [[_ ->]|(rows & _ & Hne & F & ->)]);
    eexists; (split; [reflexivity|]); exists keyword, rest;
    (split; [assumption|]).
  - now left.
  - right. exists rows. auto.
Qed.

Lemma is_statement_instance (v : value) :
  is_statement v -> isinstance v KStatement = true.
Proof.
  intros (keyword & rest & _ & [->|(rows & -> & _)]); reflexivity.
Qed.

Lemma BACKGROUND_Ok b fuel s loc toks loc' :
  parse_gen b BACKGROUND fuel s loc = Ok toks loc' ->
  exists statements,
    toks = [background_object statements] /\ Forall is_statement statements.
Proof.
  intros H. apply setParseAction_Ok in H; [|reflexivity].
  destruct H as (ret & v & Hret & Hv & ->).
  apply And_Ok in Hret. destruct Hret as (t1 & l1 & t2 & H1 & H2 & ->).
  apply setParseAction_Ok in H1; [|reflexivity].
  destruct H1 as (ret1 & v1 & Hret1 & Hv1 & ->).
  apply Suppress_Ok in Hret1. destruct Hret1 as [-> _].
  unfold Background in Hv1. injection Hv1 as <-.
  assert (F : Forall is_statement t2).
  { apply ZeroOrMore_chain in H2.
    destruct H2 as [(ms & _ & Hc & ->)|(_ & -> & _)]; [|constructor].
    eapply chain_Forall; [|exact Hc].
    intros l0 t l E. apply STATEMENT_is_statement in E.
    destruct E as (st & -> & Hst). constructor; [assumption|constructor]. }
  exists t2. split; [|assumption].
  cbn [truthy as_tokens Block_init app] in Hv. unfold add_statements in Hv.
  replace (forallb (fun token => isinstance token KStatement) t2) with true
    in Hv.
  - cbn in Hv. injection Hv as <-. reflexivity.
  - symmetry. apply forallb_forall. intros x Hx.
    apply is_statement_instance. eapply Forall_forall; eassumption.
Qed.

Lemma chain_tag_lines fuel s loc ms loc' :
  chain TAG fuel s loc ms loc' ->
  exists names,
    chain_tokens ms = map tag_object names
    /\ tag_lines fuel s loc names loc'
    /\ Forall (fun name => name <> [] /\ forallb is_printable name = true)
         names.
Proof.
  induction 1 as [loc|loc t l ms l' E _ (names & Ht & Hl & F)].
  - exists []. repeat split; constructor.
  - pose proof (TAG_Ok _ _ _ _ E) as (name & -> & Hne & Hp & Hlt).
    exists (name :: names). repeat split.
    + unfold chain_tokens in *. simpl. now rewrite Ht.
    + econstructor; eassumption.
    + constructor; auto.
Qed.

Lemma tag_objects_are_tags (names : list text) :
  forallb (fun tag => isinstance tag KTag) (map tag_object names) = true.
Proof. induction names; simpl; auto. Qed.

Lemma Feature_of_tags (names : list text) (name : text) :
  Feature (map tag_object names ++ [VStr name])
  = Some (feature_object (map tag_object names) name).
Proof.
  unfold Feature, TaggedBlock_init.
  rewrite rev_unit, removelast_last, tag_objects_are_tags. reflexivity.
Qed.

(** The header of a feature: the tag lines, in the order of the text, then
    the keyword and the name. *)
Lemma FEATURE_DEFN_Ok fuel s loc toks loc' :
  _parse FEATURE_DEFN fuel s loc = Ok toks loc' ->
  exists names name l1 l2,
    tag_lines fuel s loc names l1
    /\ Forall (fun n => n <> [] /\ forallb is_printable n = true) names
    /\ _parse FEATURE_KEYWORD fuel s l1 = Ok [] l2
    /\ _parse restOfLine fuel s l2 = Ok [VStr name] loc'
    /\ toks = [feature_object (map tag_object names) name].
Proof.
  intros H. apply setParseAction_Ok in H; [|reflexivity].
  destruct H as (ret & v & Hret & Hv & ->).
  apply And_Ok in Hret. destruct Hret as (t1 & l2 & t2 & H1 & H2 & ->).
  apply And_Ok in H1. destruct H1 as (t0 & l1 & t3 & H0 & H1 & ->).
  assert (t3 = []) as -> by (now apply Suppress_Ok in H1).
  assert (exists name, t2 = [VStr name]) as [name ->].
  { pose proof H2 as H2'. apply restOfLine_Ok in H2'.
    destruct H2' as (name & -> & _). now exists name. }
  apply ZeroOrMore_chain in H0.
  destruct H0 as [(ms & _ & Hc & ->)|(_ & -> & ->)].
  - apply chain_tag_lines in Hc. destruct Hc as (names & Ht & Hl & F).
    rewrite Ht, app_nil_r in Hv. rewrite Feature_of_tags in Hv.
    injection Hv as <-.
    exists names, name, l1, l2. auto.
  - change (preParse TAG s loc) with (preParse FEATURE_KEYWORD s loc) in H1.
    rewrite parse_at_start in H1.
    change (Feature (map tag_object [] ++ [VStr name]) = Some v) in Hv.
    rewrite Feature_of_tags in Hv. injection Hv as <-.
    exists [], name, loc, l2. repeat split; try assumption; constructor.
Qed.

(** Every text the grammar accepts yields one [Feature] and at most one
    [Background], and nothing else. *)
Lemma FEATURE_Ok fuel s loc toks loc' :
  _parse FEATURE fuel s loc = Ok toks loc' ->
  exists names name,
    Forall (fun n => n <> [] /\ forallb is_printable n = true) names
    /\ (toks = [feature_object (map tag_object names) name]
        \/ exists statements,
             Forall is_statement statements
             /\ toks = [feature_object (map tag_object names) name;
                        background_object statements]).
Proof.
  intros H. apply And_Ok in H. destruct H as (t1 & l1 & t2 & H1 & H2 & ->).
  apply And_Ok in H1. destruct H1 as (t0 & l0 & t3 & H0 & H1 & ->).
  apply FEATURE_DEFN_Ok in H0.
  destruct H0 as (names & name & l2 & l3 & _ & F & _ & _ & ->).
  exists names, name. split; [assumption|].
  assert (t2 = []) as ->.
  { revert H2. unfold _parse, parse_gen.
    cbn -[Nat.ltb Nat.eqb preParse].
    destruct (_ <? _); [discriminate|].
    destruct (_ =? _); intros H; now injection H as <- <-. }
  apply Optional_Ok in H1. destruct H1 as [H1|(_ & -> & _)].
  - apply BACKGROUND_Ok in H1. destruct H1 as (statements & -> & Fs).
    right. exists statements. auto.
  - left. reflexivity.
Qed.

(** ** Building a successful parse *)

Lemma skipn_cons_inv (s : text) loc c r :
  skipn loc s = c :: r ->
  nth_error s loc = Some c /\ loc < length s /\ skipn (S loc) s = r.
Proof.
  revert loc. induction s as [|a s IH]; intros [|loc]; simpl; try discriminate.
  - intros H. injection H as -> ->. repeat split. lia.
  - intros H. apply IH in H. destruct H as (H1 & H2 & H3).
    repeat split; [assumption|lia|assumption].
Qed.

Lemma skipn_app_inv (s a r : text) loc :
  skipn loc s = a ++ r -> skipn (loc + length a) s = r.
Proof.
  revert loc. induction a as [|c a IH]; intros loc H; simpl in *.
  - now rewrite Nat.add_0_r.
  - apply skipn_cons_inv in H. destruct H as (_ & _ & H).
    apply IH in H. replace (loc + S (length a)) with (S loc + length a) by lia.
    assumption.
Qed.

Lemma take_while_app_stop (p : ascii -> bool) (w r : text) :
  forallb p w = true ->
  match r with [] => True | c :: _ => p c = false end ->
  take_while p (w ++ r) = w.
Proof.
  intros Hw Hr. induction w as [|c w IH].
  - destruct r as [|c r]; [reflexivity|]. simpl. now rewrite Hr.
  - simpl in Hw. apply andb_prop in Hw. destruct Hw as [Hc Hw].
    simpl. rewrite Hc. now rewrite IH.
Qed.

Lemma skip_white_at wt (s w r : text) loc :
  skipn loc s = w ++ r ->
  forallb (fun c => mem c wt) w = true ->
  starts_outside wt r ->
  skip_white wt s loc = loc + length w.
Proof.
  intros Hs Hw Hr. unfold skip_white. rewrite Hs.
  rewrite take_while_app_stop; [reflexivity|assumption|].
  destruct r; [exact I|exact Hr].
Qed.

Lemma skip_white_none wt (s r : text) loc :
  skipn loc s = r -> starts_outside wt r -> skip_white wt s loc = loc.
Proof.
  intros Hs Hr. rewrite (@skip_white_at wt s [] r loc); auto.
Qed.

(** *** Expressions *)

Lemma And_intro b e1 e2 fuel s loc t1 l1 t2 l2 :
  parse_gen b e1 fuel s loc = Ok t1 l1 ->
  _parse e2 fuel s l1 = Ok t2 l2 ->
  parse_gen b (And e1 e2) fuel s loc = Ok (t1 ++ t2) l2.
Proof.
  intros H1 H2. rewrite <- parse_gen_start in H1.
  unfold parse_gen at 1. cbn -[parse_gen _parse].
  change (if b then preParse (And e1 e2) s loc else loc)
    with (start_of b e1 s loc).
  now rewrite H1, H2.
Qed.

Lemma And_fail b e1 e2 fuel s loc :
  parse_gen b e1 fuel s loc = ParseException ->
  parse_gen b (And e1 e2) fuel s loc = ParseException.
Proof.
  intros H1. rewrite <- parse_gen_start in H1.
  unfold parse_gen at 1. cbn -[parse_gen _parse].
  change (if b then preParse (And e1 e2) s loc else loc)
    with (start_of b e1 s loc).
  now rewrite H1.
Qed.

Lemma And_fail_second b e1 e2 fuel s loc t1 l1 :
  parse_gen b e1 fuel s loc = Ok t1 l1 ->
  _parse e2 fuel s l1 = ParseException ->
  parse_gen b (And e1 e2) fuel s loc = ParseException.
Proof.
  intros H1 H2. rewrite <- parse_gen_start in H1.
  unfold parse_gen at 1. cbn -[parse_gen _parse].
  change (if b then preParse (And e1 e2) s loc else loc)
    with (start_of b e1 s loc).
  now rewrite H1, H2.
Qed.

Lemma Suppress_intro b e fuel s loc t l :
  parse_gen b e fuel s loc = Ok t l ->
  parse_gen b (Suppress e) fuel s loc = Ok [] l.
Proof.
  intros H. rewrite <- parse_gen_start in H.
  unfold parse_gen at 1. cbn -[parse_gen _parse].
  change (if b then preParse (Suppress e) s loc else loc)
    with (start_of b e s loc).
  now rewrite H.
Qed.

Lemma Suppress_fail b e fuel s loc :
  parse_gen b e fuel s loc = ParseException ->
  parse_gen b (Suppress e) fuel s loc = ParseException.
Proof.
  intros H. rewrite <- parse_gen_start in H.
  unfold parse_gen at 1. cbn -[parse_gen _parse].
  change (if b then preParse (Suppress e) s loc else loc)
    with (start_of b e s loc).
  now rewrite H.
Qed.

Lemma Group_fail b e fuel s loc :
  parse_gen b e fuel s loc = ParseException ->
  parse_gen b (Group e) fuel s loc = ParseException.
Proof.
  intros H. rewrite <- parse_gen_start in H.
  unfold parse_gen at 1. cbn -[parse_gen _parse].
  change (if b then preParse (Group e) s loc else loc)
    with (start_of b e s loc).
  now rewrite H.
Qed.

Lemma OneOrMore_fail b e fuel s loc :
  parse_gen b e fuel s loc = ParseException ->
  parse_gen b (OneOrMore e) fuel s loc = ParseException.
Proof.
  intros H. rewrite <- parse_gen_start in H.
  unfold parse_gen at 1. cbn -[parse_gen _parse].
  change (if b then preParse (OneOrMore e) s loc else loc)
    with (start_of b e s loc).
  now rewrite H.
Qed.

Lemma Optional_none b e fuel s loc :
  parse_gen b e fuel s loc = ParseException ->
  parse_gen b (Optional e) fuel s loc = Ok [] (start_of b e s loc).
Proof.
  intros H. rewrite <- parse_gen_start in H.
  unfold parse_gen at 1. cbn -[parse_gen _parse].
  change (if b then preParse (Optional e) s loc else loc)
    with (start_of b e s loc).
  now rewrite H.
Qed.

Lemma Optional_some b e fuel s loc t l :
  parse_gen b e fuel s loc = Ok t l ->
  parse_gen b (Optional e) fuel s loc = Ok t l.
Proof.
  intros H. rewrite <- parse_gen_start in H.
  unfold parse_gen at 1. cbn -[parse_gen _parse].
  change (if b then preParse (Optional e) s loc else loc)
    with (start_of b e s loc).
  now rewrite H.
Qed.

Lemma setParseAction_intro b e fn fuel s loc ret l v :
  parseAction e = None ->
  parse_gen b e fuel s loc = Ok ret l ->
  fn ret = Some v ->
  truthy v = true ->
  parse_gen b (setParseAction e fn) fuel s loc = Ok (as_tokens v) l.
Proof.
  intros Hnone H Hv Ht. unfold parse_gen in *. rewrite Hnone in H.
  cbn -[truthy as_tokens].
  change (if b then preParse (setParseAction e fn) s loc else loc)
    with (if b then preParse e s loc else loc).
  destruct (parseImpl e fuel s (if b then preParse e s loc else loc))
    as [t l0| | |]; try discriminate.
  injection H as <- <-. now rewrite Hv, Ht.
Qed.

Lemma setParseAction_fail b e fn fuel s loc :
  parseAction e = None ->
  parse_gen b e fuel s loc = ParseException ->
  parse_gen b (setParseAction e fn) fuel s loc = ParseException.
Proof.
  intros Hnone H. unfold parse_gen in *. rewrite Hnone in H.
  cbn -[truthy as_tokens].
  change (if b then preParse (setParseAction e fn) s loc else loc)
    with (if b then preParse e s loc else loc).
  destruct (parseImpl e fuel s (if b then preParse e s loc else loc))
    as [t l0| | |]; try discriminate.
  reflexivity.
Qed.

Lemma MatchFirst_fail b e1 e2 fuel s loc :
  (forall l0, _parse e1 fuel s l0 = ParseException) ->
  (forall l0, _parse e2 fuel s l0 = ParseException) ->
  parse_gen b (MatchFirst e1 e2) fuel s loc = ParseException.
Proof.
  intros H1 H2. unfold parse_gen at 1. cbn -[parse_gen _parse].
  now rewrite H1, H2.
Qed.

(** A repetition over a chain of matches that ends in a failure. *)
Lemma repeat_loop_intro e fuel s ms :
  forall budget loc loc' acc,
    chain e fuel s loc ms loc' ->
    _parse e fuel s loc' = ParseException ->
    length ms < budget ->
    repeat_loop e budget fuel s loc acc = Ok (acc ++ chain_tokens ms) loc'.
Proof.
  induction ms as [|m ms IH]; intros budget loc loc' acc Hc Hend Hb;
    inversion Hc; subst; destruct budget as [|budget];
    simpl in Hb; try lia; cbn [repeat_loop].
  - rewrite Hend. unfold chain_tokens. simpl. now rewrite app_nil_r.
  - match goal with H : _parse e fuel s loc = Ok _ _ |- _ => rewrite H end.
    erewrite IH; [|eassumption|assumption|lia].
    unfold chain_tokens. simpl. now rewrite app_assoc.
Qed.

Lemma ZeroOrMore_intro e fuel s loc ms loc' :
  chain e fuel s loc ms loc' ->
  _parse e fuel s loc' = ParseException ->
  length ms <= fuel ->
  _parse (ZeroOrMore e) fuel s loc
  = Ok (chain_tokens ms)
       (match ms with [] => preParse e s loc | _ => loc' end).
Proof.
  intros Hc Hend Hb.
  unfold _parse at 1, parse_gen at 1. cbn -[parse_gen _parse].
  change (parse_gen false e fuel s (preParse (ZeroOrMore e) s loc))
    with (_parse e fuel s loc).
  inversion Hc; subst.
  - now rewrite Hend.
  - match goal with H : _parse e fuel s loc = Ok _ _ |- _ => rewrite H end.
    simpl in Hb.
    erewrite repeat_loop_intro; [|eassumption|assumption|lia].
    reflexivity.
Qed.

Lemma OneOrMore_intro e fuel s loc m ms loc' :
  chain e fuel s loc (m :: ms) loc' ->
  _parse e fuel s loc' = ParseException ->
  length (m :: ms) <= fuel ->
  _parse (OneOrMore e) fuel s loc = Ok (chain_tokens (m :: ms)) loc'.
Proof.
  intros Hc Hend Hb.
  unfold _parse at 1, parse_gen at 1. cbn -[parse_gen _parse].
  change (parse_gen false e fuel s (preParse (OneOrMore e) s loc))
    with (_parse e fuel s loc).
  inversion Hc; subst.
  match goal with H : _parse e fuel s loc = Ok _ _ |- _ => rewrite H end.
  simpl in Hb.
  erewrite repeat_loop_intro; [|eassumption|assumption|lia].
  reflexivity.
Qed.

(** *** Tokens *)

Lemma parse_skip e fuel (s w r : text) loc :
  skipWhitespace e = true ->
  skipn loc s = w ++ r ->
  forallb (fun c => mem c (whiteChars e)) w = true ->
  starts_outside (whiteChars e) r ->
  _parse e fuel s loc = parse_gen false e fuel s (loc + length w).
Proof.
  intros Hskip Hs Hw Hr. rewrite parse_gen_pre. f_equal.
  unfold preParse. rewrite Hskip. eapply skip_white_at; eassumption.
Qed.

Lemma parse_no_skip e fuel (s r : text) loc :
  skipn loc s = r ->
  starts_outside (whiteChars e) r ->
  _parse e fuel s loc = parse_gen false e fuel s loc.
Proof.
  intros Hs Hr. rewrite parse_gen_pre. f_equal.
  unfold preParse. destruct (skipWhitespace e); [|reflexivity].
  eapply skip_white_none; eassumption.
Qed.

Lemma startswith_app (m r : text) : startswith m (m ++ r) = true.
Proof.
  induction m as [|c m IH]; simpl; [reflexivity|].
  now rewrite Ascii.eqb_refl, IH.
Qed.

Lemma startswith_head (m r : text) c d :
  c <> d -> startswith (c :: m) (d :: r) = false.
Proof.
  intros H. simpl. apply Ascii.eqb_neq in H. now rewrite H.
Qed.

Lemma skipn_length_app (m r : text) : skipn (length m) (m ++ r) = r.
Proof. induction m; simpl; auto. Qed.

Lemma Literal_impl m fuel (s : text) loc :
  parse_gen false (Literal m) fuel s loc
  = match skipn loc s with
    | [] => ParseException
    | _ :: _ =>
        if startswith m (skipn loc s) then Ok [VStr m] (loc + length m)
        else ParseException
    end.
Proof.
  unfold parse_gen. cbn -[skipn startswith].
  destruct (skipn loc s); [reflexivity|].
  now destruct (startswith m _).
Qed.

Lemma Keyword_impl m fuel (s : text) loc :
  parse_gen false (Keyword m) fuel s loc
  = match skipn loc s with
    | [] => ParseException
    | _ :: _ =>
        if startswith m (skipn loc s)
           && match skipn (length m) (skipn loc s) with
              | [] => true
              | c :: _ => negb (is_ident_char c)
              end
           && match loc with
              | 0 => true
              | S p => match nth_error s p with
                       | Some c => negb (is_ident_char c)
                       | None => true
                       end
              end
        then Ok [VStr m] (loc + length m)
        else ParseException
    end.
Proof.
  unfold parse_gen. cbn -[skipn startswith nth_error is_ident_char].
  destruct (skipn loc s); [reflexivity|].
  match goal with |- context [if ?c then _ else _] => now destruct c end.
Qed.

Lemma app_cons_shape (m r : text) :
  m <> [] -> exists c l, m ++ r = c :: l.
Proof. destruct m as [|c m]; [congruence|]. intros _. simpl. eauto. Qed.

Lemma Literal_at m fuel (s r : text) loc :
  skipn loc s = m ++ r -> m <> [] ->
  parse_gen false (Literal m) fuel s loc = Ok [VStr m] (loc + length m).
Proof.
  intros Hs Hm. rewrite Literal_impl, Hs, startswith_app.
  destruct (app_cons_shape r Hm) as (c & l & ->). reflexivity.
Qed.

Lemma Literal_mismatch c m fuel (s : text) loc :
  match skipn loc s with [] => True | d :: _ => c <> d end ->
  parse_gen false (Literal (c :: m)) fuel s loc = ParseException.
Proof.
  intros H. rewrite Literal_impl.
  destruct (skipn loc s) as [|d r]; [reflexivity|].
  now rewrite startswith_head.
Qed.

Lemma Keyword_at m fuel (s r : text) loc :
  skipn loc s = m ++ r -> m <> [] ->
  match r with [] => True | c :: _ => is_ident_char c = false end ->
  match loc with
  | 0 => True
  | S p => exists c, nth_error s p = Some c /\ is_ident_char c = false
  end ->
  parse_gen false (Keyword m) fuel s loc = Ok [VStr m] (loc + length m).
Proof.
  intros Hs Hm Hr Hp. rewrite Keyword_impl, Hs.
  rewrite startswith_app, skipn_length_app.
  replace (match r with [] => true | c0 :: _ => negb (is_ident_char c0) end)
    with true by (destruct r; [reflexivity|now rewrite Hr]).
  replace (match loc with
           | 0 => true
           | S p => match nth_error s p with
                    | Some c => negb (is_ident_char c)
                    | None => true
                    end
           end) with true
    by (destruct loc as [|p]; [reflexivity|];
        destruct Hp as (d & -> & ->); reflexivity).
  destruct (app_cons_shape r Hm) as (c & l & ->). reflexivity.
Qed.

Lemma Keyword_mismatch c m fuel (s : text) loc :
  match skipn loc s with [] => True | d :: _ => c <> d end ->
  parse_gen false (Keyword (c :: m)) fuel s loc = ParseException.
Proof.
  intros H. rewrite Keyword_impl.
  destruct (skipn loc s) as [|d r]; [reflexivity|].
  now rewrite startswith_head.
Qed.

Lemma Word_printables_at w fuel (s r : text) loc :
  skipn loc s = w ++ r -> w <> [] ->
  forallb is_printable w = true ->
  match r with [] => True | c :: _ => is_printable c = false end ->
  parse_gen false Word_printables fuel s loc = Ok [VStr w] (loc + length w).
Proof.
  intros Hs Hw Hp Hr. unfold parse_gen. cbn -[skipn take_while is_printable].
  rewrite Hs, take_while_app_stop by assumption.
  destruct w; [now destruct Hw|reflexivity].
Qed.

Lemma White_at w fuel (s r : text) loc :
  skipn loc s = w ++ r -> w <> [] ->
  forallb (fun c => mem c [sp; tab; cr; nl]) w = true ->
  starts_outside [sp; tab; cr; nl] r ->
  parse_gen false White fuel s loc = Ok [VStr w] (loc + length w).
Proof.
  intros Hs Hw Hp Hr. unfold parse_gen. cbn -[skipn take_while mem].
  rewrite Hs, take_while_app_stop;
    [|assumption|destruct r; [exact I|exact Hr]].
  destruct w; [now destruct Hw|reflexivity].
Qed.

Lemma restOfLine_at b w fuel (s r : text) loc :
  skipn loc s = w ++ r ->
  forallb (fun c => negb (Ascii.eqb c nl)) w = true ->
  line_ends r ->
  loc <= length s ->
  parse_gen b restOfLine fuel s loc = Ok [VStr w] (loc + length w).
Proof.
  intros Hs Hw Hr Hl. unfold parse_gen.
  cbn -[skipn take_while Nat.min Ascii.eqb nl].
  replace (if b then loc else loc) with loc by now destruct b.
  rewrite Nat.min_l by assumption. rewrite Hs.
  rewrite take_while_app_stop; [reflexivity|assumption|].
  destruct r as [|c r]; [exact I|]. simpl in Hr. subst c.
  now rewrite Ascii.eqb_refl.
Qed.

Lemma lineEnd_at fuel (s r : text) loc :
  skipn loc s = nl :: r ->
  parse_gen false lineEnd fuel s loc = Ok [VStr [nl]] (S loc).
Proof.
  intros Hs. apply skipn_cons_inv in Hs. destruct Hs as (Hn & Hl & _).
  unfold parse_gen. cbn -[nth_error Nat.ltb Nat.eqb Ascii.eqb nl].
  apply Nat.ltb_lt in Hl. rewrite Hl, Hn. now rewrite Ascii.eqb_refl.
Qed.

Lemma EOL_at fuel (s r : text) loc :
  skipn loc s = nl :: r -> _parse EOL fuel s loc = Ok [] (S loc).
Proof.
  intros Hs. unfold EOL. apply Suppress_intro with (t := [VStr [nl]]).
  change (_parse lineEnd fuel s loc = Ok [VStr [nl]] (S loc)).
  rewrite (@parse_no_skip lineEnd fuel s (nl :: r) loc Hs eq_refl).
  eapply lineEnd_at; eassumption.
Qed.

Lemma stringEnd_at fuel (s : text) loc :
  skipn loc s = [] -> loc <= length s ->
  _parse stringEnd fuel s loc = Ok [] (S (length s)).
Proof.
  intros Hs Hl.
  assert (loc = length s) as ->.
  { destruct (Nat.eq_dec loc (length s)) as [E|E]; [assumption|].
    assert (L : loc < length s) by lia.
    destruct (skipn loc s) eqn:E'; [|discriminate].
    apply (f_equal (@length ascii)) in E'. rewrite length_skipn in E'.
    simpl in E'. lia. }
  rewrite (@parse_no_skip stringEnd fuel s [] (length s) Hs I).
  unfold parse_gen. cbn -[Nat.ltb Nat.eqb].
  now rewrite Nat.ltb_irrefl, Nat.eqb_refl.
Qed.

(** ** The grammar on texts of a known shape *)

Lemma And_intro_eq b e1 e2 fuel s loc t1 l1 t2 l2 toks l :
  parse_gen b e1 fuel s loc = Ok t1 l1 ->
  _parse e2 fuel s l1 = Ok t2 l2 ->
  toks = t1 ++ t2 -> l = l2 ->
  parse_gen b (And e1 e2) fuel s loc = Ok toks l.
Proof. intros H1 H2 -> ->. eapply And_intro; eassumption. Qed.

Lemma printable_not_white (c : ascii) :
  is_printable c = true -> mem c DEFAULT_WHITE_CHARS = false.
Proof.
  destruct c as [[] [] [] [] [] [] [] []]; vm_compute; congruence.
Qed.

Lemma printable_not_line_white (c : ascii) :
  is_printable c = true -> mem c [sp; tab; cr] = false.
Proof.
  destruct c as [[] [] [] [] [] [] [] []]; vm_compute; congruence.
Qed.

Lemma tag_name_starts (n r : text) :
  tag_name n -> starts_outside DEFAULT_WHITE_CHARS (n ++ r).
Proof.
  intros [Hne Hp]. destruct n as [|c n]; [now destruct Hne|].
  simpl in *. apply andb_prop in Hp. now apply printable_not_white.
Qed.

(** A tag line is a tag. *)
Lemma TAG_line fuel (s n r : text) loc :
  skipn loc s = "@"%char :: n ++ nl :: r ->
  tag_name n ->
  _parse TAG fuel s loc = Ok [tag_object n] (loc + length n + 2).
Proof.
  intros Hs Hn.
  assert (Hs1 : skipn (loc + 1) s = n ++ nl :: r)
    by (apply (@skipn_app_inv s ["@"%char]); exact Hs).
  assert (Hs2 : skipn (loc + 1 + length n) s = nl :: r)
    by (apply skipn_app_inv; exact Hs1).
  unfold TAG, _parse.
  apply (@setParseAction_intro true _ Tag fuel s loc [VStr n]
           (loc + length n + 2) (tag_object n));
    [reflexivity| |reflexivity|reflexivity].
  eapply And_intro_eq with (t1 := [VStr n]) (t2 := [])
                           (l1 := loc + 1 + length n);
    [|eapply EOL_at; exact Hs2|reflexivity|lia].
  eapply And_intro_eq with (t1 := []) (t2 := [VStr n]) (l1 := loc + 1);
    [| |reflexivity|reflexivity].
  - apply Suppress_intro with (t := [VStr (str "@")]).
    change (_parse (Literal (str "@")) fuel s loc
            = Ok [VStr (str "@")] (loc + 1)).
    rewrite (@parse_no_skip (Literal (str "@")) fuel s _ loc Hs eq_refl).
    apply (@Literal_at (str "@") fuel s (n ++ nl :: r) loc Hs).
    discriminate.
  - rewrite (@parse_no_skip Word_printables fuel s _ (loc + 1) Hs1
               (tag_name_starts (nl :: r) Hn)).
    destruct Hn as [Hne Hp].
    apply Word_printables_at with (r := nl :: r); auto.
Qed.

(** What is not a tag line is not a tag. *)
Lemma TAG_mismatch fuel (s : text) loc c r :
  skipn loc s = c :: r ->
  mem c DEFAULT_WHITE_CHARS = false -> c <> "@"%char ->
  _parse TAG fuel s loc = ParseException.
Proof.
  intros Hs Hw Hc. unfold TAG, _parse.
  apply setParseAction_fail; [reflexivity|].
  apply And_fail, And_fail, Suppress_fail.
  change (_parse (Literal (str "@")) fuel s loc = ParseException).
  rewrite (@parse_no_skip (Literal (str "@")) fuel s _ loc Hs Hw).
  apply Literal_mismatch. rewrite Hs. congruence.
Qed.

Lemma skipn_app_bound (s a r : text) loc :
  skipn loc s = a ++ r -> loc <= length s -> loc + length a <= length s.
Proof.
  revert loc. induction a as [|c a IH]; intros loc H Hl; simpl in *; [lia|].
  apply skipn_cons_inv in H. destruct H as (_ & Hlt & H).
  apply IH in H; lia.
Qed.

(** The tag lines of a list of names, as a chain of matches; the last of
    them ends with a newline. *)
Lemma tag_text_chain fuel (s : text) names :
  Forall tag_name names ->
  forall loc r,
    skipn loc s = tag_text names ++ r ->
    exists ms,
      chain TAG fuel s loc ms (loc + length (tag_text names))
      /\ chain_tokens ms = map tag_object names
      /\ length ms = length names
      /\ (names <> [] ->
          nth_error s (loc + length (tag_text names) - 1) = Some nl).
Proof.
  induction 1 as [|n names Hn _ IH]; intros loc r Hs.
  - exists []. simpl. rewrite Nat.add_0_r. repeat split; [constructor|].
    congruence.
  - cbn [tag_text flat_map] in Hs.
    change (flat_map (fun n0 => "@"%char :: n0 ++ [nl]) names)
      with (tag_text names) in Hs.
    assert (Hs' : skipn loc s
                  = "@"%char :: n ++ nl :: (tag_text names ++ r)).
    { rewrite Hs. simpl. f_equal. rewrite <- !app_assoc. reflexivity. }
    pose proof (@TAG_line fuel s n _ loc Hs' Hn) as Ht.
    assert (Hnl : skipn (loc + 1 + length n) s = nl :: tag_text names ++ r).
    { apply skipn_app_inv. apply (@skipn_app_inv s ["@"%char]). exact Hs'. }
    assert (Hs2 : skipn (loc + length n + 2) s = tag_text names ++ r).
    { apply skipn_cons_inv in Hnl. destruct Hnl as (_ & _ & Hnl).
      replace (loc + length n + 2) with (S (loc + 1 + length n)) by lia.
      exact Hnl. }
    assert (Hlen : length (tag_text (n :: names))
                   = length n + 2 + length (tag_text names)).
    { cbn [tag_text flat_map]. simpl. rewrite !length_app. simpl.
      unfold tag_text. lia. }
    destruct (IH _ _ Hs2) as (ms & Hc & Htok & Hms & Hlast).
    exists (([tag_object n], loc, loc + length n + 2) :: ms).
    repeat split.
    + econstructor; [exact Ht|].
      replace (loc + length (tag_text (n :: names)))
        with (loc + length n + 2 + length (tag_text names)) by lia.
      exact Hc.
    + unfold chain_tokens in *. simpl. now rewrite Htok.
    + simpl. now rewrite Hms.
    + intros _. rewrite Hlen. destruct names as [|n' names'].
      * simpl. apply skipn_cons_inv in Hnl. destruct Hnl as (Hnl & _).
        replace (loc + (length n + 2 + 0) - 1) with (loc + 1 + length n)
          by lia.
        exact Hnl.
      * replace (loc + (length n + 2 + length (tag_text (n' :: names'))) - 1)
          with (loc + length n + 2 + length (tag_text (n' :: names')) - 1)
          by lia.
        apply Hlast. discriminate.
Qed.

(** The keyword of the header, the colon right behind it and the blanks
    that follow. *)
Lemma FEATURE_KEYWORD_at fuel (s w r : text) loc :
  skipn loc s = str "Feature:" ++ w ++ r ->
  blank w -> starts_black r ->
  match loc with
  | 0 => True
  | S p => exists c, nth_error s p = Some c /\ is_ident_char c = false
  end ->
  _parse FEATURE_KEYWORD fuel s loc = Ok [] (loc + 8 + length w).
Proof.
  intros Hs [Hw Hb] Hr Hp.
  assert (Hs1 : skipn (loc + 7) s = ":"%char :: w ++ r)
    by (apply (@skipn_app_inv s (str "Feature")); exact Hs).
  assert (Hs2 : skipn (loc + 7 + 1) s = w ++ r)
    by (apply (@skipn_app_inv s [":"%char]); exact Hs1).
  unfold FEATURE_KEYWORD, _parse.
  apply Suppress_intro
    with (t := [VStr (str "Feature"); VStr (str ":"); VStr w]).
  eapply And_intro_eq with (l1 := loc + 7 + 1) (t2 := [VStr w])
                           (t1 := [VStr (str "Feature"); VStr (str ":")]);
    [| |reflexivity|].
  - eapply And_intro_eq with (l1 := loc + 7) (t1 := [VStr (str "Feature")])
                             (t2 := [VStr (str ":")]);
      [| |reflexivity|reflexivity].
    + change (_parse (Keyword (str "Feature")) fuel s loc
              = Ok [VStr (str "Feature")] (loc + 7)).
      rewrite (@parse_no_skip (Keyword (str "Feature")) fuel s _ loc Hs
                 eq_refl).
      apply (@Keyword_at (str "Feature") fuel s (":"%char :: w ++ r) loc Hs);
        [discriminate|reflexivity|exact Hp].
    + rewrite (@parse_no_skip (Literal (str ":")) fuel s _ (loc + 7) Hs1
                 eq_refl).
      apply (@Literal_at (str ":") fuel s (w ++ r) (loc + 7) Hs1).
      discriminate.
  - rewrite (@parse_no_skip White fuel s (w ++ r) (loc + 7 + 1) Hs2).
    + apply White_at with (r := r); assumption.
    + destruct (w ++ r); [exact I|reflexivity].
  - lia.
Qed.

(** A header: tag lines, [Feature:], blanks, and the name up to the end of
    its line. *)
Lemma FEATURE_DEFN_text fuel (names : list text) (w name r : text) :
  Forall tag_name names ->
  blank w -> starts_black (name ++ r) -> one_line name -> line_ends r ->
  length names <= fuel ->
  _parse FEATURE_DEFN fuel
    (tag_text names ++ str "Feature:" ++ w ++ name ++ r) 0
  = Ok [feature_object (map tag_object names) name]
       (length (tag_text names) + 8 + length w + length name).
Proof.
  intros Hnames Hw Hname Hline Hr Hfuel.
  set (s := tag_text names ++ str "Feature:" ++ w ++ name ++ r).
  assert (Hs0 : skipn 0 s
                = tag_text names ++ (str "Feature:" ++ w ++ name ++ r))
    by reflexivity.
  destruct (@tag_text_chain fuel s names Hnames 0 _ Hs0)
    as (ms & Hc & Htok & Hms & Hlast).
  simpl in Hc, Hlast.
  set (l1 := length (tag_text names)) in *.
  assert (Hs1 : skipn l1 s = str "Feature:" ++ w ++ (name ++ r)).
  { apply skipn_app_inv in Hs0. exact Hs0. }
  assert (Hend : _parse TAG fuel s l1 = ParseException).
  { apply TAG_mismatch
      with (c := "F"%char) (r := str "eature:" ++ w ++ name ++ r);
      [exact Hs1|reflexivity|discriminate]. }
  assert (Hfuel' : length ms <= fuel) by (rewrite Hms; exact Hfuel).
  pose proof (@ZeroOrMore_intro TAG fuel s 0 ms l1 Hc Hend Hfuel') as Hz.
  assert (Hstart : match ms with [] => preParse TAG s 0 | _ :: _ => l1 end
                   = l1).
  { destruct ms as [|m ms']; [|reflexivity].
    destruct names; [|discriminate]. unfold l1. simpl.
    apply (@skip_white_none DEFAULT_WHITE_CHARS s _ 0 Hs1). reflexivity. }
  rewrite Hstart, Htok in Hz.
  assert (Hk : _parse FEATURE_KEYWORD fuel s l1 = Ok [] (l1 + 8 + length w)).
  { apply FEATURE_KEYWORD_at with (r := name ++ r);
      [exact Hs1|exact Hw|exact Hname|].
    destruct l1 as [|p] eqn:El; [exact I|].
    exists nl. split; [|reflexivity].
    assert (Hne : names <> []) by (intros ->; discriminate).
    specialize (Hlast Hne). simpl in Hlast.
    now rewrite Nat.sub_0_r in Hlast. }
  assert (Hs2 : skipn (l1 + 8 + length w) s = name ++ r).
  { apply skipn_app_inv. apply (@skipn_app_inv s (str "Feature:")).
    exact Hs1. }
  assert (Hbound : l1 + 8 + length w <= length s).
  { apply skipn_app_bound with (r := name ++ r).
    - apply (@skipn_app_inv s (str "Feature:")). exact Hs1.
    - apply skipn_app_bound with (r := w ++ name ++ r) (a := str "Feature:");
        [exact Hs1|].
      unfold l1, s. rewrite length_app. lia. }
  unfold FEATURE_DEFN, _parse.
  replace [feature_object (map tag_object names) name]
    with (as_tokens (feature_object (map tag_object names) name))
    by reflexivity.
  apply (@setParseAction_intro true _ Feature fuel s 0
           (map tag_object names ++ [VStr name]));
    [reflexivity| |apply Feature_of_tags|reflexivity].
  eapply And_intro_eq with (l1 := l1 + 8 + length w)
                           (t1 := map tag_object names) (t2 := [VStr name]);
    [| |reflexivity|reflexivity].
  - eapply And_intro_eq with (l1 := l1) (t1 := map tag_object names)
                             (t2 := []);
      [exact Hz|exact Hk|now rewrite app_nil_r|reflexivity].
  - apply (@restOfLine_at true name fuel s r _ Hs2 Hline Hr Hbound).
Qed.

(** *** Rows *)

Lemma CharsNotIn_at b notChars w fuel (s r : text) loc :
  skipn loc s = w ++ r -> w <> [] ->
  forallb (fun c => negb (mem c notChars)) w = true ->
  match r with [] => True | c :: _ => mem c notChars = true end ->
  parse_gen b (CharsNotIn notChars) fuel s loc = Ok [VStr w] (loc + length w).
Proof.
  intros Hs Hw Hp Hr. unfold parse_gen. cbn -[skipn take_while mem].
  replace (if b then loc else loc) with loc by now destruct b.
  rewrite Hs, take_while_app_stop; [|assumption|].
  - destruct w; [now destruct Hw|reflexivity].
  - destruct r as [|c r]; [exact I|]. now rewrite Hr.
Qed.

Lemma CharsNotIn_stop b notChars fuel (s : text) loc :
  match skipn loc s with [] => True | c :: _ => mem c notChars = true end ->
  parse_gen b (CharsNotIn notChars) fuel s loc = ParseException.
Proof.
  intros H. unfold parse_gen. cbn -[skipn take_while mem].
  replace (if b then loc else loc) with loc by now destruct b.
  destruct (skipn loc s) as [|c r]; [reflexivity|].
  simpl. now rewrite H.
Qed.

(** One cell and its bar. *)
Lemma TABLE_CELL_at fuel (s c r : text) loc :
  skipn loc s = c ++ "|"%char :: r ->
  cell_text c ->
  _parse TABLE_CELL fuel s loc = Ok [VStr c] (loc + length c + 1).
Proof.
  intros Hs [Hne Hc].
  assert (Hs1 : skipn (loc + length c) s = "|"%char :: r)
    by (apply skipn_app_inv; exact Hs).
  unfold TABLE_CELL, _parse.
  eapply And_intro_eq with (t1 := [VStr c]) (t2 := [])
                           (l1 := loc + length c);
    [| |reflexivity|reflexivity].
  - apply CharsNotIn_at with (r := "|"%char :: r); auto.
  - apply Suppress_intro with (t := [VStr (str "|")]).
    change (_parse (Literal (str "|")) fuel s (loc + length c)
            = Ok [VStr (str "|")] (loc + length c + 1)).
    rewrite (@parse_no_skip (Literal (str "|")) fuel s _ _ Hs1 eq_refl).
    apply (@Literal_at (str "|") fuel s r _ Hs1). discriminate.
Qed.

Lemma TABLE_CELL_stop fuel (s : text) loc :
  match skipn loc s with
  | [] => True
  | c :: _ => mem c [ "|"%char; nl ] = true
  end ->
  _parse TABLE_CELL fuel s loc = ParseException.
Proof.
  intros H. unfold TABLE_CELL, _parse. apply And_fail.
  now apply CharsNotIn_stop.
Qed.

Lemma cells_chain fuel (s : text) cells :
  Forall cell_text cells ->
  forall loc r,
    skipn loc s = cells_text cells ++ r ->
    exists ms,
      chain TABLE_CELL fuel s loc ms (loc + length (cells_text cells))
      /\ chain_tokens ms = map VStr cells
      /\ length ms = length cells.
Proof.
  induction 1 as [|c cells Hc _ IH]; intros loc r Hs.
  - exists []. simpl. rewrite Nat.add_0_r. repeat split. constructor.
  - assert (Hs' : skipn loc s = c ++ "|"%char :: (cells_text cells ++ r)).
    { rewrite Hs. unfold cells_text. simpl. now rewrite <- !app_assoc. }
    pose proof (@TABLE_CELL_at fuel s c _ loc Hs' Hc) as Ht.
    assert (Hs2 : skipn (loc + length c + 1) s = cells_text cells ++ r).
    { apply (@skipn_app_inv s ["|"%char]). apply skipn_app_inv. exact Hs'. }
    destruct (IH _ _ Hs2) as (ms & Hch & Htok & Hlen).
    exists (([VStr c], loc, loc + length c + 1) :: ms). repeat split.
    + econstructor; [exact Ht|].
      replace (loc + length (cells_text (c :: cells)))
        with (loc + length c + 1 + length (cells_text cells)); [exact Hch|].
      unfold cells_text. simpl. rewrite !length_app. simpl. lia.
    + unfold chain_tokens in *. simpl. now rewrite Htok.
    + simpl. now rewrite Hlen.
Qed.

Lemma strip_all_cells (cells : list text) :
  strip_all (map VStr cells)
  = Some (VResults (map (fun c => VStr (strip c)) cells)).
Proof.
  unfold strip_all.
  match goal with |- context [?g (map VStr cells)] => set (go := g) end.
  assert (G : go (map VStr cells)
              = Some (map (fun c => VStr (strip c)) cells)).
  { induction cells as [|c cells IH]; [reflexivity|].
    simpl. now rewrite IH. }
  now rewrite G.
Qed.

(** A row of cells between bars, closed by a newline: the cells come back
    stripped, in their order. *)
Lemma TABLE_ROW_text fuel (s r : text) cells loc :
  skipn loc s = row_text cells ++ nl :: r ->
  cells <> [] -> Forall cell_text cells ->
  length cells <= fuel ->
  _parse TABLE_ROW fuel s loc
  = Ok (map (fun c => VStr (strip c)) cells)
       (loc + length (row_text cells) + 1).
Proof.
  intros Hs Hne Hcells Hfuel.
  assert (Hs1 : skipn (loc + 1) s = cells_text cells ++ nl :: r)
    by (apply (@skipn_app_inv s ["|"%char]); exact Hs).
  destruct (@cells_chain fuel s cells Hcells (loc + 1) _ Hs1)
    as (ms & Hc & Htok & Hlen).
  set (l2 := loc + 1 + length (cells_text cells)) in *.
  assert (Hs2 : skipn l2 s = nl :: r) by (apply skipn_app_inv; exact Hs1).
  assert (Hend : _parse TABLE_CELL fuel s l2 = ParseException)
    by (apply TABLE_CELL_stop; rewrite Hs2; reflexivity).
  assert (Hmany : _parse (OneOrMore TABLE_CELL) fuel s (loc + 1)
                  = Ok (map VStr cells) l2).
  { destruct ms as [|m ms].
    - destruct cells; [now destruct Hne|discriminate].
    - rewrite <- Htok.
      apply OneOrMore_intro; [exact Hc|exact Hend|].
      rewrite Hlen. exact Hfuel. }
  unfold TABLE_ROW, _parse.
  replace (map (fun c => VStr (strip c)) cells)
    with (as_tokens (VResults (map (fun c => VStr (strip c)) cells)))
    by reflexivity.
  apply (@setParseAction_intro true _ strip_all fuel s loc (map VStr cells));
    [reflexivity| |apply strip_all_cells|].
  - eapply And_intro_eq with (t1 := map VStr cells) (t2 := []) (l1 := l2);
      [|eapply EOL_at; exact Hs2|now rewrite app_nil_r|].
    + eapply And_intro_eq with (t1 := []) (t2 := map VStr cells)
                               (l1 := loc + 1);
        [|exact Hmany|reflexivity|reflexivity].
      apply Suppress_intro with (t := [VStr (str "|")]).
      change (_parse (Literal (str "|")) fuel s loc
              = Ok [VStr (str "|")] (loc + 1)).
      rewrite (@parse_no_skip (Literal (str "|")) fuel s _ loc Hs eq_refl).
      apply (@Literal_at (str "|") fuel s _ loc Hs). discriminate.
    + unfold l2, row_text, cells_text. simpl. lia.
  - destruct cells; [now destruct Hne|reflexivity].
Qed.

(** *** Statements *)

Lemma MatchFirst_at b e1 e2 fuel (s : text) loc :
  starts_outside DEFAULT_WHITE_CHARS (skipn loc s) ->
  parse_gen b (MatchFirst e1 e2) fuel s loc
  = match _parse e1 fuel s loc with
    | ParseException => _parse e2 fuel s loc
    | r => r
    end.
Proof.
  intros H.
  assert (Hstart : (if b then preParse (MatchFirst e1 e2) s loc else loc)
                   = loc).
  { destruct b; [|reflexivity].
    apply (@skip_white_none DEFAULT_WHITE_CHARS s _ loc eq_refl H). }
  unfold parse_gen at 1. rewrite Hstart. cbn -[parse_gen _parse].
  now destruct (_parse e1 fuel s loc); destruct (_parse e2 fuel s loc).
Qed.

Lemma keywords_start (kw r : text) :
  In kw keywords -> starts_outside DEFAULT_WHITE_CHARS (kw ++ r).
Proof.
  unfold keywords. simpl.
  intros [<-|[<-|[<-|[<-|[]]]]]; reflexivity.
Qed.

Lemma keywords_no_bar (kw r : text) :
  In kw keywords -> no_table (kw ++ r).
Proof.
  unfold keywords. simpl.
  intros [<-|[<-|[<-|[<-|[]]]]]; (split; [reflexivity|discriminate]).
Qed.

Lemma keywords_nonempty (kw : text) : In kw keywords -> kw <> [].
Proof.
  unfold keywords. simpl.
  intros [<-|[<-|[<-|[<-|[]]]]]; discriminate.
Qed.

Lemma Keyword_other m fuel (s : text) loc :
  m <> [] ->
  match skipn loc s with
  | [] => True
  | d :: _ => hd_error m <> Some d
  end ->
  parse_gen false (Keyword m) fuel s loc = ParseException.
Proof.
  intros Hm H. rewrite Keyword_impl.
  destruct (skipn loc s) as [|d r]; [reflexivity|].
  destruct m as [|c m]; [now destruct Hm|]. simpl in *.
  assert (c <> d) as Hc by congruence.
  apply Ascii.eqb_neq in Hc. now rewrite Hc.
Qed.

(** The keyword of a step. *)
Lemma keyword_choice_at b fuel (s kw r : text) loc :
  In kw keywords ->
  skipn loc s = kw ++ r -> starts_apart r -> apart_before s loc ->
  parse_gen b
    (MatchFirst
       (MatchFirst (MatchFirst (Keyword (str "Given")) (Keyword (str "When")))
                   (Keyword (str "Then")))
       (Keyword (str "And")))
    fuel s loc = Ok [VStr kw] (loc + length kw).
Proof.
  intros Hk Hs Hr Hp.
  assert (Hout : starts_outside DEFAULT_WHITE_CHARS (skipn loc s))
    by (rewrite Hs; now apply keywords_start).
  assert (Hno : forall m, _parse (Keyword m) fuel s loc
                          = parse_gen false (Keyword m) fuel s loc).
  { intros m. apply (@parse_no_skip (Keyword m) fuel s _ loc eq_refl Hout). }
  assert (Hok : parse_gen false (Keyword kw) fuel s loc
                = Ok [VStr kw] (loc + length kw)).
  { apply Keyword_at with (r := r); auto. now apply keywords_nonempty. }
  rewrite MatchFirst_at by assumption.
  rewrite (@MatchFirst_at true) by assumption.
  rewrite (@MatchFirst_at true) by assumption.
  rewrite !Hno.
  unfold keywords in Hk. cbn [In] in Hk.
  destruct Hk as [<-|[<-|[<-|[<-|[]]]]].
  - now rewrite Hok.
  - rewrite (@Keyword_other (str "Given") fuel s loc)
      by (try discriminate; rewrite Hs; simpl; congruence).
    now rewrite Hok.
  - rewrite (@Keyword_other (str "Given") fuel s loc)
      by (try discriminate; rewrite Hs; simpl; congruence).
    rewrite (@Keyword_other (str "When") fuel s loc)
      by (try discriminate; rewrite Hs; simpl; congruence).
    now rewrite Hok.
  - rewrite (@Keyword_other (str "Given") fuel s loc)
      by (try discriminate; rewrite Hs; simpl; congruence).
    rewrite (@Keyword_other (str "When") fuel s loc)
      by (try discriminate; rewrite Hs; simpl; congruence).
    rewrite (@Keyword_other (str "Then") fuel s loc)
      by (try discriminate; rewrite Hs; simpl; congruence).
    now rewrite Hok.
Qed.

(** No keyword where the text does not begin with one of their first
    letters. *)
Lemma keyword_choice_mismatch b fuel (s : text) loc :
  match skipn loc s with
  | [] => True
  | c :: _ => mem c DEFAULT_WHITE_CHARS = false
              /\ ~ In c [ "G"%char; "W"%char; "T"%char; "A"%char ]
  end ->
  parse_gen b
    (MatchFirst
       (MatchFirst (MatchFirst (Keyword (str "Given")) (Keyword (str "When")))
                   (Keyword (str "Then")))
       (Keyword (str "And")))
    fuel s loc = ParseException.
Proof.
  intros H.
  assert (Hout : starts_outside DEFAULT_WHITE_CHARS (skipn loc s))
    by (destruct (skipn loc s); [exact I|apply H]).
  assert (Hno : forall m, _parse (Keyword m) fuel s loc
                          = parse_gen false (Keyword m) fuel s loc).
  { intros m. apply (@parse_no_skip (Keyword m) fuel s _ loc eq_refl Hout). }
  assert (Hoff : forall m,
            In m keywords ->
            parse_gen false (Keyword m) fuel s loc = ParseException).
  { intros m Hm. apply Keyword_other; [now apply keywords_nonempty|].
    destruct (skipn loc s) as [|d r]; [exact I|]. destruct H as [_ H].
    unfold keywords in Hm. cbn [In] in Hm.
    destruct Hm as [<-|[<-|[<-|[<-|[]]]]]; simpl; intros E;
      injection E as <-; apply H; simpl; auto. }
  rewrite MatchFirst_at by assumption.
  rewrite (@MatchFirst_at true) by assumption.
  rewrite (@MatchFirst_at true) by assumption.
  rewrite !Hno.
  rewrite !Hoff by (unfold keywords; simpl; auto).
  reflexivity.
Qed.

Lemma skipn_nonempty_bound (s a r : text) loc c :
  skipn loc s = a ++ c :: r -> loc + length a < length s.
Proof.
  intros H. apply skipn_app_inv in H. apply skipn_cons_inv in H. tauto.
Qed.

Lemma STATEMENT_sentence_at b fuel (s kw rest r : text) loc :
  In kw keywords ->
  skipn loc s = kw ++ rest ++ nl :: r ->
  starts_apart rest -> one_line rest -> apart_before s loc ->
  parse_gen b STATEMENT_sentence fuel s loc
  = Ok [VStr kw; VStr rest] (loc + length kw + length rest).
Proof.
  intros Hk Hs Hrest Hline Hp.
  assert (Hs1 : skipn (loc + length kw) s = rest ++ nl :: r)
    by (apply skipn_app_inv; exact Hs).
  unfold STATEMENT_sentence.
  eapply And_intro_eq with (t1 := [VStr kw]) (t2 := [VStr rest])
                           (l1 := loc + length kw);
    [| |reflexivity|reflexivity].
  - apply keyword_choice_at with (r := rest ++ nl :: r); auto.
    destruct rest; [reflexivity|exact Hrest].
  - apply (@restOfLine_at true rest fuel s (nl :: r) _ Hs1 Hline eq_refl).
    apply skipn_nonempty_bound in Hs1. lia.
Qed.

(** Where no bar follows the blanks there is no table. *)
Lemma TABLE_mismatch fuel (s w r : text) loc :
  skipn loc s = w ++ r ->
  forallb (fun c => mem c DEFAULT_WHITE_CHARS) w = true ->
  no_table r ->
  _parse TABLE fuel s loc = ParseException.
Proof.
  intros Hs Hw Hr. unfold TABLE, setResultsName, _parse.
  apply Group_fail, OneOrMore_fail, Group_fail.
  apply setParseAction_fail; [reflexivity|].
  apply And_fail, And_fail, Suppress_fail.
  change (_parse (Literal (str "|")) fuel s loc = ParseException).
  rewrite (@parse_skip (Literal (str "|")) fuel s w r loc eq_refl Hs Hw).
  - apply Literal_mismatch. apply skipn_app_inv in Hs. rewrite Hs.
    destruct r as [|c r]; [exact I|]. destruct Hr as [_ Hr]. congruence.
  - destruct r as [|c r]; [exact I|]. apply Hr.
Qed.

(** A step on a line of its own, with no table behind it: the statement is
    the line as it stands, from the keyword to the end of the line. *)
Lemma STATEMENT_plain_at fuel (s kw rest r : text) loc :
  In kw keywords ->
  skipn loc s = kw ++ rest ++ nl :: r ->
  starts_apart rest -> one_line rest -> apart_before s loc ->
  no_table r ->
  _parse STATEMENT fuel s loc
  = Ok [plain_statement (kw ++ rest)] (loc + length kw + length rest + 1).
Proof.
  intros Hk Hs Hrest Hline Hp Hr.
  set (l1 := loc + length kw + length rest).
  assert (Hs1 : skipn l1 s = [nl] ++ r).
  { unfold l1. apply skipn_app_inv. apply skipn_app_inv. exact Hs. }
  assert (Hnot : _parse TABLE fuel s l1 = ParseException)
    by (apply (@TABLE_mismatch fuel s [nl] r l1 Hs1 eq_refl Hr)).
  unfold STATEMENT, _parse.
  replace [plain_statement (kw ++ rest)]
    with (as_tokens (plain_statement (kw ++ rest))) by reflexivity.
  apply (@setParseAction_intro true _ Statement fuel s loc
           [VStr kw; VStr rest]);
    [reflexivity| |reflexivity|reflexivity].
  eapply And_intro_eq with (t1 := [VStr kw; VStr rest]) (t2 := []) (l1 := l1);
    [| |reflexivity|].
  - apply STATEMENT_sentence_at with (r := r); assumption.
  - apply Optional_none. exact Hnot.
  - unfold start_of, preParse. cbn [skipWhitespace whiteChars TABLE
      setResultsName Group OneOrMore TABLE_ROW setParseAction And Suppress
      enhance Literal token_element].
    rewrite (@skip_white_at DEFAULT_WHITE_CHARS s [nl] r l1 Hs1 eq_refl).
    + simpl. lia.
    + destruct r as [|c r]; [exact I|]. apply Hr.
Qed.

(** *** Blocks *)

Lemma STATEMENT_mismatch fuel (s : text) loc :
  ends_block (skipn loc s) ->
  _parse STATEMENT fuel s loc = ParseException.
Proof.
  intros H. unfold STATEMENT, _parse.
  apply setParseAction_fail; [reflexivity|].
  apply And_fail. unfold STATEMENT_sentence. apply And_fail.
  apply keyword_choice_mismatch.
  destruct (skipn loc s) as [|c r]; [exact I|].
  destruct H as [Hw Hc]. split; [exact Hw|].
  intros Hin. apply Hc. simpl in *. tauto.
Qed.

Lemma ends_block_no_table (tail : text) : ends_block tail -> no_table tail.
Proof.
  destruct tail as [|c r]; [trivial|]. intros [Hw Hc].
  split; [exact Hw|]. intros ->. apply Hc. simpl. tauto.
Qed.

(** Steps one to a line, as a chain of matches. *)
Lemma steps_chain fuel (s : text) steps :
  Forall step_text steps ->
  forall loc tail,
    skipn loc s = steps_text steps ++ tail ->
    apart_before s loc -> ends_block tail ->
    exists ms,
      chain STATEMENT fuel s loc ms (loc + length (steps_text steps))
      /\ chain_tokens ms
         = map (fun st => plain_statement (sentence st)) steps
      /\ length ms = length steps.
Proof.
  induction 1 as [|[kw rest] steps (Hk & Ha & Hl) Hrest IH];
    intros loc tail Hs Hp Htail.
  - exists []. simpl. rewrite Nat.add_0_r. repeat split. constructor.
  - cbn [fst snd] in *.
    assert (Hs' : skipn loc s
                  = kw ++ rest ++ nl :: (steps_text steps ++ tail)).
    { rewrite Hs. unfold steps_text, sentence. simpl.
      now rewrite <- !app_assoc. }
    assert (Hnot : no_table (steps_text steps ++ tail)).
    { destruct steps as [|[kw' rest'] steps'].
      - simpl. now apply ends_block_no_table.
      - apply Forall_inv in Hrest. destruct Hrest as (Hk' & _).
        unfold steps_text, sentence. simpl. rewrite <- !app_assoc.
        now apply keywords_no_bar. }
    pose proof (@STATEMENT_plain_at fuel s kw rest _ loc Hk Hs' Ha Hl Hp Hnot)
      as Ht.
    set (l1 := loc + length kw + length rest + 1) in *.
    assert (Hnl : skipn (loc + length kw + length rest) s
                  = nl :: steps_text steps ++ tail).
    { apply skipn_app_inv. apply skipn_app_inv. exact Hs'. }
    assert (Hs2 : skipn l1 s = steps_text steps ++ tail).
    { unfold l1. apply (@skipn_app_inv s [nl]). exact Hnl. }
    assert (Hp2 : apart_before s l1).
    { unfold l1. rewrite Nat.add_1_r. simpl. exists nl.
      apply skipn_cons_inv in Hnl. split; [apply Hnl|reflexivity]. }
    destruct (IH l1 tail Hs2 Hp2 Htail) as (ms & Hc & Htok & Hlen).
    exists (([plain_statement (kw ++ rest)], loc, l1) :: ms). repeat split.
    + econstructor; [exact Ht|].
      replace (loc + length (steps_text ((kw, rest) :: steps)))
        with (l1 + length (steps_text steps)); [exact Hc|].
      unfold l1, steps_text, sentence. simpl. rewrite !length_app. simpl.
      lia.
    + unfold chain_tokens in *. simpl. now rewrite Htok.
    + simpl. now rewrite Hlen.
Qed.

Lemma plain_statements_are_statements (steps : list (text * text)) :
  forallb (fun token => isinstance token KStatement)
    (map (fun st => plain_statement (sentence st)) steps) = true.
Proof. induction steps; simpl; auto. Qed.

Lemma BACKGROUND_DEFN_at fuel (s r : text) loc :
  skipn loc s = str "Background:" ++ nl :: r ->
  apart_before s loc ->
  _parse BACKGROUND_DEFN fuel s loc = Ok [Block_init KBackground] (loc + 12).
Proof.
  intros Hs Hp.
  assert (Hs1 : skipn (loc + 10) s = ":"%char :: nl :: r)
    by (apply (@skipn_app_inv s (str "Background")); exact Hs).
  assert (Hs2 : skipn (loc + 10 + 1) s = nl :: r)
    by (apply (@skipn_app_inv s [":"%char]); exact Hs1).
  unfold BACKGROUND_DEFN, _parse.
  replace [Block_init KBackground]
    with (as_tokens (Block_init KBackground)) by reflexivity.
  apply (@setParseAction_intro true _ Background fuel s loc []);
    [reflexivity| |reflexivity|reflexivity].
  apply Suppress_intro
    with (t := [VStr (str "Background"); VStr (str ":")]).
  eapply And_intro_eq with (l1 := loc + 10 + 1) (t2 := [])
                           (t1 := [VStr (str "Background"); VStr (str ":")]);
    [|eapply EOL_at; exact Hs2|reflexivity|lia].
  eapply And_intro_eq with (l1 := loc + 10)
                           (t1 := [VStr (str "Background")])
                           (t2 := [VStr (str ":")]);
    [| |reflexivity|reflexivity].
  - change (_parse (Keyword (str "Background")) fuel s loc
            = Ok [VStr (str "Background")] (loc + 10)).
    rewrite (@parse_no_skip (Keyword (str "Background")) fuel s _ loc Hs
               eq_refl).
    apply (@Keyword_at (str "Background") fuel s (":"%char :: nl :: r) loc
             Hs); [discriminate|reflexivity|exact Hp].
  - rewrite (@parse_no_skip (Literal (str ":")) fuel s _ (loc + 10) Hs1
               eq_refl).
    apply (@Literal_at (str ":") fuel s (nl :: r) (loc + 10) Hs1).
    discriminate.
Qed.

(** A background and its steps. *)
Lemma BACKGROUND_text fuel (s tail : text) steps loc :
  skipn loc s = str "Background:" ++ nl :: steps_text steps ++ tail ->
  apart_before s loc ->
  Forall step_text steps -> ends_block tail ->
  length steps <= fuel ->
  _parse BACKGROUND fuel s loc
  = Ok [background_object
          (map (fun st => plain_statement (sentence st)) steps)]
       (loc + 12 + length (steps_text steps)).
Proof.
  intros Hs Hp Hsteps Htail Hfuel.
  pose proof (@BACKGROUND_DEFN_at fuel s _ loc Hs Hp) as Hd.
  assert (Hs1 : skipn (loc + 12) s = steps_text steps ++ tail).
  { replace (loc + 12) with (loc + length (str "Background:" ++ [nl]))
      by reflexivity.
    apply skipn_app_inv. rewrite Hs. now rewrite <- !app_assoc. }
  assert (Hp1 : apart_before s (loc + 12)).
  { replace (loc + 12) with (S (loc + 11)) by lia. exists nl.
    split; [|reflexivity].
    assert (H : skipn (loc + 11) s = nl :: steps_text steps ++ tail)
      by (apply (@skipn_app_inv s (str "Background:")); exact Hs).
    apply skipn_cons_inv in H. apply H. }
  destruct (@steps_chain fuel s steps Hsteps (loc + 12) tail Hs1 Hp1 Htail)
    as (ms & Hc & Htok & Hlen).
  set (l2 := loc + 12 + length (steps_text steps)) in *.
  assert (Hs2 : skipn l2 s = tail) by (apply skipn_app_inv; exact Hs1).
  assert (Hend : _parse STATEMENT fuel s l2 = ParseException)
    by (apply STATEMENT_mismatch; now rewrite Hs2).
  assert (Hfuel' : length ms <= fuel) by (rewrite Hlen; exact Hfuel).
  pose proof (@ZeroOrMore_intro STATEMENT fuel s (loc + 12) ms l2 Hc Hend
                Hfuel') as Hz.
  assert (Hstart : match ms with
                   | [] => preParse STATEMENT s (loc + 12)
                   | _ :: _ => l2
                   end = l2).
  { destruct ms as [|m ms']; [|reflexivity].
    destruct steps; [|discriminate]. unfold l2. simpl.
    rewrite Nat.add_0_r.
    apply (@skip_white_none DEFAULT_WHITE_CHARS s _ (loc + 12) Hs1).
    simpl. destruct tail; [exact I|apply Htail]. }
  rewrite Hstart, Htok in Hz.
  unfold BACKGROUND, _parse.
  replace [background_object
             (map (fun st => plain_statement (sentence st)) steps)]
    with (as_tokens
            (background_object
               (map (fun st => plain_statement (sentence st)) steps)))
    by reflexivity.
  apply (@setParseAction_intro true _ (add_statements KBackground) fuel s loc
           (Block_init KBackground
            :: map (fun st => plain_statement (sentence st)) steps));
    [reflexivity| | |reflexivity].
  - eapply And_intro_eq with (t1 := [Block_init KBackground]) (l1 := loc + 12);
      [exact Hd|exact Hz|reflexivity|reflexivity].
  - unfold add_statements.
    rewrite plain_statements_are_statements. reflexivity.
Qed.

(** *** Whole files *)

Lemma BACKGROUND_mismatch fuel (s w r : text) loc :
  skipn loc s = w ++ r ->
  forallb (fun c => mem c DEFAULT_WHITE_CHARS) w = true ->
  match r with
  | [] => True
  | c :: _ => mem c DEFAULT_WHITE_CHARS = false /\ c <> "B"%char
  end ->
  _parse BACKGROUND fuel s loc = ParseException.
Proof.
  intros Hs Hw Hr. unfold BACKGROUND, _parse.
  apply setParseAction_fail; [reflexivity|]. apply And_fail.
  apply setParseAction_fail; [reflexivity|].
  apply Suppress_fail, And_fail, And_fail.
  change (_parse (Keyword (str "Background")) fuel s loc = ParseException).
  rewrite (@parse_skip (Keyword (str "Background")) fuel s w r loc eq_refl
             Hs Hw).
  - apply Keyword_other; [discriminate|].
    apply skipn_app_inv in Hs. rewrite Hs.
    destruct r as [|c r]; [exact I|]. destruct Hr as [_ Hr].
    simpl. congruence.
  - destruct r as [|c r]; [exact I|]. apply Hr.
Qed.

Lemma length_tag_text_ge (names : list text) :
  length names <= length (tag_text names).
Proof.
  induction names as [|n names IH]; [simpl; lia|].
  change (tag_text (n :: names))
    with (("@"%char :: n ++ [nl]) ++ tag_text names).
  rewrite length_app. simpl length. lia.
Qed.

Lemma length_steps_text_ge (steps : list (text * text)) :
  length steps <= length (steps_text steps).
Proof.
  induction steps as [|st steps IH]; [simpl; lia|].
  change (steps_text (st :: steps))
    with ((sentence st ++ [nl]) ++ steps_text steps).
  rewrite !length_app. simpl length. lia.
Qed.

(** A feature file of the shape [feature_text] parses to its tree, and the
    parse reads it to the end. *)
Lemma FEATURE_text fuel names (w name : text) bg :
  Forall tag_name names ->
  blank w -> name <> [] -> starts_black name -> one_line name ->
  match bg with None => True | Some steps => Forall step_text steps end ->
  length (feature_text names w name bg) <= fuel ->
  _parse FEATURE fuel (feature_text names w name bg) 0
  = Ok (feature_tree names name bg)
       (S (length (feature_text names w name bg))).
Proof.
  intros Hnames Hw Hne Hblack Hline Hbg Hfuel.
  set (s := feature_text names w name bg) in *.
  set (tailtext := match bg with
                   | None => []
                   | Some steps => str "Background:" ++ nl :: steps_text steps
                   end).
  assert (Es : s = tag_text names ++ str "Feature:" ++ w ++ name
                   ++ nl :: tailtext) by reflexivity.
  assert (Hlen : length s
                 = length (tag_text names) + 8 + length w + length name + 1
                   + length tailtext).
  { rewrite Es. repeat (rewrite length_app || simpl length). lia. }
  set (l1 := length (tag_text names) + 8 + length w + length name).
  assert (Hhead : _parse FEATURE_DEFN fuel s 0
                  = Ok [feature_object (map tag_object names) name] l1).
  { rewrite Es. apply FEATURE_DEFN_text; auto.
    - destruct name; [now destruct Hne|exact Hblack].
    - reflexivity.
    - pose proof (length_tag_text_ge names). lia. }
  assert (Hs1 : skipn l1 s = [nl] ++ tailtext).
  { assert (EP : s = (tag_text names ++ str "Feature:" ++ w ++ name)
                     ++ [nl] ++ tailtext)
      by (rewrite Es, <- !app_assoc; reflexivity).
    rewrite EP. unfold l1.
    replace (length (tag_text names) + 8 + length w + length name)
      with (length (tag_text names ++ str "Feature:" ++ w ++ name))
      by (repeat (rewrite length_app || simpl length); lia).
    apply skipn_length_app. }
  assert (Hs2 : skipn (l1 + 1) s = tailtext)
    by (apply (@skipn_app_inv s [nl]); exact Hs1).
  assert (Hopt : _parse (Optional BACKGROUND) fuel s l1
                 = Ok (match bg with
                       | None => []
                       | Some steps =>
                           [background_object
                              (map (fun st => plain_statement (sentence st))
                                 steps)]
                       end) (length s)).
  { destruct bg as [steps|].
    - apply Optional_some.
      change (_parse BACKGROUND fuel s l1
              = Ok [background_object
                      (map (fun st => plain_statement (sentence st)) steps)]
                   (length s)).
      rewrite (@parse_skip BACKGROUND fuel s [nl] tailtext l1 eq_refl Hs1
                 eq_refl eq_refl).
      change (l1 + length [nl]) with (l1 + 1).
      rewrite <- (@parse_no_skip BACKGROUND fuel s tailtext (l1 + 1) Hs2
                    eq_refl).
      replace (length s)
        with (l1 + 1 + 12 + length (steps_text steps)).
      + apply BACKGROUND_text with (tail := []).
        * rewrite Hs2. unfold tailtext. now rewrite app_nil_r.
        * rewrite Nat.add_1_r. exists nl. split; [|reflexivity].
          apply skipn_cons_inv in Hs1. apply Hs1.
        * exact Hbg.
        * exact I.
        * pose proof (length_steps_text_ge steps).
          unfold tailtext in Hlen. simpl in Hlen. lia.
      + rewrite Hlen. unfold l1, tailtext. simpl. lia.
    - replace (length s) with (start_of true BACKGROUND s l1).
      + apply Optional_none.
        apply (@BACKGROUND_mismatch fuel s [nl] [] l1 Hs1 eq_refl I).
      + unfold start_of, preParse.
        cbn [skipWhitespace whiteChars BACKGROUND BACKGROUND_DEFN
          setParseAction And Suppress enhance Keyword token_element].
        rewrite (@skip_white_at DEFAULT_WHITE_CHARS s [nl] [] l1 Hs1
                   eq_refl I).
        rewrite Hlen. unfold l1, tailtext. simpl. lia. }
  unfold FEATURE, _parse.
  eapply And_intro_eq
    with (t1 := feature_tree names name bg) (t2 := []) (l1 := length s);
    [| |now rewrite app_nil_r|reflexivity].
  - eapply And_intro_eq
      with (t1 := [feature_object (map tag_object names) name]) (l1 := l1);
      [exact Hhead|exact Hopt|reflexivity|reflexivity].
  - apply stringEnd_at; [|apply le_n].
    apply skipn_all.
Qed.

(** *** Tabs *)

Lemma expandtabs_tabless (l : text) : tabless l -> expandtabs l = l.
Proof.
  unfold expandtabs. generalize 0 as col.
  induction l as [|c r IH]; intros col H; [reflexivity|].
  unfold tabless in H. simpl in H. apply andb_prop in H.
  destruct H as [Hc Hr]. cbn [expandtabs_from].
  destruct (Ascii.eqb c tab); [discriminate|].
  destruct (Ascii.eqb c nl || Ascii.eqb c cr); now rewrite IH.
Qed.

Lemma tabless_app (a b : text) : tabless a -> tabless b -> tabless (a ++ b).
Proof. unfold tabless. intros Ha Hb. now rewrite forallb_app, Ha, Hb. Qed.

Lemma printable_tabless (l : text) :
  forallb is_printable l = true -> tabless l.
Proof.
  unfold tabless. induction l as [|c r IH]; [reflexivity|].
  simpl. intros H. apply andb_prop in H. destruct H as [Hc Hr].
  rewrite IH by assumption. rewrite andb_true_r.
  destruct (Ascii.eqb c tab) eqn:E; [|reflexivity].
  apply Ascii.eqb_eq in E. subst c. discriminate.
Qed.

Lemma tag_text_tabless (names : list text) :
  Forall tag_name names -> tabless (tag_text names).
Proof.
  induction 1 as [|n names [_ Hp] _ IH]; [reflexivity|].
  cbn [tag_text flat_map]. apply tabless_app; [|exact IH].
  change ("@"%char :: n ++ [nl]) with (["@"%char] ++ n ++ [nl]).
  repeat apply tabless_app; try reflexivity. now apply printable_tabless.
Qed.

Lemma keywords_tabless (kw : text) : In kw keywords -> tabless kw.
Proof.
  unfold keywords. cbn [In].
  intros [<-|[<-|[<-|[<-|[]]]]]; reflexivity.
Qed.

Lemma steps_text_tabless (steps : list (text * text)) :
  Forall step_text steps ->
  Forall (fun st => tabless (snd st)) steps ->
  tabless (steps_text steps).
Proof.
  induction 1 as [|[kw rest] steps (Hk & _) _ IH]; intros Ht;
    [reflexivity|].
  inversion Ht; subst. cbn [steps_text flat_map].
  apply tabless_app; [|now apply IH].
  unfold sentence. cbn [fst snd]. rewrite <- app_assoc.
  repeat apply tabless_app; try reflexivity; try assumption.
  now apply keywords_tabless.
Qed.

(** *** What the grammar turns down *)

Lemma Keyword_glued m fuel (s r : text) loc c :
  skipn loc s = m ++ c :: r -> is_ident_char c = true ->
  parse_gen false (Keyword m) fuel s loc = ParseException.
Proof.
  intros Hs Hc. rewrite Keyword_impl, Hs.
  rewrite startswith_app, skipn_length_app, Hc. simpl.
  now destruct (m ++ c :: r).
Qed.

Lemma keywords_first_letters (kw kw' : text) :
  In kw keywords -> In kw' keywords -> kw <> kw' ->
  hd_error kw' <> hd_error kw.
Proof.
  unfold keywords. cbn [In].
  intros [<-|[<-|[<-|[<-|[]]]]] [<-|[<-|[<-|[<-|[]]]]] H;
    try congruence; discriminate.
Qed.

(** A keyword that runs on into an identifier character is no keyword. *)
Lemma keyword_choice_glued b fuel (s kw r : text) loc c :
  In kw keywords ->
  skipn loc s = kw ++ c :: r -> is_ident_char c = true ->
  parse_gen b
    (MatchFirst
       (MatchFirst (MatchFirst (Keyword (str "Given")) (Keyword (str "When")))
                   (Keyword (str "Then")))
       (Keyword (str "And")))
    fuel s loc = ParseException.
Proof.
  intros Hk Hs Hc.
  assert (Hout : starts_outside DEFAULT_WHITE_CHARS (skipn loc s))
    by (rewrite Hs; now apply keywords_start).
  assert (Hno : forall m, _parse (Keyword m) fuel s loc
                          = parse_gen false (Keyword m) fuel s loc).
  { intros m. apply (@parse_no_skip (Keyword m) fuel s _ loc eq_refl Hout). }
  assert (Hoff : forall m,
            In m keywords ->
            parse_gen false (Keyword m) fuel s loc = ParseException).
  { intros m Hm.
    destruct (list_eq_dec ascii_dec m kw) as [->|Hne].
    - eapply Keyword_glued; eassumption.
    - apply Keyword_other; [now apply keywords_nonempty|].
      rewrite Hs. pose proof (keywords_first_letters Hk Hm) as Hfirst.
      destruct kw as [|k kw']; [now apply keywords_nonempty in Hk|].
      simpl in *. apply Hfirst. congruence. }
  rewrite MatchFirst_at by assumption.
  rewrite (@MatchFirst_at true) by assumption.
  rewrite (@MatchFirst_at true) by assumption.
  rewrite !Hno.
  rewrite !Hoff by (unfold keywords; simpl; auto).
  reflexivity.
Qed.

(** Behind the cells that are there, an empty cell ends the row too
    early. *)
Lemma TABLE_ROW_empty_cell fuel (s r : text) before loc :
  Forall cell_text before ->
  skipn loc s = "|"%char :: cells_text before ++ "|"%char :: r ->
  length before <= fuel ->
  _parse TABLE_ROW fuel s loc = ParseException.
Proof.
  intros Hbefore Hs Hfuel.
  assert (Hs1 : skipn (loc + 1) s = cells_text before ++ "|"%char :: r)
    by (apply (@skipn_app_inv s ["|"%char]); exact Hs).
  destruct (@cells_chain fuel s before Hbefore (loc + 1) _ Hs1)
    as (ms & Hc & Htok & Hlen).
  set (l2 := loc + 1 + length (cells_text before)) in *.
  assert (Hs2 : skipn l2 s = "|"%char :: r)
    by (apply skipn_app_inv; exact Hs1).
  assert (Hend : _parse TABLE_CELL fuel s l2 = ParseException)
    by (apply TABLE_CELL_stop; rewrite Hs2; reflexivity).
  assert (Hbar : _parse (Suppress (Literal (str "|"))) fuel s loc
                 = Ok [] (loc + 1)).
  { apply Suppress_intro with (t := [VStr (str "|")]).
    change (_parse (Literal (str "|")) fuel s loc
            = Ok [VStr (str "|")] (loc + 1)).
    rewrite (@parse_no_skip (Literal (str "|")) fuel s _ loc Hs eq_refl).
    apply (@Literal_at (str "|") fuel s _ loc Hs). discriminate. }
  unfold TABLE_ROW, _parse.
  apply setParseAction_fail; [reflexivity|].
  destruct ms as [|m ms].
  - (* no cell at all *)
    apply And_fail.
    apply And_fail_second with (t1 := []) (l1 := loc + 1); [exact Hbar|].
    apply OneOrMore_fail.
    inversion Hc; subst.
    match goal with H : loc + 1 = l2 |- _ => rewrite H end.
    exact Hend.
  - (* some cells, then the line does not end *)
    apply And_fail_second with (t1 := chain_tokens (m :: ms)) (l1 := l2).
    + eapply And_intro_eq with (t1 := []) (l1 := loc + 1);
        [exact Hbar| |reflexivity|reflexivity].
      apply OneOrMore_intro; [exact Hc|exact Hend|].
      rewrite Hlen. exact Hfuel.
    + unfold EOL. apply Suppress_fail.
      change (_parse lineEnd fuel s l2 = ParseException).
      rewrite (@parse_no_skip lineEnd fuel s _ l2 Hs2 eq_refl).
      apply skipn_cons_inv in Hs2. destruct Hs2 as (Hn & Hl & _).
      unfold parse_gen. cbn -[nth_error Nat.ltb Nat.eqb Ascii.eqb nl].
      apply Nat.ltb_lt in Hl. now rewrite Hl, Hn.
Qed.

Lemma take_while_all (p : ascii -> bool) (l : text) :
  length l <= length (take_while p l) -> forallb p l = true.
Proof.
  induction l as [|c r IH]; [reflexivity|].
  simpl. destruct (p c); simpl; intros L; [apply IH; lia|lia].
Qed.

(** Where [stringEnd] matches, only blanks are left. *)
Lemma stringEnd_Ok fuel (s : text) loc toks loc' :
  _parse stringEnd fuel s loc = Ok toks loc' ->
  toks = []
  /\ forallb (fun c => mem c DEFAULT_WHITE_CHARS) (skipn loc s) = true.
Proof.
  intros H. rewrite parse_gen_pre in H.
  change (preParse stringEnd s loc)
    with (skip_white DEFAULT_WHITE_CHARS s loc) in H.
  unfold parse_gen in H.
  cbn [parseImpl stringEnd token_element postParse parseAction] in H.
  destruct (skip_white DEFAULT_WHITE_CHARS s loc <? length s) eqn:E;
    [discriminate|].
  split.
  - destruct (_ =? _); now injection H as <- _.
  - apply Nat.ltb_ge in E. unfold skip_white in E.
    apply take_while_all. rewrite length_skipn. lia.
Qed.

(** ** The grammar on files as they are laid out *)

Lemma gap_app (a b : text) : gap (a ++ b) <-> gap a /\ gap b.
Proof.
  unfold gap. rewrite forallb_app. split.
  - intros H. now apply andb_prop in H.
  - intros [-> ->]. reflexivity.
Qed.

Lemma gap_cons (c : ascii) (g : text) :
  gap (c :: g) <-> mem c DEFAULT_WHITE_CHARS = true /\ gap g.
Proof.
  unfold gap. cbn [forallb]. split.
  - intros H. now apply andb_prop in H.
  - intros [-> ->]. reflexivity.
Qed.

Lemma white_not_ident (c : ascii) :
  mem c DEFAULT_WHITE_CHARS = true -> is_ident_char c = false.
Proof.
  destruct c as [[] [] [] [] [] [] [] []]; vm_compute; congruence.
Qed.

Lemma nth_error_skipn_app (s a r : text) loc c :
  skipn loc s = a ++ c :: r -> nth_error s (loc + length a) = Some c.
Proof.
  intros H. apply skipn_app_inv in H. apply skipn_cons_inv in H. apply H.
Qed.

Lemma skipn_bound (s : text) loc c r :
  skipn loc s = c :: r -> loc < length s.
Proof. intros H. apply skipn_cons_inv in H. apply H. Qed.

Lemma skipn_app_le (s a r : text) loc :
  skipn loc s = a ++ r -> a <> [] -> loc + length a <= length s.
Proof.
  intros H Ha. apply skipn_app_bound with (r := r); [exact H|].
  destruct a as [|c a]; [congruence|].
  apply skipn_bound in H. lia.
Qed.

(** Behind a gap no identifier character stands in front. *)
Lemma apart_gap (s g r : text) loc :
  skipn loc s = g ++ r -> g <> [] -> gap g ->
  apart_before s (loc + length g).
Proof.
  intros Hs Hne Hg.
  destruct (exists_last Hne) as (g' & c & ->).
  rewrite <- app_assoc in Hs. cbn [app] in Hs.
  apply nth_error_skipn_app in Hs.
  rewrite length_app. cbn [length].
  replace (loc + (length g' + 1)) with (S (loc + length g')) by lia.
  cbn [apart_before]. exists c. split; [exact Hs|].
  apply white_not_ident. apply gap_app in Hg. destruct Hg as [_ Hg].
  apply gap_cons in Hg. apply Hg.
Qed.

Lemma reaches_gap (s g r : text) loc :
  skipn loc s = g ++ r -> g <> [] -> gap g -> reaches s loc r.
Proof.
  intros Hs Hne Hg. exists g. repeat split; try assumption.
  - now apply apart_gap with (r := r).
  - now apply skipn_app_le with (r := r).
Qed.

(** Behind a newline and a gap. *)
Lemma reaches_after_nl (s g r : text) loc :
  skipn loc s = nl :: g ++ r -> gap g -> reaches s (S loc) r.
Proof.
  intros Hs Hg.
  assert (H1 : skipn loc s = (nl :: g) ++ r) by exact Hs.
  assert (Hg1 : gap (nl :: g)) by (apply gap_cons; split; [reflexivity|exact Hg]).
  pose proof (@apart_gap s (nl :: g) r loc H1 ltac:(discriminate) Hg1) as A.
  pose proof (@skipn_app_le s (nl :: g) r loc H1 ltac:(discriminate)) as B.
  cbn [length] in A, B.
  exists g. repeat split; try assumption.
  - apply skipn_cons_inv in Hs. apply Hs.
  - replace (S loc + length g) with (loc + S (length g)) by lia. exact A.
  - lia.
Qed.

Lemma reaches_start (g r : text) : gap g -> reaches (g ++ r) 0 r.
Proof.
  intros Hg. destruct g as [|c g].
  - exists []. repeat split; simpl; try reflexivity; lia.
  - apply reaches_gap with (g := c :: g); [reflexivity|discriminate|exact Hg].
Qed.

Lemma reaches_here (s r : text) loc :
  skipn loc s = r -> apart_before s loc -> loc <= length s ->
  reaches s loc r.
Proof.
  intros Hs Ha Hl. exists []. rewrite Nat.add_0_r.
  repeat split; try assumption; try reflexivity.
Qed.

(** An element that skips whitespace matches behind the gap. *)
Lemma parse_reaches e fuel (s g r : text) loc :
  skipWhitespace e = true -> whiteChars e = DEFAULT_WHITE_CHARS ->
  gap g -> skipn loc s = g ++ r ->
  starts_outside DEFAULT_WHITE_CHARS r ->
  _parse e fuel s loc = _parse e fuel s (loc + length g).
Proof.
  intros Hsk Hwh Hg Hs Hr.
  rewrite <- (parse_at_start e fuel s loc).
  unfold preParse. rewrite Hsk, Hwh.
  now rewrite (@skip_white_at DEFAULT_WHITE_CHARS s g r loc Hs Hg Hr).
Qed.

Section Layout.

Variables (fuel : nat) (s : text).
Hypothesis Hfuel : length s <= fuel.

Lemma part_le_fuel (a b r : text) (n : nat) loc :
  skipn loc s = a ++ b ++ r -> n <= length b -> n <= fuel.
Proof.
  intros H Hn.
  assert (L : length (skipn loc s) = length (a ++ b ++ r)) by now rewrite H.
  rewrite length_skipn, !length_app in L. lia.
Qed.

(** *** Tags *)

Lemma TAG_reaches (t : TagLine) (r : text) loc :
  reaches s loc (tag_line_text t ++ r) -> tag_line_ok t ->
  exists l,
    _parse TAG fuel s loc = Ok [tag_object (tag_word t)] l
    /\ reaches s l r.
Proof.
  intros (g & Hg & Hs & Ha & Hb) [Hn Hgap].
  unfold tag_line_text in Hs. cbn [app] in Hs. rewrite <- app_assoc in Hs.
  cbn [app] in Hs.
  assert (Hs1 : skipn (loc + length g) s
                = "@"%char :: tag_word t ++ nl :: tag_after t ++ r)
    by (apply skipn_app_inv; exact Hs).
  exists (loc + length g + length (tag_word t) + 2). split.
  - rewrite (@parse_reaches TAG fuel s g _ loc eq_refl eq_refl Hg Hs eq_refl).
    now apply TAG_line with (r := tag_after t ++ r).
  - replace (loc + length g + length (tag_word t) + 2)
      with (S (loc + length g + 1 + length (tag_word t))) by lia.
    apply reaches_after_nl with (g := tag_after t); [|exact Hgap].
    apply skipn_app_inv. apply (@skipn_app_inv s ["@"%char]). exact Hs1.
Qed.

Lemma tags_chain (tags : list TagLine) :
  Forall tag_line_ok tags ->
  forall loc r,
    reaches s loc (tags_text tags ++ r) ->
    exists ms l,
      chain TAG fuel s loc ms l
      /\ chain_tokens ms = map (fun t => tag_object (tag_word t)) tags
      /\ length ms = length tags
      /\ (tags = [] -> ms = [] /\ l = loc)
      /\ reaches s l r.
Proof.
  induction 1 as [|t tags Ht _ IH]; intros loc r Hr.
  - exists [], loc. repeat split; [constructor|exact Hr].
  - cbn [tags_text flat_map] in Hr. rewrite <- app_assoc in Hr.
    destruct (@TAG_reaches t _ loc Hr Ht) as (l1 & Hp & Hr1).
    destruct (IH l1 r Hr1) as (ms & l & Hc & Htok & Hlen & _ & Hr2).
    exists (([tag_object (tag_word t)], loc, l1) :: ms), l.
    repeat split.
    + econstructor; eassumption.
    + unfold chain_tokens in *. simpl. now rewrite Htok.
    + simpl. now rewrite Hlen.
    + discriminate.
    + discriminate.
    + exact Hr2.
Qed.

Lemma length_tags_text_ge (tags : list TagLine) :
  length tags <= length (tags_text tags).
Proof.
  induction tags as [|t tags IH]; [simpl; lia|].
  cbn [tags_text flat_map]. rewrite length_app.
  unfold tags_text, tag_line_text in *. cbn [length]. lia.
Qed.

Lemma TAG_stops (r : text) loc c :
  reaches s loc (c :: r) ->
  mem c DEFAULT_WHITE_CHARS = false -> c <> "@"%char ->
  _parse TAG fuel s loc = ParseException.
Proof.
  intros (g & Hg & Hs & _ & _) Hw Hc.
  rewrite (@parse_reaches TAG fuel s g _ loc eq_refl eq_refl Hg Hs Hw).
  apply skipn_app_inv in Hs.
  now apply TAG_mismatch with (c := c) (r := r).
Qed.

(** Where the repetition of an element ends when it matched nothing. *)
Lemma reaches_skipped (r : text) loc :
  reaches s loc r -> starts_outside DEFAULT_WHITE_CHARS r ->
  skipn (skip_white DEFAULT_WHITE_CHARS s loc) s = r
  /\ apart_before s (skip_white DEFAULT_WHITE_CHARS s loc)
  /\ skip_white DEFAULT_WHITE_CHARS s loc <= length s.
Proof.
  intros (g & Hg & Hs & Ha & Hb) Hr.
  rewrite (@skip_white_at DEFAULT_WHITE_CHARS s g r loc Hs Hg Hr).
  repeat split; try assumption. now apply skipn_app_inv.
Qed.

Lemma FEATURE_KEYWORD_reaches (w r : text) loc :
  reaches s loc (str "Feature:" ++ w ++ r) ->
  blank w -> starts_black r ->
  exists l,
    _parse FEATURE_KEYWORD fuel s loc = Ok [] l
    /\ skipn l s = r /\ l <= length s.
Proof.
  intros (g & Hg & Hs & Ha & Hb) Hw Hr.
  assert (Hs1 : skipn (loc + length g) s = str "Feature:" ++ w ++ r)
    by (apply skipn_app_inv; exact Hs).
  exists (loc + length g + 8 + length w). repeat split.
  - rewrite (@parse_reaches FEATURE_KEYWORD fuel s g _ loc eq_refl eq_refl
               Hg Hs eq_refl).
    now apply FEATURE_KEYWORD_at with (r := r).
  - apply skipn_app_inv. apply (@skipn_app_inv s (str "Feature:")).
    exact Hs1.
  - apply skipn_app_le with (r := r); [|destruct Hw as [Hw _]; exact Hw].
    apply (@skipn_app_inv s (str "Feature:")). exact Hs1.
Qed.

Lemma FEATURE_DEFN_reaches (tags : list TagLine) (w name r : text) loc :
  reaches s loc (tags_text tags ++ str "Feature:" ++ w ++ name ++ r) ->
  Forall tag_line_ok tags ->
  blank w -> starts_black (name ++ r) -> one_line name -> line_ends r ->
  exists l,
    _parse FEATURE_DEFN fuel s loc
    = Ok [feature_object (map (fun t => tag_object (tag_word t)) tags) name]
         l
    /\ skipn l s = r /\ l <= length s.
Proof.
  intros Hr Htags Hw Hname Hline Hend.
  assert (Hn : length tags <= fuel).
  { destruct Hr as (g & _ & Hs & _).
    apply (@part_le_fuel g (tags_text tags) _ _ loc Hs).
    apply length_tags_text_ge. }
  destruct (@tags_chain tags Htags loc _ Hr)
    as (ms & l1 & Hc & Htok & Hlen & Hnil & Hr1).
  assert (Hstop : _parse TAG fuel s l1 = ParseException).
  { apply TAG_stops with (c := "F"%char) (r := str "eature:" ++ w ++ name ++ r);
      [exact Hr1|reflexivity|discriminate]. }
  assert (Hlen' : length ms <= fuel) by (rewrite Hlen; exact Hn).
  pose proof (@ZeroOrMore_intro TAG fuel s loc ms l1 Hc Hstop Hlen') as Hz.
  rewrite Htok in Hz.
  set (l2 := match ms with [] => preParse TAG s loc | _ :: _ => l1 end) in Hz.
  assert (Hr2 : reaches s l2 (str "Feature:" ++ w ++ (name ++ r))).
  { unfold l2. destruct ms as [|m ms']; [|exact Hr1].
    destruct tags as [|t tags']; [|discriminate].
    destruct (@reaches_skipped _ loc Hr eq_refl) as (A & B & C).
    apply reaches_here; assumption. }
  destruct (@FEATURE_KEYWORD_reaches w (name ++ r) l2 Hr2 Hw Hname)
    as (l3 & Hk & Hs3 & Hb3).
  exists (l3 + length name). repeat split.
  - unfold FEATURE_DEFN, _parse.
    replace [feature_object (map (fun t => tag_object (tag_word t)) tags)
               name]
      with (as_tokens
              (feature_object (map (fun t => tag_object (tag_word t)) tags)
                 name))
      by reflexivity.
    apply (@setParseAction_intro true _ Feature fuel s loc
             (map (fun t => tag_object (tag_word t)) tags ++ [VStr name]));
      [reflexivity| | |reflexivity].
    + eapply And_intro_eq
        with (l1 := l3)
             (t1 := map (fun t => tag_object (tag_word t)) tags)
             (t2 := [VStr name]);
        [| |reflexivity|reflexivity].
      * eapply And_intro_eq
          with (l1 := l2)
               (t1 := map (fun t => tag_object (tag_word t)) tags)
               (t2 := []);
          [exact Hz|exact Hk|now rewrite app_nil_r|reflexivity].
      * apply (@restOfLine_at true name fuel s r _ Hs3 Hline Hend Hb3).
    + rewrite <- (map_map tag_word tag_object). apply Feature_of_tags.
  - now apply skipn_app_inv.
  - destruct name as [|c name].
    + simpl. lia.
    + apply skipn_app_le with (r := r); [exact Hs3|discriminate].
Qed.

(** *** Tables *)

Lemma Group_intro b e t l loc :
  parse_gen b e fuel s loc = Ok t l ->
  parse_gen b (Group e) fuel s loc = Ok [VResults t] l.
Proof.
  intros H. rewrite <- parse_gen_start in H.
  unfold parse_gen at 1. cbn -[parse_gen _parse].
  change (if b then preParse (Group e) s loc else loc)
    with (start_of b e s loc).
  now rewrite H.
Qed.

Lemma length_cells_text_ge (cells : list text) :
  length cells <= length (cells_text cells).
Proof.
  induction cells as [|c cells IH]; [simpl; lia|].
  cbn [cells_text flat_map]. rewrite !length_app.
  unfold cells_text in IH. cbn [length]. lia.
Qed.

Lemma TABLE_ROW_reaches (r : RowLine) (tail : text) loc :
  reaches s loc (row_line_text r ++ tail) -> row_line_ok r ->
  exists l,
    _parse TABLE_ROW fuel s loc
    = Ok (map (fun c => VStr (strip c)) (row_cells r)) l
    /\ reaches s l tail.
Proof.
  intros (g & Hg & Hs & Ha & Hb) (Hne & Hcells & Hgap).
  unfold row_line_text in Hs. rewrite <- app_assoc in Hs. cbn [app] in Hs.
  assert (Hs1 : skipn (loc + length g) s
                = row_text (row_cells r) ++ nl :: row_after r ++ tail)
    by (apply skipn_app_inv; exact Hs).
  assert (Hn : length (row_cells r) <= fuel).
  { apply (@part_le_fuel g (row_text (row_cells r)) _ _ loc Hs).
    unfold row_text. cbn [length].
    pose proof (length_cells_text_ge (row_cells r)). lia. }
  exists (loc + length g + length (row_text (row_cells r)) + 1). split.
  - rewrite (@parse_reaches TABLE_ROW fuel s g _ loc eq_refl eq_refl Hg Hs
               eq_refl).
    now apply TABLE_ROW_text with (r := row_after r ++ tail).
  - replace (loc + length g + length (row_text (row_cells r)) + 1)
      with (S (loc + length g + length (row_text (row_cells r)))) by lia.
    apply reaches_after_nl with (g := row_after r); [|exact Hgap].
    apply skipn_app_inv. exact Hs1.
Qed.

Lemma rows_chain (rows : list RowLine) :
  Forall row_line_ok rows ->
  forall loc r,
    reaches s loc (rows_text rows ++ r) ->
    exists ms l,
      chain (Group TABLE_ROW) fuel s loc ms l
      /\ chain_tokens ms = map row_value rows
      /\ length ms = length rows
      /\ reaches s l r.
Proof.
  induction 1 as [|row rows Hrow _ IH]; intros loc r Hr.
  - exists [], loc. repeat split; [constructor|exact Hr].
  - cbn [rows_text flat_map] in Hr. rewrite <- app_assoc in Hr.
    destruct (@TABLE_ROW_reaches row _ loc Hr Hrow) as (l1 & Hp & Hr1).
    destruct (IH l1 r Hr1) as (ms & l & Hc & Htok & Hlen & Hr2).
    exists (([row_value row], loc, l1) :: ms), l. repeat split.
    + econstructor; [|exact Hc]. apply Group_intro. exact Hp.
    + unfold chain_tokens in *. simpl. now rewrite Htok.
    + simpl. now rewrite Hlen.
    + exact Hr2.
Qed.

Lemma length_rows_text_ge (rows : list RowLine) :
  length rows <= length (rows_text rows).
Proof.
  induction rows as [|r rows IH]; [simpl; lia|].
  cbn [rows_text flat_map]. rewrite length_app.
  unfold rows_text, row_line_text, row_text in *.
  rewrite length_app. cbn [length]. lia.
Qed.

Lemma TABLE_ROW_stops (r : text) loc :
  reaches s loc r -> no_table r ->
  _parse (Group TABLE_ROW) fuel s loc = ParseException.
Proof.
  intros (g & Hg & Hs & _ & _) Hr. unfold _parse.
  apply Group_fail. apply setParseAction_fail; [reflexivity|].
  apply And_fail, And_fail, Suppress_fail.
  change (_parse (Literal (str "|")) fuel s loc = ParseException).
  rewrite (@parse_skip (Literal (str "|")) fuel s g r loc eq_refl Hs Hg).
  - apply Literal_mismatch. apply skipn_app_inv in Hs. rewrite Hs.
    destruct r as [|c r]; [exact I|]. destruct Hr as [_ Hr]. congruence.
  - destruct r as [|c r]; [exact I|]. apply Hr.
Qed.

Lemma TABLE_reaches (rows : list RowLine) (r : text) loc :
  rows <> [] -> Forall row_line_ok rows ->
  reaches s loc (rows_text rows ++ r) -> no_table r ->
  exists l,
    _parse TABLE fuel s loc = Ok [VResults (map row_value rows)] l
    /\ reaches s l r.
Proof.
  intros Hne Hrows Hr Hnot.
  assert (Hn : length rows <= fuel).
  { destruct Hr as (g & _ & Hs & _).
    apply (@part_le_fuel g (rows_text rows) _ _ loc Hs).
    apply length_rows_text_ge. }
  destruct (@rows_chain rows Hrows loc r Hr) as (ms & l & Hc & Htok & Hlen & Hr1).
  exists l. split; [|exact Hr1].
  unfold TABLE, setResultsName, _parse. apply Group_intro.
  rewrite <- Htok.
  destruct ms as [|m ms]; [destruct rows; [congruence|discriminate]|].
  apply OneOrMore_intro; [exact Hc| |rewrite Hlen; exact Hn].
  now apply TABLE_ROW_stops with (r := r).
Qed.

(** *** Steps *)

Lemma STATEMENT_reaches (st : StepLines) (r : text) loc :
  reaches s loc (step_lines_text st ++ r) -> step_lines_ok st ->
  no_table r ->
  exists l,
    _parse STATEMENT fuel s loc = Ok [statement_of st] l
    /\ reaches s l r.
Proof.
  intros (g & Hg & Hs & Ha & Hb) (Hk & Hap & Hline & Hgap & Hrows) Hnot.
  unfold step_lines_text in Hs.
  repeat (rewrite <- app_assoc in Hs; cbn [app] in Hs).
  set (p := loc + length g) in *.
  assert (Hs0 : skipn p s
                = step_keyword st ++ step_rest st ++ nl :: step_after st
                  ++ rows_text (step_rows st) ++ r)
    by (apply skipn_app_inv; exact Hs).
  rewrite (@parse_reaches STATEMENT fuel s g _ loc eq_refl eq_refl Hg Hs
             (keywords_start _ Hk)).
  fold p.
  set (l1 := p + length (step_keyword st) + length (step_rest st)).
  assert (Hsent : parse_gen true STATEMENT_sentence fuel s p
                  = Ok [VStr (step_keyword st); VStr (step_rest st)] l1).
  { now apply STATEMENT_sentence_at
      with (r := step_after st ++ rows_text (step_rows st) ++ r). }
  assert (Hs1 : skipn l1 s
                = (nl :: step_after st) ++ rows_text (step_rows st) ++ r).
  { unfold l1. apply skipn_app_inv. apply skipn_app_inv. exact Hs0. }
  assert (Hg1 : gap (nl :: step_after st))
    by (apply gap_cons; split; [reflexivity|exact Hgap]).
  assert (Hr1 : reaches s l1 (rows_text (step_rows st) ++ r))
    by (apply reaches_gap with (g := nl :: step_after st);
        [exact Hs1|discriminate|exact Hg1]).
  unfold statement_of.
  destruct (step_rows st) as [|row rows] eqn:Erows.
  - cbn [rows_text flat_map app] in Hs1, Hr1.
    assert (Hout : starts_outside DEFAULT_WHITE_CHARS r)
      by (destruct r as [|c r]; [exact I|apply Hnot]).
    destruct (@reaches_skipped r l1 Hr1 Hout) as (A & B & C).
    exists (skip_white DEFAULT_WHITE_CHARS s l1). split.
    + unfold STATEMENT, _parse.
      replace [plain_statement (step_keyword st ++ step_rest st)]
        with (as_tokens (plain_statement (step_keyword st ++ step_rest st)))
        by reflexivity.
      apply (@setParseAction_intro true _ Statement fuel s p
               [VStr (step_keyword st); VStr (step_rest st)]);
        [reflexivity| |reflexivity|reflexivity].
      eapply And_intro_eq
        with (t1 := [VStr (step_keyword st); VStr (step_rest st)])
             (t2 := []) (l1 := l1);
        [exact Hsent| |reflexivity|reflexivity].
      apply Optional_none.
      now apply (@TABLE_mismatch fuel s (nl :: step_after st) r l1).
    + now apply reaches_here.
  - assert (Hne : row :: rows <> []) by discriminate.
    destruct (@TABLE_reaches (row :: rows) r l1 Hne Hrows Hr1 Hnot)
      as (l & Ht & Hr2).
    exists l. split; [|exact Hr2].
    unfold STATEMENT, _parse.
    replace [table_statement (step_keyword st ++ step_rest st)
               (VResults (map row_value (row :: rows)))]
      with (as_tokens
              (table_statement (step_keyword st ++ step_rest st)
                 (VResults (map row_value (row :: rows)))))
      by reflexivity.
    apply (@setParseAction_intro true _ Statement fuel s p
             [VStr (step_keyword st); VStr (step_rest st);
              VResults (map row_value (row :: rows))]);
      [reflexivity| |reflexivity|reflexivity].
    eapply And_intro_eq
      with (t1 := [VStr (step_keyword st); VStr (step_rest st)])
           (t2 := [VResults (map row_value (row :: rows))]) (l1 := l1);
      [exact Hsent| |reflexivity|reflexivity].
    apply Optional_some. exact Ht.
Qed.

Lemma step_lines_no_table (steps : list StepLines) (r : text) :
  Forall step_lines_ok steps -> ends_block r ->
  no_table (steps_lines_text steps ++ r).
Proof.
  intros H Hr. destruct H as [|st steps (Hk & _) _].
  - now apply ends_block_no_table.
  - cbn [steps_lines_text flat_map]. unfold step_lines_text.
    rewrite <- !app_assoc. now apply keywords_no_bar.
Qed.

Lemma steps_lines_chain (steps : list StepLines) :
  Forall step_lines_ok steps ->
  forall loc r,
    reaches s loc (steps_lines_text steps ++ r) -> ends_block r ->
    exists ms l,
      chain STATEMENT fuel s loc ms l
      /\ chain_tokens ms = map statement_of steps
      /\ length ms = length steps
      /\ reaches s l r.
Proof.
  induction 1 as [|st steps Hst Hsteps IH]; intros loc r Hr Hend.
  - exists [], loc. repeat split; [constructor|exact Hr].
  - cbn [steps_lines_text flat_map] in Hr. rewrite <- app_assoc in Hr.
    destruct (@STATEMENT_reaches st _ loc Hr Hst
                (step_lines_no_table r Hsteps Hend)) as (l1 & Hp & Hr1).
    destruct (IH l1 r Hr1 Hend) as (ms & l & Hc & Htok & Hlen & Hr2).
    exists (([statement_of st], loc, l1) :: ms), l. repeat split.
    + econstructor; eassumption.
    + unfold chain_tokens in *. simpl. now rewrite Htok.
    + simpl. now rewrite Hlen.
    + exact Hr2.
Qed.

Lemma length_steps_lines_text_ge (steps : list StepLines) :
  length steps <= length (steps_lines_text steps).
Proof.
  induction steps as [|st steps IH]; [simpl; lia|].
  cbn [steps_lines_text flat_map]. rewrite length_app.
  unfold steps_lines_text, step_lines_text in *.
  rewrite !length_app. cbn [length]. lia.
Qed.

Lemma STATEMENT_stops (r : text) loc :
  reaches s loc r -> ends_block r ->
  _parse STATEMENT fuel s loc = ParseException.
Proof.
  intros (g & Hg & Hs & _ & _) Hr.
  assert (Hout : starts_outside DEFAULT_WHITE_CHARS r)
    by (destruct r as [|c r]; [exact I|apply Hr]).
  rewrite (@parse_reaches STATEMENT fuel s g r loc eq_refl eq_refl Hg Hs Hout).
  apply STATEMENT_mismatch. apply skipn_app_inv in Hs. now rewrite Hs.
Qed.

Lemma statements_of_are_statements (steps : list StepLines) :
  forallb (fun token => isinstance token KStatement)
    (map statement_of steps) = true.
Proof.
  induction steps as [|st steps IH]; [reflexivity|].
  cbn [map forallb]. rewrite IH. unfold statement_of.
  destruct (step_rows st); reflexivity.
Qed.

(** *** Background and feature *)

Lemma BACKGROUND_DEFN_reaches (after r : text) loc :
  reaches s loc (str "Background:" ++ nl :: after ++ r) -> gap after ->
  exists l,
    _parse BACKGROUND_DEFN fuel s loc = Ok [Block_init KBackground] l
    /\ reaches s l r.
Proof.
  intros (g & Hg & Hs & Ha & Hb) Hgap.
  assert (Hs1 : skipn (loc + length g) s
                = str "Background:" ++ nl :: after ++ r)
    by (apply skipn_app_inv; exact Hs).
  exists (S (loc + length g + 11)). split.
  - rewrite (@parse_reaches BACKGROUND_DEFN fuel s g _ loc eq_refl eq_refl
               Hg Hs eq_refl).
    replace (S (loc + length g + 11)) with (loc + length g + 12) by lia.
    now apply BACKGROUND_DEFN_at with (r := after ++ r).
  - apply reaches_after_nl with (g := after); [|exact Hgap].
    apply (@skipn_app_inv s (str "Background:")). exact Hs1.
Qed.

Lemma BACKGROUND_reaches (b : BackgroundLines) (r : text) loc :
  reaches s loc (background_lines_text b ++ r) ->
  background_lines_ok b -> ends_block r ->
  exists l,
    _parse BACKGROUND fuel s loc
    = Ok [background_object (map statement_of (background_steps b))] l
    /\ reaches s l r.
Proof.
  intros Hr (Hgap & Hsteps) Hend.
  unfold background_lines_text in Hr.
  repeat (rewrite <- app_assoc in Hr; cbn [app] in Hr).
  assert (Hn : length (background_steps b) <= fuel).
  { destruct Hr as (g & _ & Hs & _).
    apply (@part_le_fuel (g ++ str "Background:" ++ nl :: background_after b)
             (steps_lines_text (background_steps b)) r _ loc).
    - rewrite Hs. repeat (rewrite <- app_assoc; cbn [app]). reflexivity.
    - apply length_steps_lines_text_ge. }
  destruct (@BACKGROUND_DEFN_reaches _ _ loc Hr Hgap) as (l1 & Hd & Hr1).
  destruct (@steps_lines_chain _ Hsteps l1 r Hr1 Hend)
    as (ms & l2 & Hc & Htok & Hlen & Hr2).
  assert (Hstop : _parse STATEMENT fuel s l2 = ParseException)
    by now apply STATEMENT_stops with (r := r).
  assert (Hlen' : length ms <= fuel) by (rewrite Hlen; exact Hn).
  pose proof (@ZeroOrMore_intro STATEMENT fuel s l1 ms l2 Hc Hstop Hlen')
    as Hz.
  rewrite Htok in Hz.
  set (l3 := match ms with [] => preParse STATEMENT s l1 | _ :: _ => l2 end)
    in Hz.
  assert (Hr3 : reaches s l3 r).
  { unfold l3. destruct ms as [|m ms']; [|exact Hr2].
    inversion Hc; subst.
    assert (Hout : starts_outside DEFAULT_WHITE_CHARS r)
      by (destruct r as [|c r]; [exact I|apply Hend]).
    destruct (@reaches_skipped r l2 Hr2 Hout) as (A & B & C).
    now apply reaches_here. }
  exists l3. split; [|exact Hr3].
  unfold BACKGROUND, _parse.
  replace [background_object (map statement_of (background_steps b))]
    with (as_tokens
            (background_object (map statement_of (background_steps b))))
    by reflexivity.
  apply (@setParseAction_intro true _ (add_statements KBackground) fuel s loc
           (Block_init KBackground
            :: map statement_of (background_steps b)));
    [reflexivity| | |reflexivity].
  - eapply And_intro_eq with (t1 := [Block_init KBackground]) (l1 := l1);
      [exact Hd|exact Hz|reflexivity|reflexivity].
  - unfold add_statements.
    rewrite statements_of_are_statements. reflexivity.
Qed.

Lemma stringEnd_reaches loc :
  reaches s loc [] -> _parse stringEnd fuel s loc = Ok [] (S (length s)).
Proof.
  intros (g & Hg & Hs & _ & Hb).
  rewrite (@parse_reaches stringEnd fuel s g [] loc eq_refl eq_refl Hg Hs I).
  apply stringEnd_at; [|exact Hb]. now apply skipn_app_inv in Hs.
Qed.

Lemma stringEnd_stops (c : ascii) (r : text) loc :
  reaches s loc (c :: r) -> mem c DEFAULT_WHITE_CHARS = false ->
  _parse stringEnd fuel s loc = ParseException.
Proof.
  intros (g & Hg & Hs & _ & _) Hc.
  rewrite (@parse_reaches stringEnd fuel s g _ loc eq_refl eq_refl Hg Hs Hc).
  apply skipn_app_inv in Hs.
  rewrite (@parse_no_skip stringEnd fuel s _ _ Hs Hc).
  unfold parse_gen. cbn [stringEnd token_element parseImpl].
  apply skipn_bound in Hs. apply Nat.ltb_lt in Hs. now rewrite Hs.
Qed.

(** The header and the background, with whatever follows them. *)
Lemma FEATURE_head (f : FeatureLines) (r : text) :
  s = feature_lines_text f ++ r -> feature_lines_ok f ->
  ends_feature f r ->
  exists l,
    parse_gen true (And FEATURE_DEFN (Optional BACKGROUND)) fuel s 0
    = Ok (feature_lines_tree f) l
    /\ reaches s l r.
Proof.
  intros Es (Hlead & Htags & Hw & Hne & Hblack & Hline & Hafter & Hbg) Hend.
  set (rest := match feature_background f with
               | None => []
               | Some b => background_lines_text b
               end ++ r).
  assert (Hr0 : reaches s 0
                  (tags_text (feature_tags f) ++ str "Feature:"
                   ++ header_blank f ++ feature_name f
                   ++ (nl :: header_after f ++ rest))).
  { rewrite Es. unfold feature_lines_text, rest.
    repeat (rewrite <- app_assoc; cbn [app]).
    now apply reaches_start. }
  assert (Hname : starts_black (feature_name f
                                ++ nl :: header_after f ++ rest)).
  { destruct (feature_name f) as [|c n]; [congruence|exact Hblack]. }
  destruct (@FEATURE_DEFN_reaches (feature_tags f) (header_blank f)
              (feature_name f) (nl :: header_after f ++ rest) 0 Hr0 Htags
              Hw Hname Hline eq_refl) as (l1 & Hd & Hs1 & Hb1).
  assert (Hg1 : gap (nl :: header_after f))
    by (apply gap_cons; split; [reflexivity|exact Hafter]).
  assert (Hs1' : skipn l1 s = (nl :: header_after f) ++ rest) by exact Hs1.
  assert (Hr1 : reaches s l1 rest)
    by (apply reaches_gap with (g := nl :: header_after f);
        [exact Hs1'|discriminate|exact Hg1]).
  unfold feature_lines_tree, ends_feature in *.
  destruct (feature_background f) as [b|] eqn:Eb.
  - destruct (@BACKGROUND_reaches b r l1 Hr1 Hbg Hend) as (l2 & Hp & Hr2).
    exists l2. split; [|exact Hr2].
    eapply And_intro_eq with (l1 := l1);
      [exact Hd|apply Optional_some; exact Hp|reflexivity|reflexivity].
  - unfold rest in *. cbn [app] in *.
    assert (Hout : starts_outside DEFAULT_WHITE_CHARS r)
      by (destruct r as [|c r]; [exact I|apply Hend]).
    destruct (@reaches_skipped r l1 Hr1 Hout) as (A & B & C).
    exists (skip_white DEFAULT_WHITE_CHARS s l1). split.
    + eapply And_intro_eq with (l1 := l1) (t2 := []);
        [exact Hd| |reflexivity|reflexivity].
      apply Optional_none.
      now apply (@BACKGROUND_mismatch fuel s (nl :: header_after f) r l1).
    + now apply reaches_here.
Qed.

Lemma FEATURE_lines (f : FeatureLines) :
  s = feature_lines_text f -> feature_lines_ok f ->
  _parse FEATURE fuel s 0 = Ok (feature_lines_tree f) (S (length s)).
Proof.
  intros Es Hok.
  assert (Es' : s = feature_lines_text f ++ []) by now rewrite app_nil_r.
  assert (Hend : ends_feature f []).
  { unfold ends_feature. destruct (feature_background f); exact I. }
  destruct (@FEATURE_head f [] Es' Hok Hend) as (l & Hp & Hr).
  unfold FEATURE, _parse.
  eapply And_intro_eq with (l1 := l) (t2 := []);
    [exact Hp|now apply stringEnd_reaches|now rewrite app_nil_r|reflexivity].
Qed.

Lemma FEATURE_stray (f : FeatureLines) (r : text) :
  s = feature_lines_text f ++ r -> feature_lines_ok f ->
  ends_feature f r -> r <> [] ->
  _parse FEATURE fuel s 0 = ParseException.
Proof.
  intros Es Hok Hend Hne.
  destruct (@FEATURE_head f r Es Hok Hend) as (l & Hp & Hr).
  unfold FEATURE, _parse.
  eapply And_fail_second; [exact Hp|].
  destruct r as [|c r]; [congruence|].
  apply stringEnd_stops with (c := c) (r := r); [exact Hr|].
  unfold ends_feature in Hend.
  destruct (feature_background f); apply Hend.
Qed.

(** *** One tag to a line *)

Lemma line_white_not_printable (c : ascii) :
  mem c [sp; tab; cr] = true -> is_printable c = false.
Proof.
  destruct c as [[] [] [] [] [] [] [] []]; vm_compute; congruence.
Qed.

Lemma line_white_is_white (c : ascii) :
  mem c [sp; tab; cr] = true -> mem c DEFAULT_WHITE_CHARS = true.
Proof.
  destruct c as [[] [] [] [] [] [] [] []]; vm_compute; congruence.
Qed.

Lemma lineEnd_mismatch (c : ascii) (r : text) loc :
  skipn loc s = c :: r -> c <> nl ->
  parse_gen false lineEnd fuel s loc = ParseException.
Proof.
  intros Hs Hc. apply skipn_cons_inv in Hs. destruct Hs as (Hn & Hl & _).
  unfold parse_gen. cbn -[nth_error Nat.ltb Nat.eqb Ascii.eqb nl].
  apply Nat.ltb_lt in Hl. rewrite Hl, Hn.
  destruct (Ascii.eqb c nl) eqn:E; [|reflexivity].
  apply Ascii.eqb_eq in E. congruence.
Qed.

Lemma EOL_mismatch (w : text) (c : ascii) (r : text) loc :
  skipn loc s = w ++ c :: r ->
  forallb (fun x => mem x [sp; tab; cr]) w = true ->
  mem c [sp; tab; cr] = false -> c <> nl ->
  _parse EOL fuel s loc = ParseException.
Proof.
  intros Hs Hw Hc Hnl. unfold EOL, _parse. apply Suppress_fail.
  change (_parse lineEnd fuel s loc = ParseException).
  rewrite (@parse_skip lineEnd fuel s w (c :: r) loc eq_refl Hs Hw Hc).
  apply lineEnd_mismatch with (c := c) (r := r); [|exact Hnl].
  now apply skipn_app_inv.
Qed.

Lemma TAG_trailing (n w : text) (c : ascii) (r : text) loc :
  reaches s loc ("@"%char :: n ++ w ++ c :: r) ->
  tag_name n -> line_blank w ->
  mem c [sp; tab; cr] = false -> c <> nl ->
  _parse TAG fuel s loc = ParseException.
Proof.
  intros (g & Hg & Hs & _ & _) Hn [Hwne Hw] Hc Hnl.
  rewrite (@parse_reaches TAG fuel s g _ loc eq_refl eq_refl Hg Hs eq_refl).
  apply skipn_app_inv in Hs. set (p := loc + length g) in *.
  assert (Hs1 : skipn (p + 1) s = n ++ w ++ c :: r)
    by (apply (@skipn_app_inv s ["@"%char]); exact Hs).
  assert (Hs2 : skipn (p + 1 + length n) s = w ++ c :: r)
    by (apply skipn_app_inv; exact Hs1).
  unfold TAG, _parse. apply setParseAction_fail; [reflexivity|].
  apply And_fail_second with (t1 := [VStr n]) (l1 := p + 1 + length n);
    [|now apply EOL_mismatch with (w := w) (c := c) (r := r)].
  eapply And_intro_eq with (t1 := []) (t2 := [VStr n]) (l1 := p + 1);
    [| |reflexivity|reflexivity].
  - apply Suppress_intro with (t := [VStr (str "@")]).
    change (_parse (Literal (str "@")) fuel s p
            = Ok [VStr (str "@")] (p + 1)).
    rewrite (@parse_no_skip (Literal (str "@")) fuel s _ p Hs eq_refl).
    apply (@Literal_at (str "@") fuel s _ p Hs). discriminate.
  - rewrite (@parse_no_skip Word_printables fuel s _ (p + 1) Hs1
               (tag_name_starts _ Hn)).
    destruct Hn as [Hne Hp].
    apply Word_printables_at with (r := w ++ c :: r); auto.
    destruct w as [|x w]; [congruence|].
    cbn [app]. apply line_white_not_printable.
    cbn [forallb] in Hw. now apply andb_prop in Hw.
Qed.

Lemma FEATURE_KEYWORD_stops (c : ascii) (r : text) loc :
  reaches s loc (c :: r) ->
  mem c DEFAULT_WHITE_CHARS = false -> c <> "F"%char ->
  _parse FEATURE_KEYWORD fuel s loc = ParseException.
Proof.
  intros (g & Hg & Hs & _ & _) Hw Hc.
  rewrite (@parse_reaches FEATURE_KEYWORD fuel s g _ loc eq_refl eq_refl Hg
             Hs Hw).
  apply skipn_app_inv in Hs.
  unfold FEATURE_KEYWORD, _parse. apply Suppress_fail, And_fail, And_fail.
  change (_parse (Keyword (str "Feature")) fuel s (loc + length g)
          = ParseException).
  rewrite (@parse_no_skip (Keyword (str "Feature")) fuel s _ _ Hs Hw).
  apply Keyword_mismatch. rewrite Hs. congruence.
Qed.

Lemma FEATURE_bad_tag (lead : text) (tags : list TagLine) (n w : text)
    (c : ascii) (r : text) :
  s = lead ++ tags_text tags ++ "@"%char :: n ++ w ++ c :: r ->
  gap lead -> Forall tag_line_ok tags ->
  tag_name n -> line_blank w ->
  mem c [sp; tab; cr] = false -> c <> nl ->
  _parse FEATURE fuel s 0 = ParseException.
Proof.
  intros Es Hlead Htags Hn Hw Hc Hnl.
  set (rest := "@"%char :: n ++ w ++ c :: r) in *.
  assert (Hr0 : reaches s 0 (tags_text tags ++ rest))
    by (rewrite Es; now apply reaches_start).
  assert (Hlen0 : length tags <= fuel).
  { destruct Hr0 as (g & _ & Hs & _).
    apply (@part_le_fuel g (tags_text tags) _ _ 0 Hs).
    apply length_tags_text_ge. }
  destruct (@tags_chain tags Htags 0 _ Hr0)
    as (ms & l1 & Hch & Htok & Hlen & _ & Hr1).
  assert (Hstop : _parse TAG fuel s l1 = ParseException)
    by now apply TAG_trailing with (n := n) (w := w) (c := c) (r := r).
  assert (Hlen' : length ms <= fuel) by (rewrite Hlen; exact Hlen0).
  pose proof (@ZeroOrMore_intro TAG fuel s 0 ms l1 Hch Hstop Hlen') as Hz.
  set (l2 := match ms with [] => preParse TAG s 0 | _ :: _ => l1 end) in Hz.
  assert (Hr2 : reaches s l2 rest).
  { unfold l2. destruct ms as [|m ms']; [|exact Hr1].
    assert (E : l1 = 0) by (inversion Hch; lia). rewrite E in Hr1.
    destruct (@reaches_skipped rest 0 Hr1 eq_refl) as (A & B & C).
    now apply reaches_here. }
  assert (Hk : _parse FEATURE_KEYWORD fuel s l2 = ParseException)
    by (apply FEATURE_KEYWORD_stops with (c := "@"%char) (r := n ++ w ++ c :: r);
        [exact Hr2|reflexivity|discriminate]).
  unfold FEATURE, _parse. apply And_fail, And_fail.
  unfold FEATURE_DEFN. apply setParseAction_fail; [reflexivity|].
  apply And_fail. eapply And_fail_second; [exact Hz|exact Hk].
Qed.

End Layout.

(** ** The parser ends well on every input *)

Lemma ok_in_ends_well loc d post r : ok_in loc d post r -> ends_well r.
Proof. destruct r; simpl; tauto. Qed.

Lemma ok_in_weaken loc loc' d d' post post' r :
  ok_in loc d post r -> loc' + d' <= loc + d -> post <= post' ->
  ok_in loc' d' post' r.
Proof. destruct r; simpl; intros; try tauto. lia. Qed.

Lemma length_take_while_le (p : ascii -> bool) (l : text) :
  length (take_while p l) <= length l.
Proof.
  induction l as [|c r IH]; simpl; [lia|].
  destruct (p c); simpl; lia.
Qed.

Lemma skip_white_bound wt s loc pre :
  length s <= pre -> loc <= pre -> skip_white wt s loc <= pre.
Proof.
  intros Hs Hl. unfold skip_white.
  pose proof (length_take_while_le (fun c => mem c wt) (skipn loc s)) as H.
  rewrite length_skipn in H. lia.
Qed.

Lemma startswith_length (m l : text) :
  startswith m l = true -> length m <= length l.
Proof.
  revert l. induction m as [|a m IH]; intros [|b l] H; simpl in *;
    try lia; try discriminate.
  apply andb_prop in H. destruct H as [_ H]. apply IH in H. lia.
Qed.

Section Safety.

Variables (fuel : nat) (s : text).
Hypothesis Hfuel : length s + 2 <= fuel.

Lemma keeps_weaken e d d' pre pre' post post' :
  keeps fuel s e d pre post ->
  d' <= d -> pre' <= pre -> post <= post' ->
  keeps fuel s e d' pre' post'.
Proof.
  intros H Hd Hpre Hpost loc Hloc.
  apply ok_in_weaken with (loc := loc) (d := d) (post := post);
    [apply H|..]; lia.
Qed.

(** With the whitespace in front skipped first. *)
Lemma keeps_parse e d pre post loc :
  keeps fuel s e d pre post -> length s <= pre -> loc <= pre ->
  ok_in loc d post (_parse e fuel s loc).
Proof.
  intros H Hs Hloc. rewrite parse_gen_pre.
  assert (Hp : loc <= preParse e s loc /\ preParse e s loc <= pre).
  { unfold preParse. destruct (skipWhitespace e); [|lia].
    split; [apply skip_white_le|now apply skip_white_bound]. }
  apply ok_in_weaken with (loc := preParse e s loc) (d := d) (post := post);
    [apply H|..]; lia.
Qed.

Lemma keeps_impl e d pre post :
  parseAction e = None ->
  (forall loc, loc <= pre -> ok_in loc d post (parseImpl e fuel s loc)) ->
  keeps fuel s e d pre post.
Proof.
  intros Ha H loc Hloc. specialize (H loc Hloc).
  unfold parse_gen. rewrite Ha.
  destruct (parseImpl e fuel s loc); exact H.
Qed.

(** *** Tokens *)

Lemma skipn_cons_lt (loc : nat) (c : ascii) (r : text) :
  skipn loc s = c :: r -> loc < length s.
Proof.
  intros H. assert (L : length (skipn loc s) = S (length r)) by now rewrite H.
  rewrite length_skipn in L. lia.
Qed.

Lemma keeps_Literal m pre :
  m <> [] -> keeps fuel s (Literal m) 1 pre (length s).
Proof.
  intros Hm. apply keeps_impl; [reflexivity|]. intros loc _.
  cbn [Literal token_element parseImpl].
  destruct (skipn loc s) as [|c r] eqn:E; [exact I|].
  destruct (startswith m (c :: r)) eqn:Hst; [|exact I].
  apply startswith_length in Hst. rewrite <- E, length_skipn in Hst.
  destruct m; [congruence|]. simpl in *. lia.
Qed.

Lemma keeps_Keyword m pre :
  m <> [] -> keeps fuel s (Keyword m) 1 pre (length s).
Proof.
  intros Hm. apply keeps_impl; [reflexivity|]. intros loc _.
  cbn [Keyword token_element parseImpl].
  destruct (skipn loc s) as [|c r] eqn:E; [exact I|].
  match goal with |- ok_in _ _ _ (if ?b then _ else _) =>
    destruct b eqn:Hb end; [|exact I].
  apply andb_prop in Hb. destruct Hb as [Hb _].
  apply andb_prop in Hb. destruct Hb as [Hst _].
  apply startswith_length in Hst. rewrite <- E, length_skipn in Hst.
  destruct m; [congruence|]. simpl in *. lia.
Qed.

Lemma ok_in_take_while (p : ascii -> bool) loc :
  ok_in loc 1 (length s)
    match take_while p (skipn loc s) with
    | [] => ParseException
    | c :: w => Ok [VStr (c :: w)] (loc + length (c :: w))
    end.
Proof.
  pose proof (length_take_while_le p (skipn loc s)) as H.
  rewrite length_skipn in H.
  destruct (take_while p (skipn loc s)) as [|c w]; [exact I|].
  simpl in *. lia.
Qed.

Lemma keeps_Word_printables pre :
  keeps fuel s Word_printables 1 pre (length s).
Proof.
  apply keeps_impl; [reflexivity|]. intros loc _.
  apply (ok_in_take_while is_printable).
Qed.

Lemma keeps_CharsNotIn notChars pre :
  keeps fuel s (CharsNotIn notChars) 1 pre (length s).
Proof.
  apply keeps_impl; [reflexivity|]. intros loc _.
  apply (ok_in_take_while (fun c => negb (mem c notChars))).
Qed.

Lemma keeps_White pre : keeps fuel s White 1 pre (length s).
Proof.
  apply keeps_impl; [reflexivity|]. intros loc _.
  apply (ok_in_take_while (fun c => mem c [sp; tab; cr; nl])).
Qed.

Lemma keeps_lineEnd pre : keeps fuel s lineEnd 1 pre (S (length s)).
Proof.
  apply keeps_impl; [reflexivity|]. intros loc _.
  cbn [lineEnd parseImpl].
  destruct (loc <? length s) eqn:Hlt.
  - apply Nat.ltb_lt in Hlt.
    destruct (nth_error s loc) as [c|]; [|exact I].
    destruct (Ascii.eqb c nl); [|exact I]. simpl. lia.
  - destruct (loc =? length s) eqn:Heq; [|exact I].
    apply Nat.eqb_eq in Heq. simpl. lia.
Qed.

Lemma keeps_restOfLine : keeps fuel s restOfLine 0 (length s) (length s).
Proof.
  apply keeps_impl; [reflexivity|]. intros loc Hloc.
  cbn [restOfLine parseImpl]. rewrite (Nat.min_l _ _ Hloc).
  pose proof (length_take_while_le (fun c => negb (Ascii.eqb c nl))
                (skipn loc s)) as H.
  rewrite length_skipn in H. simpl. lia.
Qed.

Lemma keeps_stringEnd :
  keeps fuel s stringEnd 0 (S (length s)) (S (length s)).
Proof.
  apply keeps_impl; [reflexivity|]. intros loc Hloc.
  cbn [stringEnd token_element parseImpl].
  destruct (loc <? length s) eqn:Hlt; [exact I|].
  apply Nat.ltb_ge in Hlt.
  destruct (loc =? length s) eqn:Heq; simpl; [|lia].
  apply Nat.eqb_eq in Heq. lia.
Qed.

(** *** Expressions *)

Lemma keeps_And e1 e2 d1 d2 pre mid post :
  keeps fuel s e1 d1 pre mid -> keeps fuel s e2 d2 mid post ->
  length s <= mid ->
  keeps fuel s (And e1 e2) (d1 + d2) pre post.
Proof.
  intros H1 H2 Hs. apply keeps_impl; [reflexivity|]. intros loc Hloc.
  cbn [And enhance parseImpl]. specialize (H1 loc Hloc).
  destruct (parse_gen false e1 fuel s loc) as [t1 l1| | |];
    try exact H1.
  destruct H1 as [Hd Hm].
  pose proof (@keeps_parse e2 d2 mid post l1 H2 Hs Hm) as H.
  destruct (_parse e2 fuel s l1) as [t2 l2| | |]; try exact H.
  simpl in *. lia.
Qed.

Lemma keeps_MatchFirst e1 e2 d pre post :
  keeps fuel s e1 d pre post -> keeps fuel s e2 d pre post ->
  length s <= pre ->
  keeps fuel s (MatchFirst e1 e2) d pre post.
Proof.
  intros H1 H2 Hs. apply keeps_impl; [reflexivity|]. intros loc Hloc.
  cbn [MatchFirst parseImpl].
  pose proof (@keeps_parse e1 d pre post loc H1 Hs Hloc) as A.
  pose proof (@keeps_parse e2 d pre post loc H2 Hs Hloc) as B.
  destruct (_parse e1 fuel s loc); try exact A. exact B.
Qed.

Lemma keeps_Optional e d pre post :
  keeps fuel s e d pre post -> pre <= post ->
  keeps fuel s (Optional e) 0 pre post.
Proof.
  intros H Hp. apply keeps_impl; [reflexivity|]. intros loc Hloc.
  cbn [Optional enhance parseImpl]. specialize (H loc Hloc).
  destruct (parse_gen false e fuel s loc); simpl in *; try exact H; lia.
Qed.

Lemma keeps_post e post' d pre post :
  keeps fuel s e d pre post ->
  keeps fuel s (enhance e (parse_gen false e) post') d pre post.
Proof.
  intros H. apply keeps_impl; [reflexivity|]. intros loc Hloc.
  cbn [enhance parseImpl]. exact (H loc Hloc).
Qed.

Lemma keeps_Suppress e d pre post :
  keeps fuel s e d pre post -> keeps fuel s (Suppress e) d pre post.
Proof. apply keeps_post. Qed.

Lemma keeps_Group e d pre post :
  keeps fuel s e d pre post -> keeps fuel s (Group e) d pre post.
Proof. apply keeps_post. Qed.

Lemma keeps_setParseAction e fn d pre post :
  parseAction e = None ->
  keeps fuel s e d pre post ->
  (forall loc ret l, parse_gen false e fuel s loc = Ok ret l ->
                     fn ret <> None) ->
  keeps fuel s (setParseAction e fn) d pre post.
Proof.
  intros Ha H Hfn loc Hloc. specialize (H loc Hloc).
  specialize (Hfn loc). revert H Hfn.
  unfold parse_gen. rewrite Ha.
  cbn [setParseAction parseImpl postParse parseAction].
  destruct (parseImpl e fuel s loc) as [toks l| | |]; try tauto.
  intros H Hfn. specialize (Hfn _ _ eq_refl).
  destruct (fn (postParse e toks)); [exact H|congruence].
Qed.

(** The loop stops before its budget is used up: every round moves on by
    one position at least, and no match ends after position [p]. *)
Lemma keeps_repeat_loop e p :
  keeps fuel s e 1 p p -> length s <= p ->
  forall budget loc tokens,
    loc <= p -> p < budget + loc ->
    ok_in loc 0 p (repeat_loop e budget fuel s loc tokens).
Proof.
  intros H Hs. induction budget as [|b IH]; intros loc tokens Hloc Hb.
  - lia.
  - cbn [repeat_loop].
    pose proof (@keeps_parse e 1 p p loc H Hs Hloc) as A.
    destruct (_parse e fuel s loc) as [t l| | |]; try exact A.
    + destruct A as [A1 A2].
      apply ok_in_weaken with (loc := l) (d := 0) (post := p);
        [apply IH|..]; lia.
    + simpl. lia.
Qed.

Lemma keeps_OneOrMore e p :
  keeps fuel s e 1 p p -> length s <= p -> p <= S (length s) ->
  keeps fuel s (OneOrMore e) 1 p p.
Proof.
  intros H Hs Hp. apply keeps_impl; [reflexivity|]. intros loc Hloc.
  cbn [OneOrMore enhance parseImpl]. pose proof (H loc Hloc) as A.
  destruct (parse_gen false e fuel s loc) as [t l| | |]; try exact A.
  destruct A as [A1 A2].
  apply ok_in_weaken with (loc := l) (d := 0) (post := p);
    [apply keeps_repeat_loop; try assumption|..]; lia.
Qed.

Lemma keeps_ZeroOrMore e p :
  keeps fuel s e 1 p p -> length s <= p -> p <= S (length s) ->
  keeps fuel s (ZeroOrMore e) 0 p p.
Proof.
  intros H Hs Hp. apply keeps_impl; [reflexivity|]. intros loc Hloc.
  cbn [ZeroOrMore enhance parseImpl]. pose proof (H loc Hloc) as A.
  destruct (parse_gen false e fuel s loc) as [t l| | |]; try exact A.
  - destruct A as [A1 A2].
    apply ok_in_weaken with (loc := l) (d := 0) (post := p);
      [apply keeps_repeat_loop; try assumption|..]; lia.
  - simpl. lia.
Qed.

(** *** What the repetitions collect *)

Lemma repeat_loop_Forall (P : value -> Prop) e :
  (forall l0 t l, _parse e fuel s l0 = Ok t l -> Forall P t) ->
  forall budget loc acc toks loc',
    Forall P acc ->
    repeat_loop e budget fuel s loc acc = Ok toks loc' -> Forall P toks.
Proof.
  intros He. induction budget as [|b IH]; intros loc acc toks loc' Hacc H;
    [discriminate|].
  cbn [repeat_loop] in H.
  destruct (_parse e fuel s loc) as [t l| | |] eqn:E; try discriminate.
  - apply IH in H; [exact H|].
    apply Forall_app. split; [exact Hacc|exact (He _ _ _ E)].
  - now injection H as <- <-.
Qed.

Lemma OneOrMore_Forall (P : value -> Prop) e loc toks loc' :
  (forall b l0 t l, parse_gen b e fuel s l0 = Ok t l -> Forall P t) ->
  parse_gen false (OneOrMore e) fuel s loc = Ok toks loc' -> Forall P toks.
Proof.
  intros He H. unfold parse_gen in H at 1.
  cbn [OneOrMore enhance parseImpl postParse parseAction] in H.
  destruct (parse_gen false e fuel s loc) as [t l| | |] eqn:E;
    try discriminate.
  destruct (repeat_loop e fuel fuel s l t) as [t' l'| | |] eqn:R;
    try discriminate.
  injection H as <- <-.
  apply (@repeat_loop_Forall P e (He true) _ _ _ _ _ (He _ _ _ _ E) R).
Qed.

Lemma ZeroOrMore_Forall (P : value -> Prop) e loc toks loc' :
  (forall b l0 t l, parse_gen b e fuel s l0 = Ok t l -> Forall P t) ->
  parse_gen false (ZeroOrMore e) fuel s loc = Ok toks loc' -> Forall P toks.
Proof.
  intros He H. unfold parse_gen in H at 1.
  cbn [ZeroOrMore enhance parseImpl postParse parseAction] in H.
  destruct (parse_gen false e fuel s loc) as [t l| | |] eqn:E;
    try discriminate.
  - destruct (repeat_loop e fuel fuel s l t) as [t' l'| | |] eqn:R;
      try discriminate.
    injection H as <- <-.
    apply (@repeat_loop_Forall P e (He true) _ _ _ _ _ (He _ _ _ _ E) R).
  - injection H as <- <-. constructor.
Qed.

(** *** The grammar *)

Lemma keeps_EOL pre : keeps fuel s EOL 1 pre (S (length s)).
Proof. apply keeps_Suppress, keeps_lineEnd. Qed.

Lemma Tag_some (ret : list value) : ret <> [] -> Tag ret <> None.
Proof. destruct ret; [congruence|discriminate]. Qed.

Lemma keeps_TAG : keeps fuel s TAG 1 (S (length s)) (S (length s)).
Proof.
  unfold TAG. apply keeps_setParseAction; [reflexivity| |].
  - apply keeps_weaken with (d := 1 + 1 + 1) (pre := S (length s))
                            (post := S (length s)); try lia.
    apply keeps_And with (mid := length s); [|apply keeps_EOL|lia].
    apply keeps_And with (mid := length s); [| |lia].
    + apply keeps_Suppress, keeps_Literal. discriminate.
    + apply keeps_Word_printables.
  - intros loc ret l H. apply Tag_some.
    apply And_Ok in H. destruct H as (t1 & l1 & t2 & H1 & _ & ->).
    apply And_Ok in H1. destruct H1 as (ta & la & tw & _ & Hw & ->).
    apply Word_printables_Ok in Hw. destruct Hw as (w & -> & _).
    now destruct ta.
Qed.

Lemma TAG_is_tag b loc toks loc' :
  parse_gen b TAG fuel s loc = Ok toks loc' ->
  Forall (fun v => isinstance v KTag = true) toks.
Proof.
  intros H. apply TAG_Ok in H. destruct H as (name & -> & _).
  repeat constructor.
Qed.

Lemma keeps_FEATURE_KEYWORD :
  keeps fuel s FEATURE_KEYWORD 1 (S (length s)) (length s).
Proof.
  unfold FEATURE_KEYWORD. apply keeps_Suppress.
  apply keeps_weaken with (d := 1 + 1 + 1) (pre := S (length s))
                          (post := length s); try lia.
  apply keeps_And with (mid := length s); [|apply keeps_White|lia].
  apply keeps_And with (mid := length s); [| |lia].
  - apply keeps_Keyword. discriminate.
  - apply keeps_Literal. discriminate.
Qed.

Lemma Feature_some (tags : list value) (name : value) :
  Forall (fun v => isinstance v KTag = true) tags ->
  Feature (tags ++ [name]) <> None.
Proof.
  intros H. unfold Feature, TaggedBlock_init.
  rewrite rev_app_distr, removelast_last. cbn [rev app].
  replace (forallb (fun tag => isinstance tag KTag) tags) with true;
    [discriminate|].
  symmetry. apply forallb_forall. now apply Forall_forall.
Qed.

Lemma keeps_FEATURE_DEFN :
  keeps fuel s FEATURE_DEFN 0 (S (length s)) (length s).
Proof.
  unfold FEATURE_DEFN. apply keeps_setParseAction; [reflexivity| |].
  - apply keeps_weaken with (d := 0 + 1 + 0) (pre := S (length s))
                            (post := length s); try lia.
    apply keeps_And with (mid := length s); [|apply keeps_restOfLine|lia].
    apply keeps_And with (mid := S (length s));
      [|apply keeps_FEATURE_KEYWORD|lia].
    apply keeps_ZeroOrMore; [apply keeps_TAG|lia|lia].
  - intros loc ret l H.
    apply And_Ok in H. destruct H as (t1 & l1 & t2 & H1 & H2 & ->).
    apply And_Ok in H1. destruct H1 as (tags & la & tk & Ht & Hk & ->).
    apply Suppress_Ok in Hk. destruct Hk as [-> _].
    apply restOfLine_Ok in H2. destruct H2 as (w & -> & _).
    rewrite app_nil_r. apply Feature_some.
    eapply ZeroOrMore_Forall; [|exact Ht].
    intros b l0 t l'. apply TAG_is_tag.
Qed.

Lemma keeps_TABLE_CELL : keeps fuel s TABLE_CELL 1 (length s) (length s).
Proof.
  unfold TABLE_CELL.
  apply keeps_weaken with (d := 1 + 1) (pre := length s) (post := length s);
    try lia.
  apply keeps_And with (mid := length s); [| |lia].
  - apply keeps_CharsNotIn.
  - apply keeps_Suppress, keeps_Literal. discriminate.
Qed.

Lemma strip_all_some (tokens : list value) :
  Forall (fun v => exists w, v = VStr w) tokens -> strip_all tokens <> None.
Proof.
  intros H. unfold strip_all.
  match goal with |- match ?g tokens with _ => _ end <> None =>
    assert (G : g tokens <> None) end.
  { induction H as [|v r (w & ->) _ IH]; [discriminate|].
    cbn. match goal with |- match ?x with _ => _ end <> None =>
      destruct x end; [discriminate|congruence]. }
  match goal with |- match ?x with _ => _ end <> None =>
    destruct x end; [discriminate|congruence].
Qed.

Lemma keeps_TABLE_ROW :
  keeps fuel s TABLE_ROW 1 (S (length s)) (S (length s)).
Proof.
  unfold TABLE_ROW. apply keeps_setParseAction; [reflexivity| |].
  - apply keeps_weaken with (d := 1 + 1 + 1) (pre := S (length s))
                            (post := S (length s)); try lia.
    apply keeps_And with (mid := length s); [|apply keeps_EOL|lia].
    apply keeps_And with (mid := length s); [| |lia].
    + apply keeps_Suppress, keeps_Literal. discriminate.
    + apply keeps_OneOrMore; [apply keeps_TABLE_CELL|lia|lia].
  - intros loc ret l H.
    apply And_Ok in H. destruct H as (t1 & l1 & t2 & H1 & H2 & ->).
    apply And_Ok in H1. destruct H1 as (tb & lb & cells & Hb & Hc & ->).
    apply Suppress_Ok in Hb. destruct Hb as [-> _].
    apply Suppress_Ok in H2. destruct H2 as [-> _].
    rewrite app_nil_r. cbn [app]. apply strip_all_some.
    rewrite parse_gen_pre in Hc.
    eapply OneOrMore_Forall; [|exact Hc].
    intros b l0 t l' Ht. apply TABLE_CELL_Ok in Ht.
    destruct Ht as (w & ->). repeat constructor. now exists w.
Qed.

Lemma keeps_TABLE : keeps fuel s TABLE 1 (S (length s)) (S (length s)).
Proof.
  unfold TABLE, setResultsName. apply keeps_Group.
  apply keeps_OneOrMore; [ |lia|lia].
  apply keeps_Group, keeps_TABLE_ROW.
Qed.

Lemma keeps_STATEMENT_sentence :
  keeps fuel s STATEMENT_sentence 1 (S (length s)) (length s).
Proof.
  unfold STATEMENT_sentence.
  apply keeps_weaken with (d := 1 + 0) (pre := S (length s))
                          (post := length s); try lia.
  apply keeps_And with (mid := length s); [|apply keeps_restOfLine|lia].
  repeat (apply keeps_MatchFirst; [| |lia]);
    apply keeps_Keyword; discriminate.
Qed.

Lemma Statement_some (keyword rest : text) (data : list value) :
  data = [] \/ (exists rows, data = [VResults rows]) ->
  Statement ([VStr keyword; VStr rest] ++ data) <> None.
Proof. intros [->|(rows & ->)]; discriminate. Qed.

Lemma keeps_STATEMENT :
  keeps fuel s STATEMENT 1 (S (length s)) (S (length s)).
Proof.
  unfold STATEMENT. apply keeps_setParseAction; [reflexivity| |].
  - apply keeps_weaken with (d := 1 + 0) (pre := S (length s))
                            (post := S (length s)); try lia.
    apply keeps_And with (mid := length s);
      [apply keeps_STATEMENT_sentence| |lia].
    apply keeps_Optional with (d := 1); [|lia].
    apply keeps_weaken with (d := 1) (pre := S (length s))
                            (post := S (length s)); try lia.
    apply keeps_TABLE.
  - intros loc ret l H.
    apply And_Ok in H. destruct H as (t1 & l1 & t2 & H1 & H2 & ->).
    apply STATEMENT_sentence_Ok in H1.
    destruct H1 as (keyword & rest & -> & _).
    apply Statement_some.
    apply Optional_Ok in H2. destruct H2 as [H2|(_ & -> & _)]; [|now left].
    apply TABLE_Ok in H2. destruct H2 as (rows & -> & _).
    right. now exists rows.
Qed.

Lemma keeps_BACKGROUND_DEFN :
  keeps fuel s BACKGROUND_DEFN 1 (S (length s)) (S (length s)).
Proof.
  unfold BACKGROUND_DEFN. apply keeps_setParseAction; [reflexivity| |].
  - apply keeps_Suppress.
    apply keeps_weaken with (d := 1 + 1 + 1) (pre := S (length s))
                            (post := S (length s)); try lia.
    apply keeps_And with (mid := length s); [|apply keeps_EOL|lia].
    apply keeps_And with (mid := length s); [| |lia].
    + apply keeps_Keyword. discriminate.
    + apply keeps_Literal. discriminate.
  - intros loc ret l _. discriminate.
Qed.

Lemma add_statements_some (k : klass) (d : list (string * value))
    (statements : list value) :
  Forall (fun v => isinstance v KStatement = true) statements ->
  add_statements KBackground ([VObj KBackground d] ++ statements) <> None.
Proof.
  intros H. unfold add_statements. cbn [app isinstance klass_eqb andb].
  replace (forallb (fun token => isinstance token KStatement) statements)
    with true; [discriminate|].
  symmetry. apply forallb_forall. now apply Forall_forall.
Qed.

Lemma keeps_BACKGROUND :
  keeps fuel s BACKGROUND 1 (S (length s)) (S (length s)).
Proof.
  unfold BACKGROUND. apply keeps_setParseAction; [reflexivity| |].
  - apply keeps_weaken with (d := 1 + 0) (pre := S (length s))
                            (post := S (length s)); try lia.
    apply keeps_And with (mid := S (length s));
      [apply keeps_BACKGROUND_DEFN| |lia].
    apply keeps_ZeroOrMore; [apply keeps_STATEMENT|lia|lia].
  - intros loc ret l H.
    apply And_Ok in H. destruct H as (t1 & l1 & t2 & H1 & H2 & ->).
    apply setParseAction_Ok in H1; [|reflexivity].
    destruct H1 as (ret1 & v1 & _ & Hv1 & ->).
    unfold Background in Hv1. injection Hv1 as <-.
    apply (@add_statements_some KBackground).
    rewrite parse_gen_pre in H2.
    eapply ZeroOrMore_Forall; [|exact H2].
    intros b l0 t l' Ht. apply STATEMENT_is_statement in Ht.
    destruct Ht as (st & -> & Hst). repeat constructor.
    now apply is_statement_instance.
Qed.

Lemma keeps_FEATURE :
  keeps fuel s FEATURE 0 (S (length s)) (S (length s)).
Proof.
  unfold FEATURE.
  apply keeps_weaken with (d := 0 + 0 + 0) (pre := S (length s))
                          (post := S (length s)); try lia.
  apply keeps_And with (mid := S (length s)); [|apply keeps_stringEnd|lia].
  apply keeps_And with (mid := S (length s)); [| |lia].
  - apply keeps_weaken with (d := 0) (pre := S (length s))
                            (post := length s); try lia.
    apply keeps_FEATURE_DEFN.
  - apply keeps_Optional with (d := 1); [apply keeps_BACKGROUND|lia].
Qed.

End Safety.

(** * Properties of the runner and of the engine *)

Module EngineFacts.
Import Engine EngineSpec.

Lemma count_app p (a b : list Event) :
  count p (a ++ b) = count p a + count p b.
Proof. unfold count. now rewrite filter_app, length_app. Qed.

Lemma dispatched_app (a b : list Event) :
  dispatched (a ++ b) = dispatched a ++ dispatched b.
Proof. unfold dispatched. apply flat_map_app. Qed.

Lemma count_cons p (e : Event) (t : list Event) :
  count p (e :: t) = (if p e then 1 else 0) + count p t.
Proof. unfold count. simpl. now destruct (p e). Qed.

Lemma count_nil p : count p [] = 0.
Proof. reflexivity. Qed.

Lemma dispatched_cons (e : Event) (t : list Event) :
  dispatched (e :: t)
  = match e with dispatch st => [st] | _ => [] end ++ dispatched t.
Proof. reflexivity. Qed.

Lemma dispatched_nil : dispatched [] = [].
Proof. reflexivity. Qed.

Lemma count_flat_map_const p (f : Step -> list Event) n (l : list Step) :
  (forall st, count p (f st) = n) ->
  count p (flat_map f l) = n * length l.
Proof.
  intros H. induction l as [|x r IH]; simpl; [now rewrite Nat.mul_0_r|].
  rewrite count_app, H, IH, Nat.mul_succ_r. lia.
Qed.

Lemma dispatched_step_events (l : list Step) :
  dispatched (flat_map step_events l) = l.
Proof. induction l as [|x r IH]; simpl; [reflexivity|now rewrite IH]. Qed.

Lemma dispatched_skipped_events (l : list Step) :
  dispatched (flat_map skipped_events l) = [].
Proof. induction l as [|x r IH]; simpl; [reflexivity|exact IH]. Qed.

Create Rewrite HintDb events.
#[export] Hint Rewrite count_app count_cons count_nil dispatched_app
  dispatched_cons dispatched_nil dispatched_step_events
  dispatched_skipped_events : events.

Section Run.

Variable execute : Step -> Dispatch.
Variable resolve : Row -> Step -> Step.
Variable failfast : bool.

Lemma run_step_passed st :
  run_step execute passed st = (status_of (execute st), step_events st).
Proof. reflexivity. Qed.

Lemma run_step_skipped so_far st :
  is_passed so_far = false ->
  run_step execute so_far st = (so_far, skipped_events st).
Proof. intros H. unfold run_step. now rewrite H. Qed.

(** Steps that pass are all dispatched, and the walk goes on. *)
Lemma run_steps_pass pre rest :
  Forall (fun st => execute st = Returned) pre ->
  run_steps execute failfast passed (pre ++ rest)
  = (fst (run_steps execute failfast passed rest),
     flat_map step_events pre
     ++ snd (run_steps execute failfast passed rest)).
Proof.
  induction 1 as [|st pre Hst _ IH]; cbn [app flat_map run_steps].
  - now destruct (run_steps execute failfast passed rest).
  - rewrite run_step_passed, Hst. cbn [status_of bind].
    unfold stop. rewrite andb_false_r. rewrite IH. reflexivity.
Qed.

Lemma run_steps_all_pass steps :
  Forall (fun st => execute st = Returned) steps ->
  run_steps execute failfast passed steps
  = (passed, flat_map step_events steps).
Proof.
  intros H. rewrite <- (app_nil_r steps) at 1.
  rewrite run_steps_pass by assumption. simpl. now rewrite app_nil_r.
Qed.

(** After a failure, without fail-fast: hooks only. *)
Lemma run_steps_skipped so_far steps :
  is_passed so_far = false ->
  run_steps execute false so_far steps
  = (so_far, flat_map skipped_events steps).
Proof.
  intros Hs. induction steps as [|st rest IH];
    cbn [flat_map run_steps]; [reflexivity|].
  rewrite run_step_skipped by assumption. cbn [bind].
  unfold stop. cbn [andb]. rewrite IH. reflexivity.
Qed.

(** The step that does not pass. *)
Lemma run_steps_failing st rest :
  is_passed (status_of (execute st)) = false ->
  run_steps execute failfast passed (st :: rest)
  = (status_of (execute st),
     step_events st
     ++ (if failfast then [] else flat_map skipped_events rest)).
Proof.
  intros H. cbn [run_steps]. rewrite run_step_passed. cbn [bind].
  unfold stop. rewrite H. destruct failfast; cbn [andb negb].
  - reflexivity.
  - rewrite run_steps_skipped by assumption. reflexivity.
Qed.

(** The examples of an outline whose steps all pass. *)
Lemma run_examples_all_pass p a k bg templates :
  (forall st, execute st = Returned) ->
  (forall st, count p (step_events st) = a) ->
  (forall i, count p [after_outline i] = k) ->
  forall examples index so_far,
    count p (snd (run_examples execute resolve failfast bg templates
                    index so_far examples))
    = (a * (length bg + length templates) + k) * length examples.
Proof.
  intros Hpass Hp Hk. induction examples as [|row rest IH];
    intros index so_far; cbn [run_examples length].
  - now rewrite Nat.mul_0_r.
  - rewrite run_steps_all_pass
      by (apply Forall_forall; intros st _; apply Hpass).
    cbn [bind emit]. unfold stop. rewrite andb_false_r.
    specialize (IH (S index) (combine so_far passed)).
    destruct (run_examples execute resolve failfast bg templates
                (S index) (combine so_far passed) rest) as [s t].
    cbn [snd] in *. rewrite !count_app, IH, Hk.
    rewrite (count_flat_map_const p step_events (n := a)) by assumption.
    rewrite length_app, length_map, Nat.mul_succ_r. cbn. lia.
Qed.

(** The events around the examples of a feature with one outline. *)
Lemma run_feature_outline_trace bg templates examples :
  trace (run_feature execute resolve failfast
           (outline_feature bg templates examples))
  = [before_each_feature; before_each_scenario; before_outline]
    ++ snd (run_examples execute resolve failfast bg templates 1 passed
              examples)
    ++ [after_each_scenario; after_each_feature].
Proof.
  unfold trace, run_feature, outline_feature.
  cbn [background scenarios run_scenarios run_scenario bind emit ret].
  destruct (run_examples execute resolve failfast bg templates 1 passed
              examples) as [s tr].
  cbn [snd fst bind ret app emit].
  destruct (stop failfast s); cbn [snd fst bind ret app];
    rewrite ?app_nil_r, <- ?app_assoc; reflexivity.
Qed.

(** The events around the steps of a feature with one scenario. *)
Lemma run_feature_scenario_trace steps :
  run_feature execute resolve failfast (scenario_feature steps)
  = (fst (run_steps execute failfast passed steps),
     [before_each_feature; before_each_scenario]
     ++ snd (run_steps execute failfast passed steps)
     ++ [after_each_scenario; after_each_feature]).
Proof.
  unfold run_feature, scenario_feature.
  cbn [background scenarios run_scenarios run_scenario bind emit ret app].
  destruct (run_steps execute failfast passed steps) as [s tr].
  cbn [snd fst bind ret app emit].
  destruct (stop failfast s); cbn [snd fst bind ret app combine is_passed];
    rewrite ?app_nil_r, <- ?app_assoc; reflexivity.
Qed.

End Run.

Lemma count_after_step_of_absent x f :
  (forall st, f st = step_events st \/ f st = skipped_events st) ->
  forall l, ~ In x l -> count (is_after_step_of x) (flat_map f l) = 0.
Proof.
  intros Hf. induction l as [|st r IH]; intros Hx; [reflexivity|].
  cbn [flat_map]. rewrite count_app, IH by (intros H; apply Hx; now right).
  assert (String.eqb x st = false) as E
    by (apply String.eqb_neq; intros ->; apply Hx; now left).
  destruct (Hf st) as [-> | ->]; unfold count; cbn; now rewrite E.
Qed.

End EngineFacts.

(** ** Facts about the options of the test program *)

Module ProgramFacts.
Import Program.

Section Kwargs.

Variable V : Type.

Lemma get_set_same (d : kwargs V) k v : get (set d k v) k = Some v.
Proof.
  induction d as [|[k' w] r IH]; simpl.
  - now rewrite String.eqb_refl.
  - destruct (String.eqb k' k) eqn:E; simpl; rewrite E; [reflexivity|exact IH].
Qed.

Lemma get_set_other (d : kwargs V) k v k' :
  k' <> k -> get (set d k v) k' = get d k'.
Proof.
  intros Hne. induction d as [|[k0 w] r IH]; simpl.
  - destruct (String.eqb k k') eqn:E; [|reflexivity].
    apply String.eqb_eq in E. congruence.
  - destruct (String.eqb k0 k) eqn:E; simpl.
    + apply String.eqb_eq in E. subst k0.
      destruct (String.eqb k k') eqn:E'; [|reflexivity].
      apply String.eqb_eq in E'. congruence.
    + now rewrite IH.
Qed.



Lemma get_setdefault_same (d : kwargs V) k v :
  get (setdefault d k v) k
  = match get d k with Some w => Some w | None => Some v end.
Proof.
  unfold setdefault. destruct (get d k) eqn:E; [exact E|apply get_set_same].
Qed.

Lemma get_setdefault_other (d : kwargs V) k v k' :
  k' <> k -> get (setdefault d k v) k' = get d k'.
Proof.
  intros Hne. unfold setdefault.
  destruct (get d k); [reflexivity|now apply get_set_other].
Qed.

End Kwargs.

(** *** Splitting strings *)

Lemma has_char_cons c d r :
  has_char c (String d r) = Ascii.eqb c d || has_char c r.
Proof. reflexivity. Qed.

Lemma rsplit_dot_cons c r :
  rsplit_dot (String c r)
  = match rsplit_dot r with
    | Some (m, cl) => Some (String c m, cl)
    | None => if Ascii.eqb c "."%char then Some (EmptyString, r) else None
    end.
Proof. reflexivity. Qed.

Lemma split_comma_cons c r :
  split_comma (String c r)
  = if Ascii.eqb c ","%char then EmptyString :: split_comma r
    else match split_comma r with
         | p :: ps => String c p :: ps
         | [] => [String c EmptyString]
         end.
Proof. reflexivity. Qed.

Lemma append_cons c a b :
  (String c a ++ b)%string = String c (a ++ b)%string.
Proof. reflexivity. Qed.

Lemma rsplit_dot_none s :
  has_char "."%char s = false -> rsplit_dot s = None.
Proof.
  induction s as [|c r IH]; [reflexivity|].
  rewrite has_char_cons, rsplit_dot_cons.
  intros H. apply orb_false_iff in H. destruct H as [Hc Hr].
  rewrite (IH Hr). rewrite Ascii.eqb_sym, Hc. reflexivity.
Qed.

Lemma rsplit_dot_found s :
  has_char "."%char s = true -> rsplit_dot s <> None.
Proof.
  induction s as [|c r IH]; [discriminate|].
  rewrite has_char_cons, rsplit_dot_cons. intros H.
  destruct (rsplit_dot r) as [[m cl]|]; [discriminate|].
  destruct (has_char "."%char r) eqn:Hr; [now exfalso; apply IH|].
  rewrite orb_false_r, Ascii.eqb_sym in H. rewrite H. discriminate.
Qed.

Lemma rsplit_dot_some s m c :
  rsplit_dot s = Some (m, c) ->
  s = (m ++ "." ++ c)%string /\ has_char "."%char c = false.
Proof.
  revert m. induction s as [|d r IH]; intros m H; [discriminate|].
  rewrite rsplit_dot_cons in H.
  destruct (rsplit_dot r) as [[m' c']|] eqn:E.
  - injection H as <- <-. destruct (IH m' eq_refl) as [-> Hc].
    split; [reflexivity|exact Hc].
  - destruct (Ascii.eqb d "."%char) eqn:Ed; [|discriminate].
    injection H as <- <-. apply Ascii.eqb_eq in Ed. subst d.
    split; [reflexivity|].
    destruct (has_char "."%char r) eqn:Hr; [|reflexivity].
    exfalso. now apply (rsplit_dot_found _ Hr).
Qed.

Lemma rsplit_dot_app m c :
  has_char "."%char c = false ->
  rsplit_dot (m ++ "." ++ c)%string = Some (m, c).
Proof.
  intros Hc. induction m as [|d m IH].
  - change (rsplit_dot (String "."%char c) = Some (EmptyString, c)).
    rewrite rsplit_dot_cons, (rsplit_dot_none _ Hc). reflexivity.
  - rewrite append_cons, rsplit_dot_cons, IH. reflexivity.
Qed.

Lemma split_comma_plain p :
  has_char ","%char p = false -> split_comma p = [p].
Proof.
  induction p as [|c r IH]; [reflexivity|].
  rewrite has_char_cons, split_comma_cons.
  intros H. apply orb_false_iff in H. destruct H as [Hc Hr].
  rewrite Ascii.eqb_sym, Hc, (IH Hr). reflexivity.
Qed.

Lemma split_comma_app p r :
  has_char ","%char p = false ->
  split_comma (p ++ "," ++ r)%string = p :: split_comma r.
Proof.
  induction p as [|c p IH]; [reflexivity|].
  rewrite has_char_cons, append_cons, split_comma_cons.
  intros H. apply orb_false_iff in H. destruct H as [Hc Hr].
  rewrite Ascii.eqb_sym, Hc, (IH Hr). reflexivity.
Qed.

Lemma split_comma_concat pieces :
  pieces <> [] ->
  Forall (fun p => has_char ","%char p = false) pieces ->
  split_comma (String.concat "," pieces) = pieces.
Proof.
  intros Hne H. induction H as [|p r Hp Hr IH]; [congruence|].
  destruct r as [|q r].
  - now apply split_comma_plain.
  - change (String.concat "," (p :: q :: r))
      with (p ++ "," ++ String.concat "," (q :: r))%string.
    rewrite (@split_comma_app p _ Hp). f_equal. apply IH. discriminate.
Qed.

Section Loader.

Variables (class_ module_ : Type).
Variable int : string -> option Z.
Variable import_module : string -> exn + module_.
Variable getattr_ : module_ -> string -> option class_.

Lemma ints_all pieces ns :
  Forall2 (fun p n => int p = Some n) pieces ns ->
  ints int pieces = Some ns.
Proof.
  induction 1 as [|p n ps ns Hp _ IH]; simpl; [reflexivity|].
  now rewrite Hp, IH.
Qed.

Lemma ints_refused pieces p :
  In p pieces -> int p = None -> ints int pieces = None.
Proof.
  intros Hin Hp. induction pieces as [|q r IH]; simpl; [contradiction|].
  destruct Hin as [->|Hin].
  - now rewrite Hp.
  - destruct (int q); [|reflexivity]. now rewrite (IH Hin).
Qed.

End Loader.

End ProgramFacts.

(** * The claims about the parser *)

(** The module's own demonstration parses as its comments show. *)
Example demo_parses :
  exists loc,
    parseString FEATURE demo_text
    = Ok [feature_object [tag_object (str "badger"); tag_object (str "stoat")]
            (str "an example feature");
          background_object
            [plain_statement (str "Given I have badgers in the database");
             plain_statement (str "And I am a penguin");
             table_statement (str "And this step has a table")
               (VResults
                  [VResults [VStr (str "badger"); VStr (str "stoat")];
                   VResults [VStr (str "smells like teen");
                             VStr (str "stoat")]])]]
         loc.
Proof. eexists. vm_compute. reflexivity. Qed.

(** C1, as stated: the text [Feature: F] / [Scenario: S] / one [Given] step
    is not accepted by [FEATURE]; the parse ends in a [ParseException]. *)
Lemma C1_scenario_text_is_rejected :
  parseString FEATURE scenario_text = ParseException.
Proof. vm_compute. reflexivity. Qed.

(** C1, amended: with [Background:] for [Scenario: S] the text is accepted
    and yields one [Feature], named [F] and without tags, and one
    [Background] holding exactly the one [Given] statement.  [FEATURE] has no
    production for a scenario: whatever it accepts yields one [Feature] and
    at most one [Background], and nothing else. *)
Theorem C1_feature_with_background :
  (exists loc,
     parseString FEATURE background_text
     = Ok [feature_object [] (str "F");
           background_object [plain_statement (str "Given a step")]] loc)
  /\ forall instring toks loc,
       parseString FEATURE instring = Ok toks loc ->
       exists names name,
         toks = [feature_object (map tag_object names) name]
         \/ exists statements,
              Forall is_statement statements
              /\ toks = [feature_object (map tag_object names) name;
                         background_object statements].
Proof.
  split.
  - eexists. vm_compute. reflexivity.
  - intros instring toks loc H. unfold parseString in H.
    apply FEATURE_Ok in H. destruct H as (names & name & _ & H).
    exists names, name. exact H.
Qed.

Lemma C1_feature_with_background_witness :
  exists names name,
    [feature_object [] (str "F");
     background_object [plain_statement (str "Given a step")]]
    = [feature_object (map tag_object names) name]
    \/ exists statements,
         Forall is_statement statements
         /\ [feature_object [] (str "F");
             background_object [plain_statement (str "Given a step")]]
            = [feature_object (map tag_object names) name;
               background_object statements].
Proof.
  apply (proj2 C1_feature_with_background background_text _ 39).
  vm_compute. reflexivity.
Defined.

(** C6, at the failing input: a step followed by a triple-quoted block.
    [STATEMENT] takes the step alone, with nothing attached, and stops in
    front of the block; [FEATURE] then rejects the whole text.  What the
    grammar does attach is a table or nothing: never a multi-line string,
    so never both. *)
Theorem C6_multiline_string_is_not_parsed :
  parseString STATEMENT multiline_step
  = Ok [plain_statement (str "Given a text")] 13
  /\ parseString FEATURE multiline_text = ParseException
  /\ forall instring toks loc,
       parseString STATEMENT instring = Ok toks loc ->
       exists st, toks = [st] /\ is_statement st.
Proof.
  split; [vm_compute; reflexivity|].
  split; [vm_compute; reflexivity|].
  intros instring toks loc H. unfold parseString in H.
  now apply STATEMENT_is_statement in H.
Qed.

Lemma C6_multiline_string_is_not_parsed_witness :
  exists st, [plain_statement (str "Given a text")] = [st] /\ is_statement st.
Proof.
  apply (proj2 (proj2 C6_multiline_string_is_not_parsed) multiline_step _ 13).
  vm_compute. reflexivity.
Defined.

(** C7, as stated: a table whose rows have two cells and one cell is
    accepted, and returned with rows of different column counts. *)
Lemma C7_ragged_table_is_accepted :
  exists loc,
    parseString FEATURE ragged_text
    = Ok [feature_object [] (str "F");
          background_object
            [table_statement (str "Given a table")
               (VResults [VResults [VStr (str "a"); VStr (str "b")];
                          VResults [VStr (str "c")]])]] loc
    /\ column_count (VResults [VStr (str "a"); VStr (str "b")])
       <> column_count (VResults [VStr (str "c")]).
Proof. eexists. split; [vm_compute; reflexivity|discriminate]. Qed.

(** C7, amended: the parser does not compare the column counts of the rows.
    Every table it returns has one row or more, and every row one cell or
    more. *)
Theorem C7_table_rows :
  forall fuel s loc toks loc',
    _parse TABLE fuel s loc = Ok toks loc' ->
    exists rows,
      toks = [VResults rows] /\ rows <> []
      /\ Forall (fun row => exists cells,
                   row = VResults cells /\ 1 <= length cells) rows.
Proof.
  intros fuel s loc toks loc' H. apply TABLE_Ok in H.
  destruct H as (rows & -> & Hne & F). exists rows.
  repeat split; [assumption|].
  eapply Forall_impl; [|exact F].
  intros row (cells & -> & Hc & _). exists cells. split; [reflexivity|].
  destruct cells; [now destruct Hc|simpl; lia].
Qed.

Lemma C7_table_rows_witness :
  exists rows,
    [VResults [VResults [VStr (str "a"); VStr (str "b")];
               VResults [VStr (str "c")]]] = [VResults rows]
    /\ rows <> []
    /\ Forall (fun row => exists cells,
                 row = VResults cells /\ 1 <= length cells) rows.
Proof.
  apply (@C7_table_rows 20 (lines ["| a | b |"; "| c |"]%string) 0 _ 16).
  vm_compute. reflexivity.
Defined.

(** C8: every cell of a row accepted by [TABLE_ROW] is free of whitespace
    at both ends. *)
Theorem C8_cells_are_trimmed :
  forall b fuel s loc toks loc',
    parse_gen b TABLE_ROW fuel s loc = Ok toks loc' ->
    Forall (fun v => exists cell, v = VStr cell /\ trimmed cell) toks.
Proof.
  intros b fuel s loc toks loc' H. now apply TABLE_ROW_Ok in H.
Qed.

Lemma C8_cells_are_trimmed_witness :
  Forall (fun v => exists cell, v = VStr cell /\ trimmed cell)
    [VStr (str "smells like teen"); VStr (str "stoat")].
Proof.
  apply (@C8_cells_are_trimmed true 40
           (str "   | smells like teen | stoat |") 0 _ 32).
  vm_compute. reflexivity.
Defined.

(** C9: the name of every tag [TAG] produces is not empty and holds no
    whitespace; the tags of a [Feature] are the tag lines in front of its
    header, one match of [TAG] after the other in the order of the text, and
    there may be none. *)
Theorem C9_tags :
  (forall b fuel s loc toks loc',
     parse_gen b TAG fuel s loc = Ok toks loc' ->
     exists name,
       toks = [tag_object name] /\ name <> []
       /\ forall c, In c name -> is_space c = false)
  /\ (forall fuel s loc toks loc',
        _parse FEATURE_DEFN fuel s loc = Ok toks loc' ->
        exists names name l1 l2,
          tag_lines fuel s loc names l1
          /\ _parse FEATURE_KEYWORD fuel s l1 = Ok [] l2
          /\ _parse restOfLine fuel s l2 = Ok [VStr name] loc'
          /\ toks = [feature_object (map tag_object names) name])
  /\ (exists loc,
        parseString FEATURE_DEFN (lines ["Feature: F"]%string)
        = Ok [feature_object [] (str "F")] loc)
  /\ (exists loc,
        parseString FEATURE_DEFN
          (lines ["@badger"; "@stoat"; "Feature: F"]%string)
        = Ok [feature_object
                [tag_object (str "badger"); tag_object (str "stoat")]
                (str "F")] loc).
Proof.
  split; [|split; [|split]].
  - intros b fuel s loc toks loc' H. apply TAG_Ok in H.
    destruct H as (name & -> & Hne & Hp & _). exists name.
    repeat split; [assumption|]. intros c Hc.
    apply printable_not_space.
    rewrite forallb_forall in Hp. now apply Hp.
  - intros fuel s loc toks loc' H. apply FEATURE_DEFN_Ok in H.
    destruct H as (names & name & l1 & l2 & Hl & _ & Hk & Hr & ->).
    exists names, name, l1, l2. auto.
  - eexists. vm_compute. reflexivity.
  - eexists. vm_compute. reflexivity.
Qed.

Lemma C9_tags_witness :
  (exists name,
     [tag_object (str "badger")] = [tag_object name] /\ name <> []
     /\ forall c, In c name -> is_space c = false)
  /\ exists names name l1 l2,
       tag_lines 30 (lines ["@badger"; "@stoat"; "Feature: F"]%string) 0
         names l1
       /\ _parse FEATURE_KEYWORD 30
            (lines ["@badger"; "@stoat"; "Feature: F"]%string) l1 = Ok [] l2
       /\ _parse restOfLine 30
            (lines ["@badger"; "@stoat"; "Feature: F"]%string) l2
          = Ok [VStr name] 25
       /\ [feature_object
             [tag_object (str "badger"); tag_object (str "stoat")] (str "F")]
          = [feature_object (map tag_object names) name].
Proof.
  split.
  - apply (proj1 C9_tags true 30 (lines ["@badger"]%string) 0 _ 8).
    vm_compute. reflexivity.
  - apply (proj1 (proj2 C9_tags) 30
             (lines ["@badger"; "@stoat"; "Feature: F"]%string) 0 _ 25).
    vm_compute. reflexivity.
Defined.

(** C10: a [Statement] has the attribute [table] exactly when [TABLE]
    matched after its sentence, and the attribute is then that table; when
    no table follows, the object has no such attribute, and reading it is an
    [AttributeError].  The attribute is never [None]. *)
Theorem C10_table_attribute :
  forall fuel s loc toks loc',
    _parse STATEMENT fuel s loc = Ok toks loc' ->
    exists st keyword rest l1,
      toks = [st]
      /\ _parse STATEMENT_sentence fuel s loc = Ok [VStr keyword; VStr rest] l1
      /\ getattr st "statement" = Attr (VStr (keyword ++ rest))
      /\ (_parse TABLE fuel s l1 = ParseException ->
          getattr st "table" = AttributeError
          /\ hasattr st "table" = false)
      /\ (forall t l2,
            _parse TABLE fuel s l1 = Ok [t] l2 -> getattr st "table" = Attr t)
      /\ (hasattr st "table" = true ->
          exists t l2, _parse TABLE fuel s l1 = Ok [t] l2)
      /\ getattr st "table" <> Attr VNone.
Proof.
  intros fuel s loc toks loc' H. apply STATEMENT_Ok in H.
  destruct H as (keyword & rest & l1 & Hs & _ & [[Ht ->]|(rows & Ht & _ & _ & ->)]);
    eexists; exists keyword, rest, l1;
    (split; [reflexivity|]); (split; [exact Hs|]);
    (split; [reflexivity|]).
  - split; [intros _; split; reflexivity|].
    split; [intros t l2 E; congruence|].
    split; [discriminate|discriminate].
  - split; [intros E; congruence|].
    split; [intros t l2 E; rewrite Ht in E; now injection E as <- _|].
    split; [intros _; eauto|discriminate].
Qed.

Lemma C10_table_attribute_witness :
  exists st keyword rest l1,
    [plain_statement (str "Given a step")] = [st]
    /\ _parse STATEMENT_sentence 30 (lines ["Given a step"]%string) 0
       = Ok [VStr keyword; VStr rest] l1
    /\ getattr st "statement" = Attr (VStr (keyword ++ rest))
    /\ (_parse TABLE 30 (lines ["Given a step"]%string) l1 = ParseException ->
        getattr st "table" = AttributeError /\ hasattr st "table" = false)
    /\ (forall t l2,
          _parse TABLE 30 (lines ["Given a step"]%string) l1 = Ok [t] l2 ->
          getattr st "table" = Attr t)
    /\ (hasattr st "table" = true ->
        exists t l2,
          _parse TABLE 30 (lines ["Given a step"]%string) l1 = Ok [t] l2)
    /\ getattr st "table" <> Attr VNone.
Proof.
  apply (@C10_table_attribute 30 (lines ["Given a step"]%string) 0 _ 13).
  vm_compute. reflexivity.
Defined.

(** * The claims about the runs *)

Module RunnerClaims.
Import Runner.

(** C2, at the failing input: [unittest.TestProgram.runTests] leaves
    through [sys.exit] when [exit] is set, as it is by default, and any
    exception it raises leaves [runTests] at once: the before callbacks
    have run once, the after callbacks not at all.  Only when the base
    method returns are both run once, in that order. *)
Theorem C2_after_callbacks_need_a_normal_return :
  (forall ok,
     runTests (program true ok)
     = (inr (SystemExit (negb ok)), [run_before_callbacks; super_runTests])
     /\ times run_before_callbacks (calls_of (runTests (program true ok)))
        = 1
     /\ times run_after_callbacks (calls_of (runTests (program true ok)))
        = 0)
  /\ (forall e o,
        runTests {| before_callbacks := Returns;
                    base_runTests := Raises e;
                    after_callbacks := o |}
        = (inr e, [run_before_callbacks; super_runTests]))
  /\ (forall ok,
        runTests (program false ok)
        = (inl tt,
           [run_before_callbacks; super_runTests; run_after_callbacks])).
Proof.
  split; [|split].
  - intros []; repeat split; reflexivity.
  - intros e o. reflexivity.
  - intros ok. reflexivity.
Qed.

End RunnerClaims.

Module EngineClaims.
Import Engine EngineSpec EngineFacts.

(** The engine gives the counts every test of test_after_hooks.py
    expects. *)
Example tests_pass : forallb test_passes tests = true.
Proof. vm_compute. reflexivity. Qed.

(** C3, as stated: for one background step and an outline of two steps and
    three examples, all passing and without fail-fast,
    [after.each_scenario] fires once, not three times. *)
Lemma C3_each_scenario_fires_once :
  count is_after_each_scenario
    (trace (run_feature all_pass with_row false sample_outline)) = 1
  /\ 1 <> 3.
Proof. split; [vm_compute; reflexivity|discriminate]. Qed.

(** C3, amended: for a feature with a background and one outline of three
    examples whose steps all pass, a run without fail-fast calls
    [after.each_scenario] once, for the outline, [after.outline] three
    times, once for each example, and [after.each_feature] once. *)
Theorem C3_outline_hooks :
  forall execute resolve bg templates examples,
    (forall st, execute st = Returned) ->
    length examples = 3 ->
    let t := trace (run_feature execute resolve false
                      (outline_feature bg templates examples)) in
    count is_after_each_scenario t = 1
    /\ count is_after_outline t = 3
    /\ count is_after_each_feature t = 1
    /\ count is_after_each_step t = 3 * (length bg + length templates).
Proof.
  intros execute resolve bg templates examples Hpass Hlen t. subst t.
  rewrite run_feature_outline_trace.
  repeat split; rewrite !count_app.
  - rewrite (@run_examples_all_pass execute resolve false
               is_after_each_scenario 0 0 bg templates Hpass
               (fun _ => eq_refl) (fun _ => eq_refl)).
    rewrite Hlen. reflexivity.
  - rewrite (@run_examples_all_pass execute resolve false
               is_after_outline 0 1 bg templates Hpass
               (fun _ => eq_refl) (fun _ => eq_refl)).
    rewrite Hlen. reflexivity.
  - rewrite (@run_examples_all_pass execute resolve false
               is_after_each_feature 0 0 bg templates Hpass
               (fun _ => eq_refl) (fun _ => eq_refl)).
    rewrite Hlen. reflexivity.
  - rewrite (@run_examples_all_pass execute resolve false
               is_after_each_step 1 0 bg templates Hpass
               (fun _ => eq_refl) (fun _ => eq_refl)).
    rewrite Hlen. cbn [count filter length is_after_each_step]. lia.
Qed.

Lemma C3_outline_hooks_witness :
  let t := trace (run_feature all_pass with_row false sample_outline) in
  count is_after_each_scenario t = 1
  /\ count is_after_outline t = 3
  /\ count is_after_each_feature t = 1
  /\ count is_after_each_step t = 3 * (1 + 2).
Proof.
  apply (@C3_outline_hooks all_pass with_row ["background"%string]
           ["first"; "second"]%string three_examples); reflexivity.
Defined.

(** C4, as stated: in the same feature, when the first step of the second
    example fails and fail-fast is on, [after.each_scenario] fires once,
    not twice. *)
Lemma C4_each_scenario_fires_once :
  count is_after_each_scenario
    (trace (run_feature (fails_at "first/b"%string AssertionFault) with_row true
              sample_outline)) = 1
  /\ 1 <> 2.
Proof. split; [vm_compute; reflexivity|discriminate]. Qed.

(** C4, amended: for an outline of three examples whose second example
    fails at its first step, a run with fail-fast calls [after.outline]
    twice, once for each example reached, [after.each_scenario] once, for
    the outline, and [after.each_feature] once; the steps dispatched are
    those of the first example and, of the second, the background and the
    failing step: no step of the third example runs. *)
Theorem C4_fail_fast_outline :
  forall execute resolve bg s1 rest r1 r2 r3,
    Forall (fun st => execute st = Returned) bg ->
    Forall (fun st => execute (resolve r1 st) = Returned) (s1 :: rest) ->
    execute (resolve r2 s1) <> Returned ->
    let t := trace (run_feature execute resolve true
                      (outline_feature bg (s1 :: rest) [r1; r2; r3])) in
    count is_after_outline t = 2
    /\ count is_after_each_scenario t = 1
    /\ count is_after_each_feature t = 1
    /\ dispatched t
       = (bg ++ map (resolve r1) (s1 :: rest)) ++ (bg ++ [resolve r2 s1]).
Proof.
  intros execute resolve bg s1 rest r1 r2 r3 Hbg H1 H2 t. subst t.
  assert (Hfail : is_passed (status_of (execute (resolve r2 s1))) = false).
  { destruct (execute (resolve r2 s1)) as [|[]]; [congruence| | |];
      reflexivity. }
  assert (Hfirst : Forall (fun st => execute st = Returned)
                     (bg ++ map (resolve r1) (s1 :: rest))).
  { apply Forall_app. split; [assumption|]. now apply Forall_map. }
  rewrite run_feature_outline_trace.
  cbn [run_examples].
  rewrite (@run_steps_all_pass execute true _ Hfirst).
  cbn [bind emit stop andb negb is_passed snd fst map].
  rewrite (@run_steps_pass execute true bg
             (resolve r2 s1 :: map (resolve r2) rest) Hbg).
  rewrite run_steps_failing by assumption.
  cbn [fst snd bind]. unfold stop. rewrite Hfail.
  cbn [andb negb ret snd app].
  rewrite ?app_nil_r.
  repeat split; autorewrite with events;
    rewrite ?(count_flat_map_const _ step_events (n := 0))
      by (intros; reflexivity);
    cbn [app map]; rewrite <- ?app_assoc; reflexivity.
Qed.

Lemma C4_fail_fast_outline_witness :
  let t := trace (run_feature (fails_at "first/b"%string AssertionFault) with_row
                    true sample_outline) in
  count is_after_outline t = 2
  /\ count is_after_each_scenario t = 1
  /\ count is_after_each_feature t = 1
  /\ dispatched t
     = (["background"%string]
        ++ map (with_row ["a"%string]) ["first"%string; "second"%string])
       ++ (["background"%string] ++ [with_row ["b"%string] "first"%string]).
Proof.
  apply (@C4_fail_fast_outline (fails_at "first/b"%string AssertionFault) with_row
           ["background"%string] "first"%string ["second"%string]
           ["a"%string] ["b"%string] ["c"%string]).
  - repeat constructor.
  - repeat constructor.
  - discriminate.
Defined.

(** C5: a step whose dispatch raises a fault that would end the host
    process is recorded as an error where it ran; the run returns, and the
    after hooks of that step, of its scenario and of its feature have each
    fired once, with fail-fast and without. *)
Theorem C5_system_exit_is_caught :
  forall failfast execute resolve pre x post,
    Forall (fun st => execute st = Returned) pre ->
    execute x = Raised SystemExiting ->
    ~ In x pre -> ~ In x post ->
    let r := run_feature execute resolve failfast
               (scenario_feature (pre ++ x :: post)) in
    fst r = error
    /\ count (is_after_step_of x) (snd r) = 1
    /\ count is_after_each_scenario (snd r) = 1
    /\ count is_after_each_feature (snd r) = 1
    /\ dispatched (snd r) = pre ++ [x].
Proof.
  intros failfast execute resolve pre x post Hpre Hx Hnpre Hnpost r.
  subst r. rewrite run_feature_scenario_trace.
  rewrite (@run_steps_pass execute failfast pre (x :: post) Hpre).
  rewrite run_steps_failing by (rewrite Hx; reflexivity).
  rewrite Hx. cbn [fst snd status_of].
  split; [reflexivity|].
  assert (Hmine : count (is_after_step_of x) (step_events x) = 1)
    by (unfold count; cbn; now rewrite String.eqb_refl).
  assert (Hpre0 : count (is_after_step_of x) (flat_map step_events pre) = 0)
    by (apply count_after_step_of_absent; auto).
  assert (Hpost0 : count (is_after_step_of x)
                     (flat_map skipped_events post) = 0)
    by (apply count_after_step_of_absent; auto).
  destruct failfast; repeat split;
    rewrite ?count_app, ?dispatched_app, ?Hmine, ?Hpre0, ?Hpost0,
      ?dispatched_step_events, ?dispatched_skipped_events,
      ?(count_flat_map_const _ step_events (n := 0))
        by (intros; reflexivity);
    rewrite ?(count_flat_map_const _ skipped_events (n := 0))
      by (intros; reflexivity);
    cbn; rewrite ?app_nil_r; reflexivity.
Qed.

Lemma C5_system_exit_is_caught_witness :
  let r := run_feature (fails_at "1"%string SystemExiting) with_row false
             (scenario_feature (numbered 1)) in
  fst r = error
  /\ count (is_after_step_of "1"%string) (snd r) = 1
  /\ count is_after_each_scenario (snd r) = 1
  /\ count is_after_each_feature (snd r) = 1
  /\ dispatched (snd r) = [] ++ ["1"%string].
Proof.
  apply (@C5_system_exit_is_caught false (fails_at "1"%string SystemExiting)
           with_row [] "1"%string []).
  - constructor.
  - reflexivity.
  - intros [].
  - intros [].
Defined.

End EngineClaims.

(** * More about the parser *)

(** X1: a feature file made of tag lines, the header [Feature:] with blanks
    and a name, and a background with its steps (or none) is accepted by
    [FEATURE], and the tree has the tags, the name and the statements of the
    text, in its order and unchanged.  The blanks behind the colon may run
    over line ends. *)
Theorem X1_feature_file_parses :
  forall names w name bg,
    Forall tag_name names ->
    blank w -> tabless w ->
    name <> [] -> starts_black name -> one_line name -> tabless name ->
    match bg with
    | None => True
    | Some steps =>
        Forall step_text steps /\ Forall (fun st => tabless (snd st)) steps
    end ->
    parseString FEATURE (feature_text names w name bg)
    = Ok (feature_tree names name bg)
         (S (length (feature_text names w name bg))).
Proof.
  intros names w name bg Hnames Hw Htw Hne Hblack Hline Htn Hbg.
  assert (Ht : tabless (feature_text names w name bg)).
  { unfold feature_text.
    repeat apply tabless_app; try assumption; try reflexivity.
    - now apply tag_text_tabless.
    - change (nl :: match bg with
                    | None => []
                    | Some steps => str "Background:" ++ nl :: steps_text steps
                    end)
        with ([nl] ++ match bg with
                      | None => []
                      | Some steps =>
                          str "Background:" ++ [nl] ++ steps_text steps
                      end).
      apply tabless_app; [reflexivity|].
      destruct bg as [steps|]; [|reflexivity].
      destruct Hbg as [Hs Hts].
      repeat apply tabless_app; try reflexivity.
      now apply steps_text_tabless. }
  unfold parseString. rewrite (expandtabs_tabless Ht).
  apply FEATURE_text; try assumption.
  - destruct bg as [steps|]; [apply Hbg|exact I].
  - lia.
Qed.

Lemma X1_feature_file_parses_witness :
  parseString FEATURE
    (feature_text [str "badger"; str "stoat"] (str " ")
       (str "an example feature")
       (Some [(str "Given", str " I have badgers in the database");
              (str "And", str " I am a penguin")]))
  = Ok (feature_tree [str "badger"; str "stoat"] (str "an example feature")
          (Some [(str "Given", str " I have badgers in the database");
                 (str "And", str " I am a penguin")]))
       (S (length
             (feature_text [str "badger"; str "stoat"] (str " ")
                (str "an example feature")
                (Some [(str "Given", str " I have badgers in the database");
                       (str "And", str " I am a penguin")])))).
Proof.
  apply X1_feature_file_parses.
  - repeat (constructor; [split; [discriminate|reflexivity]|]).
    constructor.
  - split; [discriminate|reflexivity].
  - reflexivity.
  - discriminate.
  - reflexivity.
  - reflexivity.
  - reflexivity.
  - split.
    + repeat (constructor;
              [split; [unfold keywords; simpl; auto
                      |split; reflexivity]|]).
      constructor.
    + repeat (constructor; [reflexivity|]). constructor.
Defined.

(** X2: a table row, cells of one character or more between bars and a
    newline behind the last bar, is accepted by [TABLE_ROW] wherever it
    stands; the result has one string for each cell, in the order of the
    row, each with the blanks at its two ends taken off. *)
Theorem X2_table_row_parses :
  forall fuel s r cells loc,
    skipn loc s = row_text cells ++ nl :: r ->
    cells <> [] -> Forall cell_text cells ->
    length cells <= fuel ->
    _parse TABLE_ROW fuel s loc
    = Ok (map (fun c => VStr (strip c)) cells)
         (loc + length (row_text cells) + 1).
Proof. intros. now apply TABLE_ROW_text with (r := r). Qed.

Lemma X2_table_row_parses_witness :
  _parse TABLE_ROW 10 (str "| smells like teen | stoat |" ++ [nl]) 0
  = Ok (map (fun c => VStr (strip c))
          [str " smells like teen "; str " stoat "])
       (0 + length (row_text [str " smells like teen "; str " stoat "]) + 1).
Proof.
  apply X2_table_row_parses with (r := []).
  - reflexivity.
  - discriminate.
  - repeat (constructor; [split; [discriminate|reflexivity]|]).
    constructor.
  - simpl. lia.
Defined.

(** X3: a row with an empty cell, two bars with nothing between them, is
    not a row: behind any number of well-formed cells, [TABLE_ROW] ends in a
    [ParseException]. *)
Theorem X3_empty_cell_is_rejected :
  forall fuel s r before loc,
    Forall cell_text before ->
    skipn loc s = "|"%char :: cells_text before ++ "|"%char :: r ->
    length before <= fuel ->
    _parse TABLE_ROW fuel s loc = ParseException.
Proof. intros. now apply TABLE_ROW_empty_cell with (r := r) (before := before). Qed.

Lemma X3_empty_cell_is_rejected_witness :
  _parse TABLE_ROW 10 (str "| a || b |" ++ [nl]) 0 = ParseException.
Proof.
  apply X3_empty_cell_is_rejected
    with (r := str " b |" ++ [nl]) (before := [str " a "]).
  - repeat (constructor; [split; [discriminate|reflexivity]|]).
    constructor.
  - reflexivity.
  - simpl. lia.
Defined.

(** X4: a keyword must end where it ends: when an identifier character
    (a letter, a digit, [_] or [$]) comes right behind [Given], [When],
    [Then] or [And], the line is not a step and [STATEMENT] ends in a
    [ParseException]. *)
Theorem X4_keyword_must_stand_alone :
  forall fuel s kw c r loc,
    In kw keywords ->
    skipn loc s = kw ++ c :: r ->
    is_ident_char c = true ->
    _parse STATEMENT fuel s loc = ParseException.
Proof.
  intros fuel s kw c r loc Hk Hs Hc. unfold STATEMENT, _parse.
  apply setParseAction_fail; [reflexivity|].
  apply And_fail. unfold STATEMENT_sentence. apply And_fail.
  eapply keyword_choice_glued; eassumption.
Qed.

Lemma X4_keyword_must_stand_alone_witness :
  _parse STATEMENT 10 (str "Andy is a penguin") 0 = ParseException.
Proof.
  apply X4_keyword_must_stand_alone
    with (kw := str "And") (c := "y"%char) (r := str " is a penguin").
  - unfold keywords. simpl. auto.
  - reflexivity.
  - reflexivity.
Defined.

(** X5: [FEATURE] accepts a text only as a whole: when it succeeds, the
    header and the background, if there is one, have been read and nothing
    but blanks is left behind them.  A description, a scenario or any other
    line after them makes the parse fail. *)
Theorem X5_nothing_is_left_over :
  forall fuel s loc toks loc',
    _parse FEATURE fuel s loc = Ok toks loc' ->
    exists l,
      _parse (And FEATURE_DEFN (Optional BACKGROUND)) fuel s loc = Ok toks l
      /\ forallb (fun c => mem c DEFAULT_WHITE_CHARS) (skipn l s) = true.
Proof.
  intros fuel s loc toks loc' H. unfold FEATURE in H.
  apply And_Ok in H. destruct H as (t1 & l1 & t2 & H1 & H2 & ->).
  apply stringEnd_Ok in H2. destruct H2 as [-> Hrest].
  exists l1. rewrite app_nil_r. split; assumption.
Qed.

Lemma X5_nothing_is_left_over_witness :
  exists l,
    _parse (And FEATURE_DEFN (Optional BACKGROUND)) 50 background_text 0
    = Ok [feature_object [] (str "F");
          background_object [plain_statement (str "Given a step")]] l
    /\ forallb (fun c => mem c DEFAULT_WHITE_CHARS) (skipn l background_text)
       = true.
Proof.
  apply (@X5_nothing_is_left_over 50 background_text 0 _ 39).
  vm_compute. reflexivity.
Defined.

(** X13: parsing a feature ends, and ends well, on every input: the result
    of [FEATURE.parseString] is a list of tokens or a [ParseException].  No
    repetition of the grammar runs without moving on, the assertions of
    [Block.add_statements] and [TaggedBlock.__init__] hold whenever they are
    reached, [tokens[0]] and [tokens[-1]] are never taken of an empty list,
    and [Statement.__init__] always meets two or three tokens. *)
Theorem X13_parsing_always_ends_well :
  forall instring, ends_well (parseString FEATURE instring).
Proof.
  intros instring. unfold parseString.
  set (s := expandtabs instring).
  apply ok_in_ends_well with (loc := 0) (d := 0) (post := S (length s)).
  apply keeps_parse with (pre := S (length s)); try lia.
  apply keeps_FEATURE. lia.
Qed.

(** X16: a feature file laid out as such files are parses into the tree of
    its lines.  Blank lines and indentation may stand before the first line
    and behind every line; the file has any number of tag lines, the header
    [Feature:] with blanks and a name, and a background (or none) whose
    steps each may be followed by the rows of a table.  The tree has the
    tags and the name of the header, and one statement for every step in the
    order of the file: its sentence is the line from the keyword to the end,
    and its table, when rows follow, has the rows in their order, each with
    its cells stripped. *)
Theorem X16_laid_out_feature_parses :
  forall f,
    feature_lines_ok f ->
    tabless (feature_lines_text f) ->
    parseString FEATURE (feature_lines_text f)
    = Ok (feature_lines_tree f) (S (length (feature_lines_text f))).
Proof.
  intros f Hok Ht. unfold parseString. rewrite (expandtabs_tabless Ht).
  apply FEATURE_lines; [lia|reflexivity|exact Hok].
Qed.

Lemma X16_laid_out_feature_parses_witness :
  parseString FEATURE demo_text
  = Ok (feature_lines_tree demo_lines) (S (length demo_text)).
Proof.
  change demo_text with (feature_lines_text demo_lines).
  apply X16_laid_out_feature_parses; [|reflexivity].
  assert (Hrow : forall c, c = str " badger           "
                           \/ c = str " stoat "
                           \/ c = str " smells like teen " ->
                           cell_text c).
  { intros c [->|[->| ->]]; (split; [discriminate|reflexivity]). }
  split; [reflexivity|]. split.
  { repeat (constructor;
            [split; [split; [discriminate|reflexivity]|reflexivity]|]).
    constructor. }
  split; [split; [discriminate|reflexivity]|].
  split; [discriminate|].
  split; [reflexivity|]. split; [reflexivity|]. split; [reflexivity|].
  split; [reflexivity|].
  constructor.
  { split; [simpl; auto|]. split; [reflexivity|]. split; [reflexivity|].
    split; [reflexivity|constructor]. }
  constructor.
  { split; [simpl; auto|]. split; [reflexivity|]. split; [reflexivity|].
    split; [reflexivity|constructor]. }
  constructor; [|constructor].
  split; [simpl; auto|]. split; [reflexivity|]. split; [reflexivity|].
  split; [reflexivity|].
  constructor.
  { split; [discriminate|]. split; [|reflexivity].
    constructor; [apply Hrow; auto|].
    constructor; [apply Hrow; auto|constructor]. }
  constructor; [|constructor].
  split; [discriminate|]. split; [|reflexivity].
  constructor; [apply Hrow; auto|].
  constructor; [apply Hrow; auto|constructor].
Defined.

(** X17: nothing may follow the header and the background but blanks.  When
    a well-formed file without a background goes on with a line that does
    not begin with [B], a description or a scenario, or a file with a
    background goes on with a line that begins neither a step nor a row,
    [FEATURE.parseString] ends in a [ParseException]. *)
Theorem X17_what_follows_is_rejected :
  forall f r,
    feature_lines_ok f ->
    ends_feature f r -> r <> [] ->
    tabless (feature_lines_text f ++ r) ->
    parseString FEATURE (feature_lines_text f ++ r) = ParseException.
Proof.
  intros f r Hok Hend Hne Ht. unfold parseString.
  rewrite (expandtabs_tabless Ht).
  apply FEATURE_stray with (f := f) (r := r);
    [lia|reflexivity|exact Hok|exact Hend|exact Hne].
Qed.

Lemma X17_what_follows_is_rejected_witness :
  parseString FEATURE
    (feature_lines_text bare_lines
     ++ str "A short definition" ++ [nl] ++ str "Scenario: first" ++ [nl])
  = ParseException.
Proof.
  apply X17_what_follows_is_rejected.
  - split; [reflexivity|]. split; [constructor|].
    split; [split; [discriminate|reflexivity]|].
    split; [discriminate|].
    split; [reflexivity|]. split; [reflexivity|]. split; [reflexivity|].
    exact I.
  - split; [reflexivity|discriminate].
  - discriminate.
  - reflexivity.
Defined.

(** X18: one tag to a line.  When blanks and then anything but the end of
    the line follow the word of a tag, a second tag for one, the line is no
    tag line and [FEATURE.parseString] ends in a [ParseException], whatever
    comes after. *)
Theorem X18_one_tag_to_a_line :
  forall lead tags n w c r,
    gap lead -> Forall tag_line_ok tags ->
    tag_name n -> line_blank w ->
    mem c [sp; tab; cr] = false -> c <> nl ->
    tabless (lead ++ tags_text tags ++ "@"%char :: n ++ w ++ c :: r) ->
    parseString FEATURE
      (lead ++ tags_text tags ++ "@"%char :: n ++ w ++ c :: r)
    = ParseException.
Proof.
  intros lead tags n w c r Hlead Htags Hn Hw Hc Hnl Ht.
  unfold parseString. rewrite (expandtabs_tabless Ht).
  apply FEATURE_bad_tag
    with (lead := lead) (tags := tags) (n := n) (w := w) (c := c) (r := r);
    try assumption; [lia|reflexivity].
Qed.

Lemma X18_one_tag_to_a_line_witness :
  parseString FEATURE
    (lines ["@badger @stoat"; "Feature: an example feature"]%string)
  = ParseException.
Proof.
  apply (@X18_one_tag_to_a_line [] [] (str "badger") (str " ") "@"%char
           (str "stoat" ++ nl :: str "Feature: an example feature" ++ [nl])).
  - reflexivity.
  - constructor.
  - split; [discriminate|reflexivity].
  - split; [discriminate|reflexivity].
  - reflexivity.
  - discriminate.
  - reflexivity.
Defined.

(** * More about the test program *)

Module ProgramExtras.
Import Program ProgramFacts.



(** X19: the colour flag of the program reaches the results.  A runner
    built by [make_runner] calls the result class with the arguments it is
    given and with the [force_color] of the program.  Here a [force_color]
    of the caller is not overridden, as it is in [make_runner]: it makes
    the call a [TypeError]. *)
Theorem X19_results_get_the_colour :
  forall (V : Type) (of_bool : bool -> V) fc args kw r args' (kw' : kwargs V),
    make_runner of_bool fc args kw = inr r ->
    match get kw' "force_color" with
    | Some _ => resultclass r args' kw' = inl TypeError
    | None =>
        exists kw'',
          resultclass r args' kw' = inr (args', kw'')
          /\ get kw'' "force_color" = Some (of_bool fc)
          /\ forall k, k <> "force_color"%string -> get kw'' k = get kw' k
    end.
Proof.
  intros V of_bool fc args kw r args' kw' Hr.
  assert (Hfc : runner_force_color r = of_bool fc).
  { revert Hr.
    unfold make_runner, extra_runner_args, update, GherkinRunner_init, pop.
    cbn [fold_left fst snd]. rewrite get_set_same.
    intros Hr. injection Hr as <-. reflexivity. }
  unfold resultclass. destruct (get kw' "force_color") eqn:E; [reflexivity|].
  eexists. split; [reflexivity|]. rewrite Hfc. split.
  - apply get_set_same.
  - intros k Hk. now apply get_set_other.
Qed.

Lemma X19_results_get_the_colour_witness :
  exists kw'',
    resultclass
      {| runner_force_color := true;
         runner_args := [];
         runner_kwargs := [("verbosity"%string, false)] |}
      [false] [("descriptions"%string, true)]
    = inr ([false], kw'')
    /\ get kw'' "force_color" = Some true
    /\ forall k, k <> "force_color"%string ->
                 get kw'' k = get [("descriptions"%string, true)] k.
Proof.
  apply (@X19_results_get_the_colour bool (fun b => b) true []
           [("verbosity"%string, false)]
           {| runner_force_color := true;
              runner_args := [];
              runner_kwargs := [("verbosity"%string, false)] |}
           [false] [("descriptions"%string, true)]).
  reflexivity.
Defined.

(** X7: the loader and the runner [TestProgram.__init__] puts among the
    keyword arguments are defaults: a [testLoader] or a [testRunner] of the
    caller is kept, a missing one is filled in, and no other keyword
    argument changes. *)
Theorem X7_loader_and_runner_are_defaults :
  forall (V : Type) (gherkin_loader runner : V) (kw : kwargs V),
    get (TestProgram_init_kwargs gherkin_loader runner kw) "testLoader"
    = Some (match get kw "testLoader" with
            | Some v => v
            | None => gherkin_loader
            end)
    /\ get (TestProgram_init_kwargs gherkin_loader runner kw) "testRunner"
       = Some (match get kw "testRunner" with
               | Some v => v
               | None => runner
               end)
    /\ forall k, k <> "testLoader"%string -> k <> "testRunner"%string ->
         get (TestProgram_init_kwargs gherkin_loader runner kw) k = get kw k.
Proof.
  intros V gl mr kw. unfold TestProgram_init_kwargs. repeat split.
  - rewrite get_setdefault_other by discriminate.
    rewrite get_setdefault_same. now destruct (get kw "testLoader").
  - rewrite get_setdefault_same.
    rewrite get_setdefault_other by discriminate.
    now destruct (get kw "testRunner").
  - intros k Hl Hr.
    rewrite (@get_setdefault_other V _ _ _ _ Hr).
    now apply get_setdefault_other.
Qed.

(** X8: the default of [--test-class] is the value of [GHERKIN_CLASS] when
    that variable is set, also when [NOSE_GHERKIN_CLASS] is set too; else
    the value of [NOSE_GHERKIN_CLASS] when that is set; else the qualified
    name of the test class of the program. *)
Theorem X8_GHERKIN_CLASS_comes_first :
  forall env module_ name,
    default_test_class_name env module_ name
    = match env "GHERKIN_CLASS"%string with
      | Some v => v
      | None =>
          match env "NOSE_GHERKIN_CLASS"%string with
          | Some v => v
          | None => qualified_name module_ name
          end
      end.
Proof.
  intros env m n. unfold default_test_class_name. cbn [fold_left].
  destruct (env "GHERKIN_CLASS"%string); reflexivity.
Qed.

Section Loader.

Variables (class_ module_ : Type).
Variable int : string -> option Z.
Variable import_module : string -> exn + module_.
Variable getattr_ : module_ -> string -> option class_.

(** X9: when the class name is [m.c] with no dot in [c], module [m] can be
    imported and has an attribute [c], and [int] accepts each of the pieces
    between the commas of the scenario indices, [setup_loader] returns
    normally and the loader has: the two flags of the program, the numbers
    in the order of the option (or [None] for the empty option), the
    attribute [c] of module [m] as test class, and as tags and excluded
    tags what was given, each once. *)
Theorem X9_setup_loader_sets_the_options :
  forall self (l : Loader class_) m c md cls pieces ns,
    test_class_name self = (m ++ "." ++ c)%string ->
    has_char "."%char c = false ->
    import_module m = inr md ->
    getattr_ md c = Some cls ->
    scenario_indices self = String.concat "," pieces ->
    Forall (fun p => has_char ","%char p = false) pieces ->
    Forall2 (fun p n => int p = Some n) pieces ns ->
    exists l',
      setup_loader int import_module getattr_ self l = (l', None)
      /\ loader_force_color l' = force_color self
      /\ loader_ignore_python l' = ignore_python self
      /\ loader_scenario_indices l'
         = match scenario_indices self with
           | EmptyString => None
           | _ => Some ns
           end
      /\ loader_test_class l' = cls
      /\ (NoDup (loader_tags l')
          /\ forall t, In t (loader_tags l')
                       <-> exists ts, tags self = Some ts /\ In t ts)
      /\ (NoDup (loader_exclude_tags l')
          /\ forall t, In t (loader_exclude_tags l')
                       <-> exists ts, exclude_tags self = Some ts /\ In t ts).
Proof.
  intros self l m c md cls pieces ns Hname Hc Himp Hget Hix Hpieces Hints.
  assert (Hset : forall o : option (list string),
             NoDup (to_set o)
             /\ forall t, In t (to_set o) <-> exists ts, o = Some ts /\ In t ts).
  { intros o. unfold to_set. split; [apply NoDup_nodup|].
    intros t. rewrite nodup_In. destruct o as [ts|].
    - split; [intros H; now exists ts|].
      intros (ts' & E & H). now injection E as ->.
    - split; [contradiction|]. intros (ts' & E & _). discriminate. }
  unfold setup_loader.
  rewrite Hname, (@rsplit_dot_app m c Hc), Himp, Hget.
  destruct (scenario_indices self) as [|a r] eqn:E.
  - eexists. split; [reflexivity|]. cbn. repeat split; apply Hset.
  - assert (Hne : pieces <> []).
    { intros ->. discriminate. }
    rewrite Hix, (@split_comma_concat pieces Hne Hpieces), (@ints_all int pieces ns Hints).
    eexists. split; [reflexivity|]. cbn. repeat split; apply Hset.
Qed.

(** X10: when [int] refuses one of the pieces between the commas of a
    scenario indices option, [setup_loader] raises [ValueError]; by then the
    two flags of the loader are set and all its other attributes are as they
    were. *)
Theorem X10_bad_index_is_a_ValueError :
  forall self (l : Loader class_) pieces p,
    scenario_indices self = String.concat "," pieces ->
    scenario_indices self <> EmptyString ->
    Forall (fun p => has_char ","%char p = false) pieces ->
    In p pieces -> int p = None ->
    setup_loader int import_module getattr_ self l
    = ({| loader_force_color := force_color self;
          loader_ignore_python := ignore_python self;
          loader_scenario_indices := loader_scenario_indices l;
          loader_test_class := loader_test_class l;
          loader_tags := loader_tags l;
          loader_exclude_tags := loader_exclude_tags l |},
       Some ValueError).
Proof.
  intros self l pieces p Hix Hne Hpieces Hin Hp.
  assert (Hnil : pieces <> []) by (intros ->; contradiction).
  unfold setup_loader.
  destruct (scenario_indices self) as [|a r] eqn:E; [congruence|].
  rewrite Hix, (@split_comma_concat pieces Hnil Hpieces),
    (@ints_refused int pieces p Hin Hp).
  reflexivity.
Qed.

(** X11: a class name without a dot makes [setup_loader] raise
    [ValueError], whatever else the options are; nothing is imported, and
    test class, tags and excluded tags of the loader stay as they were. *)
Theorem X11_class_name_needs_a_dot :
  forall self (l : Loader class_),
    has_char "."%char (test_class_name self) = false ->
    snd (setup_loader int import_module getattr_ self l) = Some ValueError
    /\ (forall other,
           setup_loader int other getattr_ self l
           = setup_loader int import_module getattr_ self l)
    /\ loader_test_class
         (fst (setup_loader int import_module getattr_ self l))
       = loader_test_class l
    /\ loader_tags (fst (setup_loader int import_module getattr_ self l))
       = loader_tags l
    /\ loader_exclude_tags
         (fst (setup_loader int import_module getattr_ self l))
       = loader_exclude_tags l.
Proof.
  intros self l H. unfold setup_loader.
  rewrite (@rsplit_dot_none _ H).
  destruct (scenario_indices self);
    [|destruct (ints int _)]; repeat split; reflexivity.
Qed.

(** X12: [setup_loader] is not all or nothing.  Whenever it raises, the
    colour and the ignore-python flag of the loader are those of the
    program already, while test class, tags and excluded tags are still the
    old ones. *)
Theorem X12_a_failed_setup_is_left_half_done :
  forall self (l l' : Loader class_) e,
    setup_loader int import_module getattr_ self l = (l', Some e) ->
    loader_force_color l' = force_color self
    /\ loader_ignore_python l' = ignore_python self
    /\ loader_test_class l' = loader_test_class l
    /\ loader_tags l' = loader_tags l
    /\ loader_exclude_tags l' = loader_exclude_tags l.
Proof.
  intros self l l' e. unfold setup_loader.
  destruct (scenario_indices self);
    [|destruct (ints int _)];
    try destruct (rsplit_dot (test_class_name self)) as [[m c]|];
    try destruct (import_module m);
    try destruct (getattr_ _ c);
    intros H; injection H as <- ?; try discriminate;
    repeat split; reflexivity.
Qed.

End Loader.

Local Open Scope string_scope.

Lemma X9_setup_loader_sets_the_options_witness :
  exists l',
    setup_loader Example.decimal Example.import_module Example.getattr_
      (Example.options "1,2,3" "aloe.testclass.TestCase") Example.fresh
    = (l', None)
    /\ loader_force_color l' = true
    /\ loader_ignore_python l' = false
    /\ loader_scenario_indices l' = Some [1; 2; 3]%Z
    /\ loader_test_class l' = "aloe.testclass:TestCase"%string
    /\ (NoDup (loader_tags l')
        /\ forall t, In t (loader_tags l')
                     <-> exists ts,
                         Some ["slow"; "db"; "slow"]%string = Some ts
                         /\ In t ts)
    /\ (NoDup (loader_exclude_tags l')
        /\ forall t, In t (loader_exclude_tags l')
                     <-> exists ts, @None (list string) = Some ts /\ In t ts).
Proof.
  apply (@X9_setup_loader_sets_the_options string string
           Example.decimal Example.import_module Example.getattr_
           (Example.options "1,2,3" "aloe.testclass.TestCase") Example.fresh
           "aloe.testclass" "TestCase" "aloe.testclass"
           "aloe.testclass:TestCase" ["1"; "2"; "3"]%string [1; 2; 3]%Z).
  - reflexivity.
  - reflexivity.
  - reflexivity.
  - reflexivity.
  - reflexivity.
  - repeat constructor.
  - repeat constructor.
Defined.

Lemma X10_bad_index_is_a_ValueError_witness :
  setup_loader Example.decimal Example.import_module Example.getattr_
    (Example.options "1,,3" "aloe.testclass.TestCase") Example.fresh
  = ({| loader_force_color := true;
        loader_ignore_python := false;
        loader_scenario_indices := None;
        loader_test_class := "unittest.TestCase"%string;
        loader_tags := [];
        loader_exclude_tags := [] |},
     Some ValueError).
Proof.
  apply (@X10_bad_index_is_a_ValueError string string
           Example.decimal Example.import_module Example.getattr_
           (Example.options "1,,3" "aloe.testclass.TestCase") Example.fresh
           ["1"; ""; "3"]%string ""%string).
  - reflexivity.
  - discriminate.
  - repeat constructor.
  - simpl. auto.
  - reflexivity.
Defined.

Lemma X11_class_name_needs_a_dot_witness :
  snd (setup_loader Example.decimal Example.import_module Example.getattr_
         (Example.options "1" "TestCase") Example.fresh)
  = Some ValueError.
Proof.
  apply (proj1 (@X11_class_name_needs_a_dot string string
                  Example.decimal Example.import_module Example.getattr_
                  (Example.options "1" "TestCase") Example.fresh
                  eq_refl)).
Defined.

Lemma X12_a_failed_setup_is_left_half_done_witness :
  loader_force_color
    (fst (setup_loader Example.decimal Example.import_module Example.getattr_
            (Example.options "7" "aloe.nothing.TestCase") Example.fresh))
  = true
  /\ loader_tags
       (fst (setup_loader Example.decimal Example.import_module
               Example.getattr_
               (Example.options "7" "aloe.nothing.TestCase") Example.fresh))
     = [].
Proof.
  destruct (@X12_a_failed_setup_is_left_half_done string string
              Example.decimal Example.import_module Example.getattr_
              (Example.options "7" "aloe.nothing.TestCase") Example.fresh
              (fst (setup_loader Example.decimal Example.import_module
                      Example.getattr_
                      (Example.options "7" "aloe.nothing.TestCase")
                      Example.fresh))
              ImportError eq_refl) as (Hc & _ & _ & Ht & _).
  split; [exact Hc|exact Ht].
Defined.

End ProgramExtras.

(** * More about the test helper *)

From Stdlib Require Import Permutation.

Module AfterHooksExtras.
Import Engine AfterHooksTest.

Lemma call_count_Permutation (h : Hook) (a b : list Hook) :
  Permutation a b -> call_count h a = call_count h b.
Proof.
  unfold call_count. induction 1 as [|x a b _ IH|x y a|a b c _ IH1 _ IH2].
  - reflexivity.
  - simpl. destruct (Hook_eqb h x); simpl; now rewrite IH.
  - simpl. destruct (Hook_eqb h x), (Hook_eqb h y); reflexivity.
  - now rewrite IH1.
Qed.

(** X14: a test written with [run_feature] passes exactly when
    [runner.run()] returned normally or the test was declared with
    [feature_will_fail], and each of the four hooks was called as often as
    the test says.  So [feature_will_fail] allows a failure and does not ask
    for one: a run that raises nothing passes such a test as well. *)
Theorem X14_when_a_hook_test_passes :
  forall runner_run t,
    run_feature runner_run t = Passes
    <-> (raised (runner_run (feature t) (with_failfast t)) = false
         \/ feature_will_fail t = true)
        /\ call_count each_feature
             (calls (runner_run (feature t) (with_failfast t)))
           = after_each_feature_count t
        /\ call_count each_scenario
             (calls (runner_run (feature t) (with_failfast t)))
           = after_each_scenario_count t
        /\ call_count each_step
             (calls (runner_run (feature t) (with_failfast t)))
           = after_each_step_count t
        /\ call_count outline
             (calls (runner_run (feature t) (with_failfast t)))
           = after_outline_count t.
Proof.
  intros runner_run t. unfold run_feature, assert_equals.
  set (ran := runner_run (feature t) (with_failfast t)).
  destruct (feature_will_fail t), (raised ran); cbn [negb andb];
    repeat match goal with
           | |- context [?a =? ?b] =>
               let E := fresh "E" in
               destruct (Nat.eqb_spec a b) as [E|E]
           end;
    split; intros H; try discriminate; try reflexivity;
    try (repeat split; auto; fail);
    try (destruct H as ([H|H] & H1 & H2 & H3 & H4);
         try discriminate; congruence).
Qed.

(** X15: the helper counts the calls of the hooks and looks at nothing
    else: two runs that call the hooks equally often, in whatever order,
    and agree on raising, get the same verdict. *)
Theorem X15_hook_tests_only_count :
  forall run1 run2 t,
    Permutation (calls (run1 (feature t) (with_failfast t)))
                (calls (run2 (feature t) (with_failfast t))) ->
    raised (run1 (feature t) (with_failfast t))
    = raised (run2 (feature t) (with_failfast t)) ->
    run_feature run1 t = run_feature run2 t.
Proof.
  intros run1 run2 t Hp Hr. unfold run_feature.
  rewrite Hr.
  now rewrite !(@call_count_Permutation _ _ _ Hp).
Qed.

Lemma X15_hook_tests_only_count_witness :
  run_feature
    (fun _ _ => {| calls := [each_step; each_step; each_scenario;
                             each_feature];
                   raised := false |})
    test_success_non_outline
  = run_feature
      (fun _ _ => {| calls := [each_feature; each_scenario; each_step;
                               each_step];
                     raised := false |})
      test_success_non_outline.
Proof.
  apply X15_hook_tests_only_count.
  - cbn [calls].
    apply Permutation_sym.
    apply (@Permutation_trans _ _ [each_scenario; each_feature; each_step;
                                   each_step]).
    + apply perm_swap.
    + apply (@Permutation_trans _ _ [each_scenario; each_step; each_feature;
                                     each_step]).
      * apply perm_skip, perm_swap.
      * apply (@Permutation_trans _ _ [each_step; each_scenario;
                                       each_feature; each_step]).
        -- apply perm_swap.
        -- apply perm_skip.
           apply (@Permutation_trans _ _ [each_scenario; each_step;
                                          each_feature]).
           ++ apply perm_skip, perm_swap.
           ++ apply perm_swap.
  - reflexivity.
Defined.

End AfterHooksExtras.
